(** * Matterfold: ligand / metal-cluster docking

    A shallow embedding of [src/matterfold/mofs/ligand_metal_docking.py]
    and the properties its specification states about it.

    Conventions of the embedding.

    - Numbers.  A NumPy [float64] is modelled by the type [fl]: an exact
      real number or [NaN].  Rounding and overflow are idealised away
      (arithmetic on numbers is the arithmetic of the reals), but the one
      undefined operation the program can reach, the mean of an empty
      selection ([0.0 / 0]), yields [NaN] as in NumPy, and [NaN] then
      propagates through arithmetic, [np.min] and [np.minimum] and makes
      every comparison false.
      Statements about distances and comparisons are made on the
      computed values; where the specification turns on exactness, the
      lines in question are embedded on binary64 numbers as well
      (module [Binary64]).
    - Arrays.  An array of shape [(3,)] is a [vec]; an array of shape
      [(n, 3)] is a [list vec]; a 3x3 matrix is a [mat].
    - Objects.  ASE [Atoms] objects live in a heap (a list of objects,
      addressed by position); [Atoms.copy] allocates, [set_positions] and
      [+=] update in place.  [get_positions] returns a copy of the array,
      hence a value.
    - Exceptions.  Every computation returns [Return v] or [Raise e].
    - Library calls.  [scipy.optimize.minimize] and
      [scipy.spatial.ConvexHull] are parameters of the development; every
      call is recorded, with its arguments, in a log carried by the state. *)

From Stdlib Require Import Reals Lra Lia ZArith String.

From Stdlib Require Import ClassicalDescription.

From Stdlib Require PrimFloat.

From stdpp Require Import base option list.

Set Default Proof Using "Type".

Set Warnings "-inexact-float".

(** ** Exceptions and results *)

Inductive exn : Type :=
  | IndexError
  | ValueError (msg : string)
  | HullError        (* whatever scipy.spatial.ConvexHull raises *)
  | AttributeError.  (* a reference that is not an Atoms object *)

Inductive result (A : Type) : Type :=
  | Return (a : A)
  | Raise (e : exn).

Arguments Return {A} a.

Arguments Raise {A} e.

Definition steric_message : string :=
  "Steric hindrance detected between metal centers or with the ligand.".

Definition zero_size_message : string :=
  "zero-size array to reduction operation minimum which has no identity".

Definition wrong_shape_message : string :=
  "Array positions has wrong shape".

Definition StericClash : exn := ValueError steric_message.

#[global] Instance result_ret : MRet result := fun A a => Return a.

#[global] Instance result_bind : MBind result := fun A B f r =>
  match r with
  | Return a => f a
  | Raise e => Raise e
  end.

(** ** Numbers: reals with NaN *)

Inductive fl : Type :=
  | Num (r : R)
  | NaN.

Module Fl.

Local Open Scope R_scope.

Definition lift1 (op : R -> R) (a : fl) : fl :=
  match a with
  | Num x => Num (op x)
  | NaN => NaN
  end.

Definition lift2 (op : R -> R -> R) (a b : fl) : fl :=
  match a, b with
  | Num x, Num y => Num (op x y)
  | _, _ => NaN
  end.

Definition add : fl -> fl -> fl := lift2 Rplus.

Definition sub : fl -> fl -> fl := lift2 Rminus.

Definition mul : fl -> fl -> fl := lift2 Rmult.

Definition neg : fl -> fl := lift1 Ropp.

Definition cos : fl -> fl := lift1 Rtrigo_def.cos.

Definition sin : fl -> fl := lift1 Rtrigo_def.sin.

(** Division.  [0 / 0] is NaN.  A non-zero number over zero would be an
    infinity, which [fl] does not have; the program never divides a
    non-zero number by zero (the mean divides [0.0] by [0], the
    normalisation divides by a norm that is at least [1e-10]). *)
Definition div (a b : fl) : fl :=
  match a, b with
  | Num x, Num y => if Req_dec_T y 0 then NaN else Num (x / y)
  | _, _ => NaN
  end.

Definition sqrt (a : fl) : fl :=
  match a with
  | Num x => if Rlt_dec x 0 then NaN else Num (R_sqrt.sqrt x)
  | NaN => NaN
  end.

(** [a < b] on floats: false as soon as one side is NaN. *)
Definition ltb (a b : fl) : bool :=
  match a, b with
  | Num x, Num y => if Rlt_dec x y then true else false
  | _, _ => false
  end.

(** [np.minimum]: propagates NaN. *)
Definition minimum : fl -> fl -> fl := lift2 Rmin.

Definition of_nat (n : nat) : fl := Num (INR n).

Definition finite (a : fl) : Prop := exists x, a = Num x.

End Fl.

(** ** Arrays of shape (3,), (n, 3) and (3, 3) *)

Record vec : Type := V3 { vx : fl; vy : fl; vz : fl }.

Record mat : Type := M3 { row0 : vec; row1 : vec; row2 : vec }.

Definition vnum (x y z : R) : vec := V3 (Num x) (Num y) (Num z).

Definition vadd (a b : vec) : vec :=
  V3 (Fl.add (vx a) (vx b)) (Fl.add (vy a) (vy b)) (Fl.add (vz a) (vz b)).

Definition vsub (a b : vec) : vec :=
  V3 (Fl.sub (vx a) (vx b)) (Fl.sub (vy a) (vy b)) (Fl.sub (vz a) (vz b)).

(** [s * v] for a scalar [s]. *)
Definition vscale (s : fl) (v : vec) : vec :=
  V3 (Fl.mul s (vx v)) (Fl.mul s (vy v)) (Fl.mul s (vz v)).

(** [v / s] for a scalar [s]. *)
Definition vdiv (v : vec) (s : fl) : vec :=
  V3 (Fl.div (vx v) s) (Fl.div (vy v) s) (Fl.div (vz v) s).

(** [np.linalg.norm] of one row. *)
Definition vnorm (v : vec) : fl :=
  Fl.sqrt (Fl.add (Fl.add (Fl.mul (vx v) (vx v)) (Fl.mul (vy v) (vy v)))
                  (Fl.mul (vz v) (vz v))).

Definition vfinite (v : vec) : Prop :=
  Fl.finite (vx v) /\ Fl.finite (vy v) /\ Fl.finite (vz v).

Definition z_axis : vec := vnum 0 0 1.

Definition vdot (a b : vec) : fl :=
  Fl.add (Fl.add (Fl.mul (vx a) (vx b)) (Fl.mul (vy a) (vy b)))
         (Fl.mul (vz a) (vz b)).

Definition col0 (m : mat) : vec := V3 (vx (row0 m)) (vx (row1 m)) (vx (row2 m)).

Definition col1 (m : mat) : vec := V3 (vy (row0 m)) (vy (row1 m)) (vy (row2 m)).

Definition col2 (m : mat) : vec := V3 (vz (row0 m)) (vz (row1 m)) (vz (row2 m)).

(** [a @ b] *)
Definition mat_mul (a b : mat) : mat :=
  let row r := V3 (vdot r (col0 b)) (vdot r (col1 b)) (vdot r (col2 b)) in
  M3 (row (row0 a)) (row (row1 a)) (row (row2 a)).

(** One row of [np.dot(x, m.T)]: entry [j] is [sum_k x[k] * m[j][k]]. *)
Definition dot_transpose (x : vec) (m : mat) : vec :=
  V3 (vdot x (row0 m)) (vdot x (row1 m)) (vdot x (row2 m)).

(** ** NumPy helpers *)

(** [np.sum] of a one-dimensional array. *)
Definition np_sum (l : list fl) : fl := fold_left Fl.add l (Num 0).

(** [np.mean(rows, axis=0)]: column sums divided by the number of rows;
    NaN in every column when there is no row. *)
Definition np_mean_axis0 (rows : list vec) : vec :=
  let n := Fl.of_nat (length rows) in
  V3 (Fl.div (np_sum (map vx rows)) n)
     (Fl.div (np_sum (map vy rows)) n)
     (Fl.div (np_sum (map vz rows)) n).

(** Normalisation of one index of a fancy index: negative indices count
    from the end, anything outside [-n, n) raises. *)
Definition np_index (n : nat) (i : Z) : result nat :=
  if (0 <=? i)%Z && (i <? Z.of_nat n)%Z then Return (Z.to_nat i)
  else if (- Z.of_nat n <=? i)%Z && (i <? 0)%Z then Return (Z.to_nat (i + Z.of_nat n))
  else Raise IndexError.

(** [a[indices]] for a list of integer indices. *)
Fixpoint take_rows {A : Type} (a : list A) (indices : list Z) : result (list A) :=
  match indices with
  | [] => Return []
  | i :: rest =>
      j ← np_index (length a) i;
      match a !! j with
      | Some x => xs ← take_rows a rest; Return (x :: xs)
      | None => Raise IndexError
      end
  end.

(** [a[i]] for one non-negative index. *)
Definition get_row {A : Type} (a : list A) (i : nat) : result A :=
  match a !! i with
  | Some x => Return x
  | None => Raise IndexError
  end.

(** [range(n)] as Python integers. *)
Definition py_range (n : nat) : list Z := map Z.of_nat (seq 0 n).

(** [i in l] for a list of integers. *)
Definition py_in (i : Z) (l : list Z) : bool := existsb (Z.eqb i) l.

(** [np.delete(a, c)]: raises when [c] is out of bounds. *)
Definition np_delete {A : Type} (a : list A) (c : nat) : result (list A) :=
  if (c <? length a)%nat then Return (delete c a) else Raise IndexError.

(** [np.unique] of integers: sorted, without repetition. *)
Fixpoint insert_unique (x : nat) (l : list nat) : list nat :=
  match l with
  | [] => [x]
  | y :: ys =>
      if (x <? y)%nat then x :: y :: ys
      else if (x =? y)%nat then y :: ys
      else y :: insert_unique x ys
  end.

Definition np_unique (l : list nat) : list nat := foldr insert_unique [] l.

(** [np.min(np.linalg.norm(atoms[:, None, :] - others[None, :, :], axis=2),
    axis=1)]: for each atom the smallest distance to [others].  The
    reduction has no identity and raises on zero columns. *)
Definition min_distances_to (atoms others : list vec) : result (list fl) :=
  match others with
  | [] => Raise (ValueError zero_size_message)
  | o :: os =>
      Return (map (fun a =>
                     fold_left Fl.minimum
                       (map (fun p => vnorm (vsub a p)) os)
                       (vnorm (vsub a o)))
                  atoms)
  end.

(** [np.any(d < bound)] *)
Definition np_any_lt (d : list fl) (bound : fl) : bool :=
  existsb (fun x => Fl.ltb x bound) d.

(** ** The numerical stages of one site (lines 38-177 of the source) *)

(** Lines 38-54: site positions, site centroid and direction vector.
    [n_ligand] is [len(ligand)]. *)
Definition site_geometry (ligand_positions : list vec) (n_ligand : nat)
    (site_indices : list Z) : result (list vec * vec * vec) :=
  site_positions ← take_rows ligand_positions site_indices;
  let site_centroid := np_mean_axis0 site_positions in
  let non_site_indices :=
    List.filter (fun i => negb (py_in i site_indices)) (py_range n_ligand) in
  direction_vector ←
    match non_site_indices with
    | [] => Return z_axis
    | _ :: _ =>
        non_site_positions ← take_rows ligand_positions non_site_indices;
        let non_site_centroid := np_mean_axis0 non_site_positions in
        let direction_vector := vsub site_centroid non_site_centroid in
        let norm := vnorm direction_vector in
        Return (if Fl.ltb norm (Num 1e-10) then z_axis
                else vdiv direction_vector norm)
    end;
  Return (site_positions, site_centroid, direction_vector).

(** Lines 57-60. *)
Definition position_objective_function (site_positions : list vec)
    (site_centroid direction_vector : vec) (bond_distance : fl)
    (scale_factor : fl) : fl :=
  let proposed_position := vadd site_centroid (vscale scale_factor direction_vector) in
  let distances := map (fun p => vnorm (vsub p proposed_position)) site_positions in
  np_sum (map (fun d => let e := Fl.sub d bond_distance in Fl.mul e e) distances).

(** Line 64. *)
Definition optimal_position_of (site_centroid direction_vector : vec) (x : fl) : vec :=
  vadd site_centroid (vscale x direction_vector).

(** Line 69: [np.unique(hull.simplices.flatten())[0]]. *)
Definition coordinating_atom_index_of (simplices : list (list nat)) : result nat :=
  get_row (np_unique (concat simplices)) 0.

(** Lines 76-77: the translation of the copied positions. *)
Definition translate_to (metal_center_positions : list vec)
    (coordinating_atom_index : nat) (optimal_position : vec) : result (list vec) :=
  p ← get_row metal_center_positions coordinating_atom_index;
  let translation_vector := vsub optimal_position p in
  Return (map (fun q => vadd q translation_vector) metal_center_positions).

(** Lines 82-91 and 136-145: [R = Rz @ Ry @ Rx]. *)
Definition euler_matrix (rotation_angles : vec) : mat :=
  let theta_x := vx rotation_angles in
  let theta_y := vy rotation_angles in
  let theta_z := vz rotation_angles in
  let Rx := M3 (vnum 1 0 0)
               (V3 (Num 0) (Fl.cos theta_x) (Fl.neg (Fl.sin theta_x)))
               (V3 (Num 0) (Fl.sin theta_x) (Fl.cos theta_x)) in
  let Ry := M3 (V3 (Fl.cos theta_y) (Num 0) (Fl.sin theta_y))
               (vnum 0 1 0)
               (V3 (Fl.neg (Fl.sin theta_y)) (Num 0) (Fl.cos theta_y)) in
  let Rz := M3 (V3 (Fl.cos theta_z) (Fl.neg (Fl.sin theta_z)) (Num 0))
               (V3 (Fl.sin theta_z) (Fl.cos theta_z) (Num 0))
               (vnum 0 0 1) in
  mat_mul (mat_mul Rz Ry) Rx.

(** Lines 93-96 and 147-150:
    [np.dot(positions - optimal_position, R.T) + optimal_position]. *)
Definition rotate_about (optimal_position : vec) (R : mat) (positions : list vec) : list vec :=
  map (fun p => vadd (dot_transpose (vsub p optimal_position) R) optimal_position)
      positions.

(** Lines 99-122 and 153-174 (the same block, once in the objective and
    once in the validator): the non-coordinating atoms of [positions] and,
    for each of them, the minimum distance to the ligand atoms and the
    previously placed metal positions. *)
Definition clearances (n_metal coordinating_atom_index : nat)
    (ligand_positions : list vec) (previous_metal_positions : list (list vec))
    (positions : list vec) : result (list vec * list fl) :=
  metal_indices ← np_delete (seq 0 n_metal) coordinating_atom_index;
  metal_atoms_positions ← take_rows positions (map Z.of_nat metal_indices);
  min_distances ← min_distances_to metal_atoms_positions ligand_positions;
  min_distances ←
    match previous_metal_positions with
    | [] => Return min_distances
    | _ :: _ =>
        let prev_metals := concat previous_metal_positions in
        distances_metals ← min_distances_to metal_atoms_positions prev_metals;
        Return (zip_with Fl.minimum min_distances distances_metals)
    end;
  Return (metal_atoms_positions, min_distances).

(** Lines 80-124. *)
Definition rotation_objective_function (metal_center_positions : list vec)
    (optimal_position : vec) (n_metal coordinating_atom_index : nat)
    (ligand_positions : list vec) (previous_metal_positions : list (list vec))
    (rotation_angles : vec) : result fl :=
  let R := euler_matrix rotation_angles in
  let rotated_positions := rotate_about optimal_position R metal_center_positions in
  '(_, min_distances) ← clearances n_metal coordinating_atom_index ligand_positions
                           previous_metal_positions rotated_positions;
  Return (Fl.neg (np_sum min_distances)).

(** Line 127. *)
Definition initial_angles : vec := vnum 0 0 0.

(** ** Objects, the heap and the log of library calls *)

(** An atom of an [Atoms] object: a species label and a position. *)
Record atom : Type := Atom { species : string; position : vec }.

(** A reference to an [Atoms] object: its position in the heap. *)
Definition loc : Type := nat.

(** The calls of library functions, with their arguments. *)
Inductive call : Type :=
  | CallMinimizeScalar (objective : fl -> fl) (x0 : fl)
  | CallConvexHull (points : list vec)
  | CallMinimizeAngles (objective : vec -> result fl) (x0 : vec).

(** The state: the objects and the log of calls, oldest first. *)
Record world : Type := World { heap : list (list atom); calls : list call }.

(** Computations: state passing, with exceptions; the state survives an
    exception. *)
Definition M (A : Type) : Type := world -> result A * world.

#[global] Instance M_ret : MRet M := fun A a w => (Return a, w).

#[global] Instance M_bind : MBind M := fun A B f m w =>
  match m w with
  | (Return a, w') => f a w'
  | (Raise e, w') => (Raise e, w')
  end.

Definition raise {A : Type} (e : exn) : M A := fun w => (Raise e, w).

Definition lift {A : Type} (r : result A) : M A := fun w => (r, w).

(** Dereferencing. *)
Definition with_object {A : Type} (l : loc) (k : list atom -> M A) : M A :=
  fun w =>
    match heap w !! l with
    | Some a => k a w
    | None => (Raise AttributeError, w)
    end.

(** [Atoms.copy()]: a new object with the same atoms. *)
Definition Atoms_copy (l : loc) : M loc :=
  with_object l (fun a w =>
    (Return (length (heap w)), World (heap w ++ [a]) (calls w))).

(** [Atoms.get_positions()]: a copy of the positions array. *)
Definition get_positions (l : loc) : M (list vec) :=
  with_object l (fun a => mret (map position a)).

(** [len(atoms)] *)
Definition Atoms_len (l : loc) : M nat :=
  with_object l (fun a => mret (length a)).

(** The atoms of [a] with the positions [ps]. *)
Definition with_positions (a : list atom) (ps : list vec) : list atom :=
  zip_with (fun x p => Atom (species x) p) a ps.

(** [Atoms.set_positions(ps)]: in place; the array must have the shape
    of the one it replaces. *)
Definition set_positions (l : loc) (ps : list vec) : M unit :=
  with_object l (fun a w =>
    if (length ps =? length a)%nat
    then (Return tt, World (<[l := with_positions a ps]> (heap w)) (calls w))
    else (Raise (ValueError wrong_shape_message), w)).

(** [self += other]: [self] is extended in place by the atoms of [other]. *)
Definition Atoms_iadd (self other : loc) : M unit :=
  with_object self (fun a =>
  with_object other (fun b w =>
    (Return tt, World (<[self := a ++ b]> (heap w)) (calls w)))).

(** Appending to the log. *)
Definition record (c : call) : M unit :=
  fun w => (Return tt, World (heap w) (calls w ++ [c])).

(** A [for] loop threading the loop-carried local state. *)
Fixpoint for_each {A S : Type} (body : S -> A -> M S) (s : S) (l : list A) : M S :=
  match l with
  | [] => mret s
  | x :: rest => s' ← body s x; for_each body s' rest
  end.

(** ** The program *)

(** The two SciPy entry points the program calls.  They are external
    code: the development is parametric in them. *)
Class SciPy : Type := {
  (** [minimize(f, x0, method='L-BFGS-B').x[0]] for a scalar problem *)
  lbfgsb_scalar : (fl -> fl) -> fl -> fl;
  (** [minimize(f, x0, method='L-BFGS-B').x] for the three angles; an
      exception raised by the objective propagates to the caller *)
  lbfgsb_angles : (vec -> result fl) -> vec -> result vec;
  (** [ConvexHull(points).simplices], or [None] when the constructor raises *)
  hull_simplices : list vec -> option (list (list nat))
}.

Section Definitions.
Context {lib : SciPy}.

(** Lines 63 and 128-132: the two calls of [minimize], and line 68, the
    call of [ConvexHull]; each is logged before its result is used. *)
Definition minimize_scalar (f : fl -> fl) (x0 : fl) : M fl :=
  _ ← record (CallMinimizeScalar f x0);
  mret (lbfgsb_scalar f x0).

Definition minimize_angles (f : vec -> result fl) (x0 : vec) : M vec :=
  _ ← record (CallMinimizeAngles f x0);
  lift (lbfgsb_angles f x0).

Definition ConvexHull (points : list vec) : M (list (list nat)) :=
  _ ← record (CallConvexHull points);
  match hull_simplices points with
  | Some simplices => mret simplices
  | None => raise HullError
  end.

(** The body of the loop, lines 37-182.  [len(ligand)] (line 43) and
    [len(metal_center)] (lines 99 and 153) are read once, before the
    stage that uses them: nothing writes to these objects in between. *)
Definition site_body (ligand metal_center combined_structure : loc)
    (ligand_positions : list vec) (bond_distance : fl)
    (previous_metal_positions : list (list vec)) (site_indices : list Z)
    : M (list (list vec)) :=
  n_ligand ← Atoms_len ligand;
  '(site_positions, site_centroid, direction_vector) ←
    lift (site_geometry ligand_positions n_ligand site_indices);
  x ← minimize_scalar
        (position_objective_function site_positions site_centroid
           direction_vector bond_distance)
        bond_distance;
  let optimal_position := optimal_position_of site_centroid direction_vector x in
  metal_positions ← get_positions metal_center;
  simplices ← ConvexHull metal_positions;
  coordinating_atom_index ← lift (coordinating_atom_index_of simplices);
  metal_center_copy ← Atoms_copy metal_center;
  metal_center_positions ← get_positions metal_center_copy;
  metal_center_positions ←
    lift (translate_to metal_center_positions coordinating_atom_index optimal_position);
  n_metal ← Atoms_len metal_center;
  rotation_result ←
    minimize_angles
      (rotation_objective_function metal_center_positions optimal_position
         n_metal coordinating_atom_index ligand_positions previous_metal_positions)
      initial_angles;
  let R := euler_matrix rotation_result in
  let final_positions := rotate_about optimal_position R metal_center_positions in
  '(metal_atoms_positions, min_distances) ←
    lift (clearances n_metal coordinating_atom_index ligand_positions
            previous_metal_positions final_positions);
  if np_any_lt min_distances bond_distance then raise StericClash
  else
    _ ← set_positions metal_center_copy final_positions;
    _ ← Atoms_iadd combined_structure metal_center_copy;
    mret (previous_metal_positions ++ [metal_atoms_positions]).

(** Lines 8-184. *)
Definition ligand_metal_docking (ligand metal_center : loc)
    (bonding_sites : list (list Z)) (bond_distance : fl) : M loc :=
  combined_structure ← Atoms_copy ligand;
  ligand_positions ← get_positions ligand;
  _ ← for_each (site_body ligand metal_center combined_structure
                  ligand_positions bond_distance)
        [] bonding_sites;
  mret combined_structure.

(** ** The loop body with its heap reads resolved

    What [site_body] does in a state where the ligand holds [L], the
    template [T] and the combined structure [C]: the result, the objects
    allocated and written, and the calls logged, stage by stage
    (lemma [site_body_eq]). *)
Definition site_body_resolved (L T : list atom) (combined_structure : loc)
    (C : list atom) (bond_distance : fl) (previous : list (list vec))
    (site_indices : list Z) (w : world) : result (list (list vec)) * world :=
  let Lp := map position L in
  let Tp := map position T in
  match site_geometry Lp (length L) site_indices with
  | Raise e => (Raise e, w)
  | Return (sp, sc, dir) =>
    let f := position_objective_function sp sc dir bond_distance in
    let opt := optimal_position_of sc dir (lbfgsb_scalar f bond_distance) in
    let log1 := (calls w ++ [CallMinimizeScalar f bond_distance]) ++ [CallConvexHull Tp] in
    match hull_simplices Tp with
    | None => (Raise HullError, World (heap w) log1)
    | Some simplices =>
      match coordinating_atom_index_of simplices with
      | Raise e => (Raise e, World (heap w) log1)
      | Return c =>
        match translate_to Tp c opt with
        | Raise e => (Raise e, World (heap w ++ [T]) log1)
        | Return mcp =>
          let g := rotation_objective_function mcp opt (length T) c Lp previous in
          let log2 := log1 ++ [CallMinimizeAngles g initial_angles] in
          match lbfgsb_angles g initial_angles with
          | Raise e => (Raise e, World (heap w ++ [T]) log2)
          | Return angles =>
            let fp := rotate_about opt (euler_matrix angles) mcp in
            match clearances (length T) c Lp previous fp with
            | Raise e => (Raise e, World (heap w ++ [T]) log2)
            | Return (nm, md) =>
              if np_any_lt md bond_distance
              then (Raise StericClash, World (heap w ++ [T]) log2)
              else (Return (previous ++ [nm]),
                    World (<[combined_structure := C ++ with_positions T fp]>
                             (heap w ++ [with_positions T fp])) log2)
            end
          end
        end
      end
    end
  end.

(** ** The numerical outcome of one site, without the state

    A [plan] gathers the values one iteration computes; [site_plan] is
    the iteration up to the validator, [place_site] adds the validator,
    [place_sites] threads [previous_metal_positions] through the sites. *)
Record plan : Type := Plan {
  plan_site_positions : list vec;
  plan_site_centroid : vec;
  plan_direction : vec;
  plan_scale : fl;                 (* position_result.x[0] *)
  plan_optimal_position : vec;
  plan_coordinating : nat;         (* coordinating_atom_index *)
  plan_translated : list vec;      (* metal_center_positions after line 77 *)
  plan_angles : vec;               (* rotation_result.x *)
  plan_final : list vec;           (* final_positions *)
  plan_metal_atoms : list vec;     (* metal_atoms_positions, line 155 *)
  plan_min_distances : list fl;    (* min_distances, line 162-174 *)
  plan_calls : list call           (* the library calls of this site *)
}.

(** Lines 38-174 on the positions [Lp] of the ligand and [Tp] of the
    template. *)
Definition site_plan (Lp Tp : list vec) (bond_distance : fl)
    (previous : list (list vec)) (site_indices : list Z) : result plan :=
  '(sp, sc, dir) ← site_geometry Lp (length Lp) site_indices;
  let f := position_objective_function sp sc dir bond_distance in
  let x := lbfgsb_scalar f bond_distance in
  let opt := optimal_position_of sc dir x in
  simplices ← match hull_simplices Tp with
              | Some s => Return s
              | None => Raise HullError
              end;
  c ← coordinating_atom_index_of simplices;
  mcp ← translate_to Tp c opt;
  let g := rotation_objective_function mcp opt (length Tp) c Lp previous in
  angles ← lbfgsb_angles g initial_angles;
  let fp := rotate_about opt (euler_matrix angles) mcp in
  '(nm, md) ← clearances (length Tp) c Lp previous fp;
  Return (Plan sp sc dir x opt c mcp angles fp nm md
            [CallMinimizeScalar f bond_distance; CallConvexHull Tp;
             CallMinimizeAngles g initial_angles]).

(** The validator, lines 176-177. *)
Definition place_site (Lp Tp : list vec) (bond_distance : fl)
    (previous : list (list vec)) (site_indices : list Z) : result plan :=
  p ← site_plan Lp Tp bond_distance previous site_indices;
  if np_any_lt (plan_min_distances p) bond_distance then Raise StericClash
  else Return p.

(** All sites in order; [previous] grows by the non-coordinating atoms
    of each placed instance. *)
Fixpoint place_sites (Lp Tp : list vec) (bond_distance : fl)
    (previous : list (list vec)) (sites : list (list Z)) : result (list plan) :=
  match sites with
  | [] => Return []
  | site :: rest =>
      p ← place_site Lp Tp bond_distance previous site;
      ps ← place_sites Lp Tp bond_distance (previous ++ [plan_metal_atoms p]) rest;
      Return (p :: ps)
  end.

(** The copy of the template after [set_positions(final_positions)]. *)
Definition instance_of (T : list atom) (p : plan) : list atom :=
  with_positions T (plan_final p).

(** The state after the sites of [plans] have been placed, starting
    from [w] where the combined structure held [C]. *)
Definition world_after (combined_structure : loc) (C T : list atom)
    (plans : list plan) (w : world) : world :=
  World (<[combined_structure := C ++ concat (map (instance_of T) plans)]>
           (heap w ++ map (instance_of T) plans))
        (calls w ++ concat (map plan_calls plans)).

(** ** Assumptions and predicates of the statements *)

(** The exceptions the stages before the validator raise. *)
Definition benign (e : exn) : Prop :=
  e = IndexError \/ e = ValueError zero_size_message \/ e = HullError.

(** What the development assumes of [minimize]: it raises only what its
    objective raises. *)
Definition minimize_propagates : Prop :=
  forall f x0 e, lbfgsb_angles f x0 = Raise e -> exists x, f x = Raise e.

(** The arguments every library call of a run is made with. *)
Definition call_ok (Tp : list vec) (bond_distance : fl) (c : call) : Prop :=
  match c with
  | CallMinimizeScalar _ x0 => x0 = bond_distance
  | CallConvexHull points => points = Tp
  | CallMinimizeAngles _ x0 => x0 = initial_angles
  end.

(** The three objects of an iteration; the combined structure is
    neither the ligand nor the template. *)
Definition objects (ligand metal_center combined : loc) (L T C : list atom)
    (w : world) : Prop :=
  heap w !! ligand = Some L /\ heap w !! metal_center = Some T
  /\ heap w !! combined = Some C
  /\ combined <> ligand /\ combined <> metal_center.

(** The state in which the loop starts. *)
Definition world_copied (L : list atom) (w : world) : world :=
  World (heap w ++ [L]) (calls w).

(** The heap after a successful call: the objects that were there, the
    combined structure, and one (final) copy of the template per site. *)
Definition heap_after (L T : list atom) (plans : list plan) (h : list (list atom))
    : list (list atom) :=
  h ++ [L ++ concat (map (instance_of T) plans)] ++ map (instance_of T) plans.

(** An index NumPy accepts for an axis of length [n]. *)
Definition numpy_valid (n : nat) (i : Z) : Prop :=
  (- Z.of_nat n <= i < Z.of_nat n)%Z.

(** All points in one plane [a x + b y + c z = d]. *)
Definition coplanar (pts : list vec) : Prop :=
  exists a b c d : R,
    (a <> 0 \/ b <> 0 \/ c <> 0)%R
    /\ Forall (fun p => exists x y z, p = vnum x y z /\ (a * x + b * y + c * z = d)%R) pts.

(** All points on one line [(x0, y0, z0) + t (u, v, w)]. *)
Definition collinear (pts : list vec) : Prop :=
  exists x0 y0 z0 u v w : R,
    Forall (fun p => exists t, p = vnum (x0 + t * u) (y0 + t * v) (z0 + t * w)) pts.

(** Not full-dimensional in three dimensions. *)
Definition degenerate (pts : list vec) : Prop :=
  length pts < 4 \/ collinear pts \/ coplanar pts.

(** Qhull's contract on such input: the constructor raises. *)
Definition qhull_rejects_degenerate : Prop :=
  forall pts, degenerate pts -> hull_simplices pts = None.

(** The distance of two finite points, as a real number. *)
Definition distance (a b : vec) (d : R) : Prop := vnorm (vsub a b) = Num d.

End Definitions.

(** ** Real geometry used in the statements *)

Section RealGeometry.
Local Open Scope R_scope.

(** The three elementary rotations, the squared norm, and the
    embedding of real triples. *)
Definition rot_x (t : R) (v : R * R * R) : R * R * R :=
  let '(x, y, z) := v in (x, y * cos t - z * sin t, y * sin t + z * cos t).

Definition rot_y (t : R) (v : R * R * R) : R * R * R :=
  let '(x, y, z) := v in (x * cos t + z * sin t, y, z * cos t - x * sin t).

Definition rot_z (t : R) (v : R * R * R) : R * R * R :=
  let '(x, y, z) := v in (x * cos t - y * sin t, x * sin t + y * cos t, z).

Definition sq (v : R * R * R) : R :=
  let '(x, y, z) := v in x * x + y * y + z * z.

Definition vec_of (v : R * R * R) : vec :=
  let '(x, y, z) := v in vnum x y z.

(** The two points are at a distance of at least [b]. *)
Definition clear_by (b : R) (a q : vec) : Prop :=
  exists d, distance a q d /\ b <= d.

(** The objective of the position solver as the specification words it:
    the sum, over the site atoms, of the squared difference between the
    bond distance and the distance from the atom to
    [centroid + s * direction]. *)
Definition squared_deviation_sum (site_atoms : list (R * R * R))
    (centroid direction : R * R * R) (bond_distance s : R) : R :=
  let '(cx, cy, cz) := centroid in
  let '(dx, dy, dz) := direction in
  let point := (cx + s * dx, cy + s * dy, cz + s * dz) in
  fold_right Rplus 0
    (map (fun a : R * R * R =>
            let '(ax, ay, az) := a in
            let '(px, py, pz) := point in
            let dist := sqrt (sq (ax - px, ay - py, az - pz)) in
            (dist - bond_distance) * (dist - bond_distance))
         site_atoms).

End RealGeometry.

(** ** The minimum distance of the specification *)

(** The smallest of the distances from [a] to the points of [pool], as
    [np.min] takes it over one pooled row (NaN as soon as one distance
    is NaN); there is none over an empty pool. *)
Definition min_distance (a : vec) (pool : list vec) : option fl :=
  match pool with
  | [] => None
  | q :: qs =>
      Some (fold_left Fl.minimum (map (fun p => vnorm (vsub a p)) qs)
                      (vnorm (vsub a q)))
  end.

(** ** The translation on binary64 numbers

    Lines 76-77 once more, on IEEE 754 binary64 numbers with the
    operations of the machine, for the statements that turn on
    exactness. *)

Module Binary64.

Import PrimFloat.

(** A row of a [float64] array of shape (n, 3). *)
Definition vec : Type := float * float * float.

Definition vadd (a b : vec) : vec :=
  let '(ax, ay, az) := a in
  let '(bx, by', bz) := b in
  (add ax bx, add ay by', add az bz).

Definition vsub (a b : vec) : vec :=
  let '(ax, ay, az) := a in
  let '(bx, by', bz) := b in
  (sub ax bx, sub ay by', sub az bz).


(** Lines 76-77: the translation of the copied positions. *)
Definition translate_to (metal_center_positions : list vec)
    (coordinating_atom_index : nat) (optimal_position : vec) : option (list vec) :=
  match metal_center_positions !! coordinating_atom_index with
  | Some p =>
      let translation_vector := vsub optimal_position p in
      Some (map (fun q => vadd q translation_vector) metal_center_positions)
  | None => None
  end.



End Binary64.

(** ** A worked example: inputs *)

(** The facets of the hull of the six-atom bipyramid [example_cluster]. *)
Definition bipyramid_facets : list (list nat) :=
  [[0; 1; 3]; [0; 3; 2]; [0; 2; 4]; [0; 4; 1];
   [5; 1; 3]; [5; 3; 2]; [5; 2; 4]; [5; 4; 1]].

(** An L-BFGS-B that returns its seed, which is what the method does when
    the seed is a stationary point of the objective, and a hull that
    knows the bipyramid. *)
Definition stationary_scipy : SciPy := {|
  lbfgsb_scalar := fun _ x0 => x0;
  lbfgsb_angles := fun f x0 => _ ← f x0; Return x0;
  hull_simplices := fun pts =>
    if (length pts =? 6)%nat then Some bipyramid_facets else None
|}.

(** Two ligand atoms on the Z axis. *)
Definition example_ligand : list atom :=
  [Atom "N" (vnum 0 0 1); Atom "N" (vnum 0 0 0)].

(** A square bipyramid: apex 0 below the square 1-4, apex 5 far above. *)
Definition example_cluster : list atom :=
  [Atom "Zn" (vnum 0 0 0);
   Atom "O" (vnum 4 0 1); Atom "O" (vnum (-4) 0 1);
   Atom "O" (vnum 0 4 1); Atom "O" (vnum 0 (-4) 1);
   Atom "O" (vnum 0 0 6)].

Definition example_world : world := World [example_ligand; example_cluster] [].

Definition example_sites : list (list Z) := [[0%Z]; [1%Z]].

Definition first_instance : list vec :=
  [vnum 0 0 3; vnum 4 0 4; vnum (-4) 0 4; vnum 0 4 4; vnum 0 (-4) 4; vnum 0 0 9].

Definition second_instance : list vec :=
  [vnum 0 0 (-2); vnum 4 0 (-1); vnum (-4) 0 (-1); vnum 0 4 (-1);
   vnum 0 (-4) (-1); vnum 0 0 4].

(** The plans of the two sites of the example; the computed minimum
    distances are left as a parameter. *)
Definition example_plan_0 (md : list fl) : plan :=
  Plan [vnum 0 0 1] (vnum 0 0 1) (vnum 0 0 1) (Num 2) (vnum 0 0 3) 0
    first_instance initial_angles first_instance (delete 0 first_instance) md
    [CallMinimizeScalar
       (position_objective_function [vnum 0 0 1] (vnum 0 0 1) (vnum 0 0 1) (Num 2))
       (Num 2);
     CallConvexHull (map position example_cluster);
     CallMinimizeAngles
       (rotation_objective_function first_instance (vnum 0 0 3)
          (length (map position example_cluster)) 0
          (map position example_ligand) [])
       initial_angles].

Definition example_plan_1 (md : list fl) : plan :=
  Plan [vnum 0 0 0] (vnum 0 0 0) (vnum 0 0 (-1)) (Num 2) (vnum 0 0 (-2)) 0
    second_instance initial_angles second_instance (delete 0 second_instance) md
    [CallMinimizeScalar
       (position_objective_function [vnum 0 0 0] (vnum 0 0 0) (vnum 0 0 (-1)) (Num 2))
       (Num 2);
     CallConvexHull (map position example_cluster);
     CallMinimizeAngles
       (rotation_objective_function second_instance (vnum 0 0 (-2))
          (length (map position example_cluster)) 0
          (map position example_ligand) [delete 0 first_instance])
       initial_angles].

(** The structure the example returns. *)
Definition example_result : list atom :=
  example_ligand ++ with_positions example_cluster first_instance
    ++ with_positions example_cluster second_instance.

(** The placement of an empty site: every position is NaN. *)
Definition nan_vec : vec := V3 NaN NaN NaN.

Definition nan_plan : plan :=
  Plan [] nan_vec nan_vec (Num 2) nan_vec 0
    (replicate 6 nan_vec) initial_angles (replicate 6 nan_vec)
    (replicate 5 nan_vec) (replicate 5 NaN)
    [CallMinimizeScalar
       (position_objective_function [] nan_vec nan_vec (Num 2)) (Num 2);
     CallConvexHull (map position example_cluster);
     CallMinimizeAngles
       (rotation_objective_function (replicate 6 nan_vec) nan_vec
          (length (map position example_cluster)) 0
          (map position example_ligand) [])
       initial_angles].

(** The plan of the first site of the example when it comes after the
    empty site. *)
Definition example_plan_after_nan (md : list fl) : plan :=
  Plan [vnum 0 0 1] (vnum 0 0 1) (vnum 0 0 1) (Num 2) (vnum 0 0 3) 0
    first_instance initial_angles first_instance (delete 0 first_instance) md
    [CallMinimizeScalar
       (position_objective_function [vnum 0 0 1] (vnum 0 0 1) (vnum 0 0 1) (Num 2))
       (Num 2);
     CallConvexHull (map position example_cluster);
     CallMinimizeAngles
       (rotation_objective_function first_instance (vnum 0 0 3)
          (length (map position example_cluster)) 0
          (map position example_ligand) [replicate 5 nan_vec])
       initial_angles].

(** The facets of the hull of four points in general position. *)
Definition tetrahedron_facets : list (list nat) :=
  [[0; 1; 2]; [0; 1; 3]; [0; 2; 3]; [1; 2; 3]].

(** A library whose hull behaves as Qhull does on the templates below:
    it raises on input that is not full-dimensional, and of four points
    in general position it returns the four triangles.  Its L-BFGS-B
    returns the seed. *)
Definition qhull_scipy : SciPy := {|
  lbfgsb_scalar := fun _ x0 => x0;
  lbfgsb_angles := fun f x0 => _ ← f x0; Return x0;
  hull_simplices := fun pts =>
    if excluded_middle_informative (degenerate pts) then None
    else if (length pts =? 4)%nat then Some tetrahedron_facets else None
|}.

(** A planar three-atom template. *)
Definition flat_cluster : list atom :=
  [Atom "Zn" (vnum 0 0 0); Atom "O" (vnum 1 0 0); Atom "O" (vnum 0 1 0)].

Definition flat_world : world := World [example_ligand; flat_cluster] [].

(** A tetrahedral template, and a ligand with an atom where the metal
    is to go: the site is atom 0, the bond position of a bond of length
    2 is (0, 0, 2), the place of atom 1. *)
Definition tetrahedron : list atom :=
  [Atom "Zn" (vnum 0 0 0); Atom "O" (vnum 1 0 0); Atom "O" (vnum 0 1 0);
   Atom "O" (vnum 0 0 1)].

Definition crowded_ligand : list atom :=
  [Atom "N" (vnum 0 0 0); Atom "C" (vnum 0 0 2); Atom "C" (vnum 0 0 (-4))].

Definition crowded_world : world := World [crowded_ligand; tetrahedron] [].

(** The tetrahedron with its atom 0 at the bond position. *)
Definition crowded_instance : list vec :=
  [vnum 0 0 2; vnum 1 0 2; vnum 0 1 2; vnum 0 0 3].

Ltac members H :=
  repeat (apply elem_of_cons in H as [H|H]; [subst|]);
  try (apply elem_of_nil in H; destruct H).

(** ** Electron counting ([src/matterfold/mofs/mayer_mbis_electrons.py])

    The two pure functions of the module that turns the Mayer bond
    orders and the MBIS charges of an ORCA run into a table of bonding
    sites.  A Python [dict] is an association list in insertion order;
    the floats are [fl] as above; the integers are [Z]. *)

Module Electrons.

(** The exceptions of the two functions. *)
Inductive error : Type :=
  | ListIndexError               (* [l[0]] on an empty list *)
  | KeyError (key : string)      (* [atomic_numbers[s]] for an unknown symbol *)
  | MaxError                     (* [max([])] *)
  | AtomsError (msg : string).   (* whatever [Atoms(element)] raises *)

Inductive outcome (A : Type) : Type :=
  | Ok (a : A)
  | Err (e : error).

Arguments Ok {A} a.

Arguments Err {A} e.

#[global] Instance outcome_ret : MRet outcome := fun A a => Ok a.

#[global] Instance outcome_bind : MBind outcome := fun A B f r =>
  match r with
  | Ok a => f a
  | Err e => Err e
  end.

(** What the module takes from ASE. *)
Class ASE : Type := {
  (** [[a.number for a in Atoms(element)]], or the exception the
      constructor raises on a string it cannot read *)
  Atoms_numbers : string -> outcome (list Z);
  (** the dictionary [ase.data.atomic_numbers] *)
  atomic_numbers : string -> option Z
}.

(** [l[0]] *)
Definition first {A : Type} (l : list A) : outcome A :=
  match l with
  | x :: _ => Ok x
  | [] => Err ListIndexError
  end.

(** [max(l)] *)
Definition py_max (l : list Z) : outcome Z :=
  match l with
  | x :: rest => Ok (fold_left Z.max rest x)
  | [] => Err MaxError
  end.

(** [[f(x) for x in l]] *)
Fixpoint comprehension {A B : Type} (f : A -> outcome B) (l : list A) : outcome (list B) :=
  match l with
  | [] => Ok []
  | x :: rest => y ← f x; ys ← comprehension f rest; Ok (y :: ys)
  end.

(** [sum(l)] of floats, from the integer [0]. *)
Definition py_sum (l : list fl) : fl := fold_left Fl.add l (Num 0).

(** A [for] loop over the items of a dictionary, threading the local
    state. *)
Fixpoint for_items {A S : Type} (body : S -> A -> outcome S) (s : S) (l : list A) : outcome S :=
  match l with
  | [] => Ok s
  | x :: rest => s' ← body s x; for_items body s' rest
  end.

(** [d[k] = v]: the value of an existing key is replaced where it
    stands, a new key goes to the end. *)
Definition dict_set {V : Type} (d : list (Z * V)) (k : Z) (v : V) : list (Z * V) :=
  if existsb (fun e => (e.1 =? k)%Z) d
  then map (fun e => if (e.1 =? k)%Z then (k, v) else e) d
  else d ++ [(k, v)].

Definition noble_gases : list string :=
  ["He"%string; "Ne"%string; "Ar"%string; "Kr"%string; "Xe"%string; "Rn"%string].

(** The value of one atom in [mbis_data]. *)
Record mbis_info : Type := MbisInfo { element : string; charge : fl }.

(** The value of one atom in the dictionary of bonding sites. *)
Record bonding_site : Type := BondingSite {
  site_element : string;
  available_electrons : fl;
  mbis_charge : fl;
  bonding_electrons : fl;
  free_electrons : fl
}.

Section Definitions.
Context {ase : ASE}.

(** Lines 149-154. *)
Definition get_valence_electrons (element : string) : outcome Z :=
  numbers ← Atoms_numbers element;
  atomic_number ← first numbers;
  noble_gas_atomic_numbers ←
    comprehension (fun s => match atomic_numbers s with
                            | Some n => Ok n
                            | None => Err (KeyError s)
                            end)
                  noble_gases;
  core_electrons ←
    py_max (List.filter (fun n => (n <? atomic_number)%Z) noble_gas_atomic_numbers
            ++ [0%Z]);
  Ok (atomic_number - core_electrons)%Z.

(** Line 180: the sum of the orders of the bonds [atom_index] is an end
    of. *)
Definition bonding_electrons_of (bond_orders : list ((Z * Z) * fl)) (atom_index : Z)
    : fl :=
  py_sum (map snd
            (List.filter (fun b => (atom_index =? b.1.1)%Z || (atom_index =? b.1.2)%Z)
                         bond_orders)).

(** Lines 169-192: the body of the loop. *)
Definition site_of (bond_orders : list ((Z * Z) * fl))
    (bonding_sites : list (Z * bonding_site)) (item : Z * mbis_info)
    : outcome (list (Z * bonding_site)) :=
  let atom_index := item.1 in
  let mbis_info := item.2 in
  let element := element mbis_info in
  let mbis_charge := charge mbis_info in
  valence_electrons ← get_valence_electrons element;
  let available_electrons := Fl.sub (Num (IZR valence_electrons)) mbis_charge in
  let bonding_electrons := bonding_electrons_of bond_orders atom_index in
  let free_electrons := Fl.sub available_electrons bonding_electrons in
  Ok (dict_set bonding_sites atom_index
        (BondingSite element available_electrons mbis_charge bonding_electrons
           free_electrons)).

(** Lines 156-194.  [bond_orders] is [mayer_data['bond_orders']]. *)
Definition find_potential_bonding_sites (bond_orders : list ((Z * Z) * fl))
    (mbis_data : list (Z * mbis_info)) : outcome (list (Z * bonding_site)) :=
  for_items (site_of bond_orders) [] mbis_data.

(** [ase.data.atomic_numbers] has the six noble gases, with their
    numbers. *)
Definition periodic_table : Prop :=
  map atomic_numbers noble_gases
  = [Some 2%Z; Some 10%Z; Some 18%Z; Some 36%Z; Some 54%Z; Some 86%Z].

(** ASE reads [element], and finds an atom in it. *)
Definition known (element : string) : Prop :=
  exists n rest, Atoms_numbers element = Ok (n :: rest).

End Definitions.

(** An ASE that knows a few symbols, and reads one symbol at a time. *)
Definition example_symbols : list (string * Z) :=
  [("H"%string, 1%Z); ("He"%string, 2%Z); ("C"%string, 6%Z); ("O"%string, 8%Z);
   ("F"%string, 9%Z); ("Ne"%string, 10%Z); ("Na"%string, 11%Z);
   ("Ar"%string, 18%Z); ("Br"%string, 35%Z); ("Kr"%string, 36%Z);
   ("Xe"%string, 54%Z); ("Rn"%string, 86%Z)].

Definition example_number (s : string) : option Z :=
  snd <$> List.find (fun e => String.eqb e.1 s) example_symbols.

Definition example_ase : ASE := {|
  Atoms_numbers := fun s =>
    match example_number s with
    | Some n => Ok [n]
    | None => Err (AtomsError s)
    end;
  atomic_numbers := example_number
|}.

(** Water: the charges and the two bonds. *)
Definition water_mbis : list (Z * mbis_info) :=
  [(0%Z, MbisInfo "O" (Num (-1))); (1%Z, MbisInfo "H" (Num (1 / 2)));
   (2%Z, MbisInfo "H" (Num (1 / 2)))].

Definition water_bonds : list ((Z * Z) * fl) :=
  [((0%Z, 1%Z), Num 1); ((0%Z, 2%Z), Num 1)].

End Electrons.

(** ** Properties *)

Section Properties.
Context {lib : SciPy}.

(** *** The loop body, run on a state *)

Lemma translate_to_length Tp c opt mcp :
  translate_to Tp c opt = Return mcp -> length mcp = length Tp.
Proof.
  unfold translate_to, get_row. destruct (Tp !! c); simpl; [|discriminate].
  intros [= <-]. by rewrite length_map.
Qed.

Lemma rotate_about_length opt R ps : length (rotate_about opt R ps) = length ps.
Proof. unfold rotate_about. by rewrite length_map. Qed.

Lemma run_bind {A B : Type} (m : M A) (k : A -> M B) (w : world) :
  (m ≫= k) w = match m w with
               | (Return a, w') => k a w'
               | (Raise e, w') => (Raise e, w')
               end.
Proof. reflexivity. Qed.

Lemma run_ret {A : Type} (a : A) (w : world) : mret (M := M) a w = (Return a, w).
Proof. reflexivity. Qed.

Lemma run_with_object {A : Type} l a (k : list atom -> M A) w :
  heap w !! l = Some a -> with_object l k w = k a w.
Proof. intros H. unfold with_object. by rewrite H. Qed.

Lemma site_body_eq ligand metal_center combined L T C bd prev site w :
  heap w !! ligand = Some L ->
  heap w !! metal_center = Some T ->
  heap w !! combined = Some C ->
  site_body ligand metal_center combined (map position L) bd prev site w
  = site_body_resolved L T combined C bd prev site w.
Proof.
  intros HL HT HC.
  assert (Hlt : combined < length (heap w)) by (eapply lookup_lt_Some; eauto).
  assert (Hmt : metal_center < length (heap w)) by (eapply lookup_lt_Some; eauto).
  unfold site_body, site_body_resolved.
  rewrite run_bind. unfold Atoms_len at 1. rewrite (run_with_object _ _ _ _ HL), run_ret.
  rewrite run_bind. unfold lift at 1.
  destruct (site_geometry _ _ _) as [[[sp sc] dir]|e]; [|reflexivity].
  rewrite run_bind. unfold minimize_scalar at 1.
  rewrite run_bind. unfold record at 1. rewrite run_ret.
  set (w1 := World _ _).
  rewrite run_bind. unfold get_positions at 1.
  rewrite (run_with_object metal_center T) by exact HT. rewrite run_ret.
  rewrite run_bind. unfold ConvexHull at 1. rewrite run_bind. unfold record at 1.
  subst w1. cbn [heap calls].
  destruct (hull_simplices _) as [simplices|]; [|reflexivity].
  rewrite run_ret, run_bind. unfold lift at 1.
  destruct (coordinating_atom_index_of simplices) as [c|e]; [|reflexivity].
  rewrite run_bind. unfold Atoms_copy at 1.
  rewrite (run_with_object metal_center T) by exact HT. cbn [heap calls].
  rewrite run_bind. unfold get_positions at 1.
  rewrite (run_with_object (length (heap w)) T)
    by (cbn [heap]; rewrite lookup_app_r by lia; by rewrite Nat.sub_diag).
  rewrite run_ret, run_bind. unfold lift at 1.
  destruct (translate_to _ _ _) as [mcp|e] eqn:Htr; [|reflexivity].
  rewrite run_bind. unfold Atoms_len at 1.
  rewrite (run_with_object metal_center T)
    by (cbn [heap]; rewrite lookup_app_l by lia; exact HT).
  rewrite run_ret, run_bind. unfold minimize_angles at 1.
  rewrite run_bind. unfold record at 1. unfold lift at 1. cbn [heap calls].
  destruct (lbfgsb_angles _ _) as [angles|e]; [|reflexivity].
  rewrite run_bind. unfold lift at 1.
  destruct (clearances _ _ _ _ _) as [[nm md]|e]; [|reflexivity].
  destruct (np_any_lt md bd); [reflexivity|].
  rewrite run_bind. unfold set_positions at 1.
  rewrite (run_with_object (length (heap w)) T)
    by (cbn [heap]; rewrite lookup_app_r by lia; by rewrite Nat.sub_diag).
  rewrite rotate_about_length, (translate_to_length _ _ _ _ Htr), length_map, Nat.eqb_refl.
  cbn [heap calls].
  rewrite run_bind. unfold Atoms_iadd at 1.
  rewrite (run_with_object combined C)
    by (cbn [heap]; rewrite list_lookup_insert_ne by lia; rewrite lookup_app_l by lia; exact HC).
  erewrite (run_with_object (length (heap w)))
    by (cbn [heap]; apply list_lookup_insert_eq; rewrite length_app; simpl; lia).
  cbn [heap calls]. rewrite run_ret.
  f_equal. f_equal.
  rewrite insert_app_r_alt by lia. rewrite Nat.sub_diag. simpl. reflexivity.
Qed.

Lemma site_body_resolved_Return L T combined C bd prev site w prev' w' :
  site_body_resolved L T combined C bd prev site w = (Return prev', w') ->
  exists p, place_site (map position L) (map position T) bd prev site = Return p
    /\ prev' = prev ++ [plan_metal_atoms p]
    /\ w' = world_after combined C T [p] w.
Proof.
  unfold site_body_resolved, place_site, site_plan, world_after.
  rewrite !length_map.
  destruct (site_geometry _ _ _) as [[[sp sc] dir]|e]; simpl; [|discriminate].
  destruct (hull_simplices _) as [simplices|]; simpl; [|discriminate].
  destruct (coordinating_atom_index_of simplices) as [c|e]; simpl; [|discriminate].
  destruct (translate_to _ _ _) as [mcp|e]; simpl; [|discriminate].
  destruct (lbfgsb_angles _ _) as [angles|e]; simpl; [|discriminate].
  destruct (clearances _ _ _ _ _) as [[nm md]|e]; simpl; [|discriminate].
  destruct (np_any_lt md bd) eqn:Hany; simpl; [discriminate|].
  intros [= <- <-]. eexists. split; [reflexivity|]. simpl.
  split; [reflexivity|].
  rewrite !app_nil_r. rewrite <- !app_assoc. reflexivity.
Qed.

(** *** Which exceptions the stages raise *)

Lemma benign_not_steric e : benign e -> e <> StericClash.
Proof. intros [-> | [-> | ->]]; discriminate. Qed.

Lemma np_index_raise n i e : np_index n i = Raise e -> e = IndexError.
Proof. unfold np_index. repeat case_match; congruence. Qed.

Lemma take_rows_raise {A} (a : list A) idx e :
  take_rows a idx = Raise e -> e = IndexError.
Proof.
  induction idx as [|i idx IH]; simpl; [done|].
  destruct (np_index _ _) as [j|e'] eqn:Hi; simpl.
  - destruct (a !! j); [|congruence].
    destruct (take_rows a idx); simpl; [done|]. intros [= <-]. by apply IH.
  - intros [= <-]. by apply np_index_raise in Hi.
Qed.

Lemma site_geometry_raise Lp n site e :
  site_geometry Lp n site = Raise e -> e = IndexError.
Proof.
  unfold site_geometry.
  destruct (take_rows Lp site) eqn:Hs; simpl; [|intros [= <-]; by apply take_rows_raise in Hs].
  destruct (List.filter _ _) as [|z l]; [done|].
  destruct (take_rows Lp (z :: l)) eqn:Hn; [done|].
  intros [= <-]; by apply take_rows_raise in Hn.
Qed.

Lemma get_row_raise {A} (a : list A) i e : get_row a i = Raise e -> e = IndexError.
Proof. unfold get_row. destruct (a !! i); congruence. Qed.

Lemma translate_to_raise Tp c opt e : translate_to Tp c opt = Raise e -> e = IndexError.
Proof.
  unfold translate_to. destruct (get_row Tp c) eqn:H; simpl; [done|].
  intros [= <-]. by apply get_row_raise in H.
Qed.

Lemma min_distances_to_raise atoms others e :
  min_distances_to atoms others = Raise e -> e = ValueError zero_size_message.
Proof. destruct others; simpl; congruence. Qed.

Lemma clearances_raise n c Lp prev ps e :
  clearances n c Lp prev ps = Raise e -> benign e.
Proof.
  unfold clearances, np_delete, benign.
  destruct (c <? length (seq 0 n))%nat; simpl; [|intros [= <-]; auto].
  destruct (take_rows ps _) eqn:Ht; simpl;
    [|intros [= <-]; apply take_rows_raise in Ht; auto].
  destruct (min_distances_to _ Lp) eqn:Hm; simpl;
    [|intros [= <-]; apply min_distances_to_raise in Hm; auto].
  destruct prev; simpl; [done|].
  destruct (min_distances_to _ (_ ++ _)) eqn:Hm2; simpl; [done|].
  intros [= <-]; apply min_distances_to_raise in Hm2; auto.
Qed.

Lemma rotation_objective_function_raise mcp opt n c Lp prev x e :
  rotation_objective_function mcp opt n c Lp prev x = Raise e -> benign e.
Proof.
  unfold rotation_objective_function.
  destruct (clearances _ _ _ _ _) as [[nm md]|e'] eqn:H; simpl; [done|].
  intros [= <-]. by apply clearances_raise in H.
Qed.

Lemma site_plan_raise Lp Tp bd prev site e :
  minimize_propagates ->
  site_plan Lp Tp bd prev site = Raise e -> benign e.
Proof.
  intros Hmin. unfold site_plan.
  destruct (site_geometry _ _ _) as [[[sp sc] dir]|e'] eqn:Hg; simpl;
    [|intros [= <-]; apply site_geometry_raise in Hg; left; done].
  destruct (hull_simplices _); simpl; [|intros [= <-]; right; right; done].
  destruct (coordinating_atom_index_of _) eqn:Hc; simpl;
    [|intros [= <-]; apply get_row_raise in Hc; left; done].
  destruct (translate_to _ _ _) eqn:Ht; simpl;
    [|intros [= <-]; apply translate_to_raise in Ht; left; done].
  destruct (lbfgsb_angles _ _) eqn:Ha; simpl.
  - destruct (clearances _ _ _ _ _) as [[nm md]|e'] eqn:Hcl; simpl; [done|].
    intros [= <-]. by apply clearances_raise in Hcl.
  - intros [= <-]. apply Hmin in Ha as [x Hx].
    by apply rotation_objective_function_raise in Hx.
Qed.

Lemma place_site_steric Lp Tp bd prev site :
  minimize_propagates ->
  place_site Lp Tp bd prev site = Raise StericClash <->
  exists p, site_plan Lp Tp bd prev site = Return p
    /\ np_any_lt (plan_min_distances p) bd = true.
Proof.
  intros Hmin. unfold place_site. split.
  - destruct (site_plan _ _ _ _ _) as [p|e] eqn:Hp; simpl.
    + destruct (np_any_lt _ _) eqn:Hany; [eauto|discriminate].
    + intros [= ->]. apply site_plan_raise in Hp; [|done].
      by apply benign_not_steric in Hp.
  - intros (p & -> & Hany). simpl. by rewrite Hany.
Qed.

(** *** The loop body against the numerical stages *)

Lemma site_body_resolved_fst L T combined C bd prev site w :
  (site_body_resolved L T combined C bd prev site w).1
  = (p ← place_site (map position L) (map position T) bd prev site;
     Return (prev ++ [plan_metal_atoms p])).
Proof.
  unfold site_body_resolved, place_site, site_plan. rewrite !length_map.
  destruct (site_geometry _ _ _) as [[[sp sc] dir]|e]; simpl; [|done].
  destruct (hull_simplices _) as [simplices|]; simpl; [|done].
  destruct (coordinating_atom_index_of simplices) as [c|e]; simpl; [|done].
  destruct (translate_to _ _ _) as [mcp|e]; simpl; [|done].
  destruct (lbfgsb_angles _ _) as [angles|e]; simpl; [|done].
  destruct (clearances _ _ _ _ _) as [[nm md]|e]; simpl; [|done].
  by destruct (np_any_lt md bd).
Qed.

Lemma site_body_resolved_place L T combined C bd prev site w p :
  place_site (map position L) (map position T) bd prev site = Return p ->
  site_body_resolved L T combined C bd prev site w
  = (Return (prev ++ [plan_metal_atoms p]), world_after combined C T [p] w).
Proof.
  intros Hp.
  destruct (site_body_resolved L T combined C bd prev site w) as [r w'] eqn:Hr.
  pose proof (site_body_resolved_fst L T combined C bd prev site w) as Hfst.
  rewrite Hr, Hp in Hfst. simpl in Hfst. subst r.
  apply site_body_resolved_Return in Hr as (p' & Hp' & _ & ->).
  rewrite Hp in Hp'. by injection Hp' as <-.
Qed.

Lemma site_body_resolved_Raise L T combined C bd prev site w e w' :
  site_body_resolved L T combined C bd prev site w = (Raise e, w') ->
  place_site (map position L) (map position T) bd prev site = Raise e.
Proof.
  intros Hr.
  pose proof (site_body_resolved_fst L T combined C bd prev site w) as Hfst.
  rewrite Hr in Hfst. simpl in Hfst.
  destruct (place_site _ _ _ _ _); simpl in Hfst; congruence.
Qed.

(** A site that raises leaves every existing object as it was. *)
Lemma site_body_resolved_Raise_world L T combined C bd prev site w e w' :
  site_body_resolved L T combined C bd prev site w = (Raise e, w') ->
  exists extra ev,
    heap w' = heap w ++ extra
    /\ calls w' = calls w ++ ev
    /\ Forall (call_ok (map position T) bd) ev.
Proof.
  unfold site_body_resolved.
  destruct (site_geometry _ _ _) as [[[sp sc] dir]|e0]; simpl.
  2:{ intros [= <- <-]. exists [], []. rewrite !app_nil_r. by split_and!. }
  assert (Hev1 : forall f, Forall (call_ok (map position T) bd)
            [CallMinimizeScalar f bd; CallConvexHull (map position T)])
    by (intros f; repeat constructor).
  assert (Hev2 : forall f g, Forall (call_ok (map position T) bd)
            [CallMinimizeScalar f bd; CallConvexHull (map position T);
             CallMinimizeAngles g initial_angles])
    by (intros f g; repeat constructor).
  destruct (hull_simplices _) as [simplices|]; simpl.
  2:{ intros [= <- <-]. exists []. eexists. cbn [heap calls]. rewrite app_nil_r, <- ?app_assoc. split_and!; [done|reflexivity|simpl; auto]. }
  destruct (coordinating_atom_index_of simplices) as [c|e0]; simpl.
  2:{ intros [= <- <-]. exists []. eexists. cbn [heap calls]. rewrite app_nil_r, <- ?app_assoc. split_and!; [done|reflexivity|simpl; auto]. }
  destruct (translate_to _ _ _) as [mcp|e0]; simpl.
  2:{ intros [= <- <-]. exists [T]. eexists. cbn [heap calls]. rewrite <- ?app_assoc. split_and!; [done|reflexivity|simpl; auto]. }
  destruct (lbfgsb_angles _ _) as [angles|e0]; simpl.
  2:{ intros [= <- <-]. exists [T]. eexists. cbn [heap calls]. rewrite <- ?app_assoc. split_and!; [done|reflexivity|simpl; auto]. }
  destruct (clearances _ _ _ _ _) as [[nm md]|e0]; simpl.
  2:{ intros [= <- <-]. exists [T]. eexists. cbn [heap calls]. rewrite <- ?app_assoc. split_and!; [done|reflexivity|simpl; auto]. }
  destruct (np_any_lt md bd); simpl; [|done].
  intros [= <- <-]. exists [T]. eexists. cbn [heap calls]. rewrite <- ?app_assoc. split_and!; [done|reflexivity|simpl; auto].
Qed.

(** The validator's exception: the site reached line 176 and the state
    holds the unused copy and the three calls of the site. *)
Lemma site_body_resolved_steric L T combined C bd prev site w w' :
  minimize_propagates ->
  site_body_resolved L T combined C bd prev site w = (Raise StericClash, w') ->
  exists p, site_plan (map position L) (map position T) bd prev site = Return p
    /\ np_any_lt (plan_min_distances p) bd = true
    /\ w' = World (heap w ++ [T]) (calls w ++ plan_calls p).
Proof.
  intros Hmin Hr.
  pose proof (site_body_resolved_Raise _ _ _ _ _ _ _ _ _ _ Hr) as Hp.
  apply place_site_steric in Hp as (p & Hp & Hany); [|done].
  exists p. split; [done|]. split; [done|].
  revert Hr Hp. unfold site_body_resolved, site_plan. rewrite !length_map.
  destruct (site_geometry _ _ _) as [[[sp sc] dir]|e0]; simpl; [|done].
  destruct (hull_simplices _) as [simplices|]; simpl; [|done].
  destruct (coordinating_atom_index_of simplices) as [c|e0]; simpl; [|done].
  destruct (translate_to _ _ _) as [mcp|e0]; simpl; [|done].
  destruct (lbfgsb_angles _ _) as [angles|e0]; simpl; [|done].
  destruct (clearances _ _ _ _ _) as [[nm md]|e0]; simpl; [|done].
  intros Hr [= <-]. simpl in Hany. rewrite Hany in Hr.
  injection Hr as <-. by rewrite <- !app_assoc.
Qed.

(** A hull failure: nothing allocated, two calls made. *)
Lemma site_body_resolved_hull L T combined C bd prev site w sp sc dir :
  site_geometry (map position L) (length L) site = Return (sp, sc, dir) ->
  hull_simplices (map position T) = None ->
  site_body_resolved L T combined C bd prev site w
  = (Raise HullError,
     World (heap w)
       (calls w ++ [CallMinimizeScalar (position_objective_function sp sc dir bd) bd;
                    CallConvexHull (map position T)])).
Proof.
  intros Hg Hh. unfold site_body_resolved. rewrite Hg, Hh.
  by rewrite <- !app_assoc.
Qed.

(** *** The loop *)

Lemma world_after_nil combined C T w :
  heap w !! combined = Some C -> world_after combined C T [] w = w.
Proof.
  intros HC. unfold world_after. simpl. rewrite !app_nil_r.
  rewrite list_insert_id by done. by destruct w.
Qed.

Lemma world_after_cons combined C T p ps w :
  heap w !! combined = Some C ->
  world_after combined (C ++ instance_of T p) T ps (world_after combined C T [p] w)
  = world_after combined C T (p :: ps) w.
Proof.
  intros HC. unfold world_after. simpl. rewrite !app_nil_r.
  assert (Hlt : combined < length (heap w)) by (eapply lookup_lt_Some; eauto).
  f_equal.
  - rewrite <- insert_app_l by (rewrite length_app; simpl; lia).
    rewrite list_insert_insert_eq.
    rewrite <- !app_assoc. simpl. done.
  - by rewrite <- !app_assoc.
Qed.

Lemma objects_after ligand metal_center combined L T C p w :
  objects ligand metal_center combined L T C w ->
  objects ligand metal_center combined L T (C ++ instance_of T p)
    (world_after combined C T [p] w).
Proof.
  intros (HL & HT & HC & Hl & Hm).
  assert (combined < length (heap w)) by (eapply lookup_lt_Some; eauto).
  unfold objects, world_after. simpl. rewrite !app_nil_r.
  rewrite !list_lookup_insert_ne by done.
  rewrite !lookup_app_l by (eapply lookup_lt_Some; eauto).
  rewrite list_lookup_insert_eq by (rewrite length_app; lia).
  done.
Qed.

Lemma for_each_placed ligand metal_center combined L T C bd sites :
  forall prev w plans,
  objects ligand metal_center combined L T C w ->
  place_sites (map position L) (map position T) bd prev sites = Return plans ->
  for_each (site_body ligand metal_center combined (map position L) bd) prev sites w
  = (Return (prev ++ map plan_metal_atoms plans),
     world_after combined C T plans w).
Proof.
  revert C. induction sites as [|site sites IH]; intros C prev w plans Hobj; simpl.
  - intros [= <-]. simpl. rewrite app_nil_r, world_after_nil; [done|apply Hobj].
  - destruct (place_site _ _ _ _ _) as [p|e] eqn:Hp; simpl; [|done].
    destruct (place_sites _ _ _ _ _) as [ps|e] eqn:Hps; simpl; [|done].
    intros [= <-]. rewrite run_bind.
    destruct Hobj as (HL & HT & HC & Hl & Hm).
    rewrite (site_body_eq _ _ _ L T C) by done.
    rewrite (site_body_resolved_place _ _ _ _ _ _ _ _ _ Hp).
    erewrite IH; [|by apply objects_after|done].
    rewrite world_after_cons by done. simpl. by rewrite <- app_assoc.
Qed.

Lemma for_each_outcome ligand metal_center combined L T bd sites :
  forall C prev w r w',
  objects ligand metal_center combined L T C w ->
  for_each (site_body ligand metal_center combined (map position L) bd) prev sites w
  = (r, w') ->
  (exists plans,
     place_sites (map position L) (map position T) bd prev sites = Return plans
     /\ r = Return (prev ++ map plan_metal_atoms plans)
     /\ w' = world_after combined C T plans w)
  \/ (exists pre site post plans e,
     sites = pre ++ site :: post
     /\ place_sites (map position L) (map position T) bd prev pre = Return plans
     /\ r = Raise e
     /\ site_body_resolved L T combined (C ++ concat (map (instance_of T) plans)) bd
          (prev ++ map plan_metal_atoms plans) site
          (world_after combined C T plans w)
        = (Raise e, w')).
Proof.
  induction sites as [|site sites IH]; intros C prev w r w' Hobj; simpl.
  - intros [= <- <-]. left. exists []. simpl.
    rewrite app_nil_r, world_after_nil; [done|apply Hobj].
  - rewrite run_bind.
    pose proof Hobj as (HL & HT & HC & Hl & Hm).
    rewrite (site_body_eq _ _ _ L T C) by done.
    destruct (site_body_resolved L T combined C bd prev site w) as [[prev1|e] w1] eqn:Hs.
    + apply site_body_resolved_Return in Hs as (p & Hp & -> & ->).
      intros Hrest.
      apply (IH (C ++ instance_of T p)) in Hrest; [|by apply objects_after].
      rewrite Hp. simpl.
      destruct Hrest as [(plans & Hps & -> & ->)|(pre & s & post & plans & e & -> & Hps & -> & Hres)].
      * left. exists (p :: plans). rewrite Hps. simpl.
        rewrite world_after_cons by done. by rewrite <- app_assoc.
      * right. exists (site :: pre), s, post, (p :: plans), e.
        simpl. rewrite Hp. simpl. rewrite Hps. simpl.
        split; [done|]. split; [done|]. split; [done|].
        rewrite world_after_cons in Hres by done.
        by rewrite <- !app_assoc in Hres.
    + intros [= <- <-]. right. exists [], site, sites, [], e. simpl.
      rewrite !app_nil_r. rewrite world_after_nil by done. done.
Qed.

(** *** The whole call *)

Lemma place_sites_app Lp Tp bd pre rest :
  forall prev,
  place_sites Lp Tp bd prev (pre ++ rest)
  = (ps ← place_sites Lp Tp bd prev pre;
     ps' ← place_sites Lp Tp bd (prev ++ map plan_metal_atoms ps) rest;
     Return (ps ++ ps')).
Proof.
  induction pre as [|site pre IH]; intros prev; simpl.
  - rewrite app_nil_r. by destruct (place_sites _ _ _ _ _).
  - destruct (place_site _ _ _ _ _) as [p|e]; simpl; [|done].
    rewrite IH.
    destruct (place_sites Lp Tp bd (prev ++ [plan_metal_atoms p]) pre) as [ps|e];
      simpl; [|done].
    rewrite <- app_assoc. simpl.
    by destruct (place_sites _ _ _ _ rest).
Qed.

Lemma place_sites_length Lp Tp bd sites :
  forall prev plans,
  place_sites Lp Tp bd prev sites = Return plans -> length plans = length sites.
Proof.
  induction sites as [|site sites IH]; intros prev plans; simpl.
  - by intros [= <-].
  - destruct (place_site _ _ _ _ _) as [p|e]; simpl; [|done].
    destruct (place_sites _ _ _ _ _) as [ps|e] eqn:Hps; simpl; [|done].
    intros [= <-]. simpl. f_equal. by eapply IH.
Qed.

(** The plan of site [k] was computed against the non-coordinating atoms
    of the instances placed for the sites before [k]. *)
Lemma place_sites_lookup Lp Tp bd sites :
  forall prev plans k p,
  place_sites Lp Tp bd prev sites = Return plans ->
  plans !! k = Some p ->
  exists site, sites !! k = Some site
    /\ place_site Lp Tp bd (prev ++ map plan_metal_atoms (take k plans)) site
       = Return p.
Proof.
  induction sites as [|site sites IH]; intros prev plans k p; simpl.
  - intros [= <-]. by rewrite lookup_nil.
  - destruct (place_site _ _ _ _ _) as [p0|e] eqn:Hp0; simpl; [|done].
    destruct (place_sites _ _ _ _ _) as [ps|e] eqn:Hps; simpl; [|done].
    intros [= <-]. destruct k as [|k]; simpl.
    + intros [= <-]. exists site. by rewrite app_nil_r.
    + intros Hk. destruct (IH _ _ _ _ Hps Hk) as (s & Hs & Hp).
      exists s. split; [done|]. by rewrite <- app_assoc in Hp.
Qed.

Lemma objects_copied ligand metal_center L T w :
  heap w !! ligand = Some L ->
  heap w !! metal_center = Some T ->
  objects ligand metal_center (length (heap w)) L T L (world_copied L w).
Proof.
  intros HL HT.
  pose proof (lookup_lt_Some _ _ _ HL). pose proof (lookup_lt_Some _ _ _ HT).
  unfold objects, world_copied. simpl.
  rewrite !lookup_app_l by done.
  rewrite lookup_app_r by lia. rewrite Nat.sub_diag. simpl.
  split_and!; [done|done|done|lia|lia].
Qed.

Lemma ligand_metal_docking_eq ligand metal_center sites bd L w :
  heap w !! ligand = Some L ->
  ligand_metal_docking ligand metal_center sites bd w
  = match for_each (site_body ligand metal_center (length (heap w))
                      (map position L) bd) [] sites (world_copied L w) with
    | (Return _, w') => (Return (length (heap w)), w')
    | (Raise e, w') => (Raise e, w')
    end.
Proof.
  intros HL. unfold ligand_metal_docking.
  rewrite run_bind. unfold Atoms_copy at 1.
  rewrite (run_with_object _ _ _ _ HL).
  rewrite run_bind. unfold get_positions at 1.
  rewrite (run_with_object ligand L)
    by (cbn [heap]; rewrite lookup_app_l by (eapply lookup_lt_Some; eauto); done).
  rewrite run_ret, run_bind. fold (world_copied L w).
  by destruct (for_each _ _ _ _) as [[?|?] ?].
Qed.

Lemma world_after_copied L T plans w :
  world_after (length (heap w)) L T plans (world_copied L w)
  = World (heap_after L T plans (heap w))
          (calls w ++ concat (map plan_calls plans)).
Proof.
  unfold world_after, world_copied, heap_after. simpl. f_equal.
  rewrite <- app_assoc. rewrite insert_app_r_alt by lia.
  rewrite Nat.sub_diag. done.
Qed.

Lemma ligand_metal_docking_placed ligand metal_center sites bd L T w plans :
  heap w !! ligand = Some L ->
  heap w !! metal_center = Some T ->
  place_sites (map position L) (map position T) bd [] sites = Return plans ->
  ligand_metal_docking ligand metal_center sites bd w
  = (Return (length (heap w)),
     World (heap_after L T plans (heap w))
           (calls w ++ concat (map plan_calls plans))).
Proof.
  intros HL HT Hp. rewrite (ligand_metal_docking_eq _ _ _ _ L) by done.
  erewrite for_each_placed; [|by apply objects_copied|done].
  by rewrite world_after_copied.
Qed.

Lemma ligand_metal_docking_outcome ligand metal_center sites bd L T w r w' :
  heap w !! ligand = Some L ->
  heap w !! metal_center = Some T ->
  ligand_metal_docking ligand metal_center sites bd w = (r, w') ->
  (exists plans,
     place_sites (map position L) (map position T) bd [] sites = Return plans
     /\ r = Return (length (heap w))
     /\ w' = World (heap_after L T plans (heap w))
                   (calls w ++ concat (map plan_calls plans)))
  \/ (exists pre site post plans e,
     sites = pre ++ site :: post
     /\ place_sites (map position L) (map position T) bd [] pre = Return plans
     /\ r = Raise e
     /\ site_body_resolved L T (length (heap w))
          (L ++ concat (map (instance_of T) plans)) bd
          (map plan_metal_atoms plans) site
          (World (heap_after L T plans (heap w))
                 (calls w ++ concat (map plan_calls plans)))
        = (Raise e, w')).
Proof.
  intros HL HT. rewrite (ligand_metal_docking_eq _ _ _ _ L) by done.
  destruct (for_each _ _ _ _) as [r0 w0] eqn:Hloop.
  eapply for_each_outcome in Hloop; [|by apply objects_copied].
  destruct Hloop as [(plans & Hps & -> & ->)|(pre & s & post & plans & e & -> & Hps & -> & Hres)].
  - intros [= <- <-]. left. exists plans. by rewrite world_after_copied.
  - intros [= <- <-]. right. exists pre, s, post, plans, e.
    rewrite world_after_copied in Hres. simpl in Hres. done.
Qed.

Lemma ligand_metal_docking_fst ligand metal_center sites bd L T w :
  heap w !! ligand = Some L ->
  heap w !! metal_center = Some T ->
  (ligand_metal_docking ligand metal_center sites bd w).1
  = (plans ← place_sites (map position L) (map position T) bd [] sites;
     Return (length (heap w))).
Proof.
  intros HL HT.
  destruct (ligand_metal_docking _ _ _ _ _) as [r w'] eqn:Hrun.
  eapply ligand_metal_docking_outcome in Hrun; [|done..].
  destruct Hrun as [(plans & Hps & -> & ->)|(pre & s & post & plans & e & -> & Hps & -> & Hres)].
  - by rewrite Hps.
  - apply site_body_resolved_Raise in Hres.
    rewrite place_sites_app, Hps. simpl. by rewrite Hres.
Qed.

(** *** What a plan records *)

Lemma site_plan_inv Lp Tp bd prev site p :
  site_plan Lp Tp bd prev site = Return p ->
  let f := position_objective_function (plan_site_positions p)
             (plan_site_centroid p) (plan_direction p) bd in
  let g := rotation_objective_function (plan_translated p)
             (plan_optimal_position p) (length Tp) (plan_coordinating p) Lp prev in
  exists simplices,
    site_geometry Lp (length Lp) site
      = Return (plan_site_positions p, plan_site_centroid p, plan_direction p)
    /\ plan_scale p = lbfgsb_scalar f bd
    /\ plan_optimal_position p
       = optimal_position_of (plan_site_centroid p) (plan_direction p) (plan_scale p)
    /\ hull_simplices Tp = Some simplices
    /\ coordinating_atom_index_of simplices = Return (plan_coordinating p)
    /\ translate_to Tp (plan_coordinating p) (plan_optimal_position p)
       = Return (plan_translated p)
    /\ lbfgsb_angles g initial_angles = Return (plan_angles p)
    /\ plan_final p = rotate_about (plan_optimal_position p)
                        (euler_matrix (plan_angles p)) (plan_translated p)
    /\ clearances (length Tp) (plan_coordinating p) Lp prev (plan_final p)
       = Return (plan_metal_atoms p, plan_min_distances p)
    /\ plan_calls p = [CallMinimizeScalar f bd; CallConvexHull Tp;
                       CallMinimizeAngles g initial_angles].
Proof.
  unfold site_plan.
  destruct (site_geometry _ _ _) as [[[sp sc] dir]|e]; simpl; [|done].
  destruct (hull_simplices _) as [simplices|]; simpl; [|done].
  destruct (coordinating_atom_index_of simplices) as [c|e] eqn:Hc; simpl; [|done].
  destruct (translate_to _ _ _) as [mcp|e] eqn:Htr; simpl; [|done].
  destruct (lbfgsb_angles _ _) as [angles|e] eqn:Ha; simpl; [|done].
  destruct (clearances _ _ _ _ _) as [[nm md]|e] eqn:Hcl; simpl; [|done].
  intros [= <-]. simpl. exists simplices. split_and!; done.
Qed.

Lemma place_site_inv Lp Tp bd prev site p :
  place_site Lp Tp bd prev site = Return p ->
  site_plan Lp Tp bd prev site = Return p
  /\ np_any_lt (plan_min_distances p) bd = false.
Proof.
  unfold place_site. destruct (site_plan _ _ _ _ _) as [p'|e]; simpl; [|done].
  destruct (np_any_lt _ _) eqn:Hany; [done|]. by intros [= <-].
Qed.

Lemma site_plan_final_length Lp Tp bd prev site p :
  site_plan Lp Tp bd prev site = Return p -> length (plan_final p) = length Tp.
Proof.
  intros Hp. apply site_plan_inv in Hp as (s & _ & _ & _ & _ & _ & Htr & _ & -> & _).
  rewrite rotate_about_length. by eapply translate_to_length.
Qed.

Lemma with_positions_species (a : list atom) ps :
  length ps = length a -> map species (with_positions a ps) = map species a.
Proof.
  unfold with_positions. revert ps.
  induction a as [|x a IH]; intros [|p ps]; simpl; try done.
  intros [= H]. f_equal. by apply IH.
Qed.

Lemma with_positions_position (a : list atom) ps :
  length ps = length a -> map position (with_positions a ps) = ps.
Proof.
  unfold with_positions. revert ps.
  induction a as [|x a IH]; intros [|p ps]; simpl; try done.
  intros [= H]. f_equal. by apply IH.
Qed.

Lemma with_positions_length (a : list atom) ps :
  length ps = length a -> length (with_positions a ps) = length a.
Proof.
  intros H. unfold with_positions. rewrite length_zip_with. lia.
Qed.

Lemma place_sites_Forall Lp Tp bd sites :
  forall prev plans,
  place_sites Lp Tp bd prev sites = Return plans ->
  Forall (fun p => exists prev' site, place_site Lp Tp bd prev' site = Return p) plans.
Proof.
  induction sites as [|site sites IH]; intros prev plans; simpl.
  - intros [= <-]. constructor.
  - destruct (place_site _ _ _ _ _) as [p|e] eqn:Hp; simpl; [|done].
    destruct (place_sites _ _ _ _ _) as [ps|e] eqn:Hps; simpl; [|done].
    intros [= <-]. constructor; eauto.
Qed.

Lemma concat_block {A} (n : nat) (bs : list (list A)) :
  Forall (fun b => length b = n) bs ->
  forall k b, bs !! k = Some b -> take n (drop (k * n) (concat bs)) = b.
Proof.
  induction 1 as [|b0 bs Hb0 Hbs IH]; intros k b; [by rewrite lookup_nil|].
  destruct k as [|k]; cbn [concat lookup list_lookup].
  - intros [= <-]. rewrite Nat.mul_0_l, drop_0. by rewrite take_app_length'.
  - intros Hk. change (S k * n) with (n + k * n).
    rewrite drop_app_add' by done. by apply IH.
Qed.

Lemma concat_blocks_length {A} (n : nat) (bs : list (list A)) :
  Forall (fun b => length b = n) bs -> length (concat bs) = length bs * n.
Proof.
  induction 1 as [|b0 bs Hb0 Hbs IH]; simpl; [done|].
  rewrite length_app. lia.
Qed.

Lemma instances_length Lp (T : list atom) bd prev sites plans :
  place_sites Lp (map position T) bd prev sites = Return plans ->
  Forall (fun b => length b = length T) (map (instance_of T) plans).
Proof.
  intros Hps. apply place_sites_Forall in Hps.
  apply Forall_map. eapply Forall_impl; [exact Hps|].
  intros p (prev' & site & Hp). simpl.
  apply place_site_inv in Hp as [Hp _]. apply site_plan_final_length in Hp.
  rewrite length_map in Hp. by apply with_positions_length.
Qed.

(** *** The coordinating-atom selector *)

Lemma insert_unique_head x u :
  head (insert_unique x u)
  = Some (match head u with None => x | Some y => Nat.min x y end).
Proof.
  destruct u as [|y ys]; simpl; [done|].
  destruct (x <? y)%nat eqn:Hlt; simpl.
  - apply Nat.ltb_lt in Hlt. f_equal. lia.
  - apply Nat.ltb_ge in Hlt.
    destruct (x =? y)%nat; simpl; f_equal; lia.
Qed.

Lemma np_unique_nil l : np_unique l = [] -> l = [].
Proof.
  destruct l as [|x l]; [done|]. unfold np_unique. simpl.
  intros H. apply (f_equal head) in H. by rewrite insert_unique_head in H.
Qed.

Lemma np_unique_head l c :
  head (np_unique l) = Some c -> c ∈ l /\ forall i, i ∈ l -> c <= i.
Proof.
  revert c. induction l as [|x l IH]; intros c; [done|].
  unfold np_unique. simpl. fold (np_unique l).
  rewrite insert_unique_head.
  destruct (head (np_unique l)) as [y|] eqn:Hy.
  - intros [= <-]. destruct (IH y eq_refl) as [Hin Hle]. split.
    + destruct (Nat.min_dec x y) as [-> | ->]; [left|by right].
    + intros i [->|Hi]%elem_of_cons; [lia|]. specialize (Hle i Hi). lia.
  - intros [= <-]. apply head_None in Hy. apply np_unique_nil in Hy as ->.
    split; [left|]. by intros i ->%list_elem_of_singleton.
Qed.

Lemma coordinating_atom_index_of_spec simplices c :
  coordinating_atom_index_of simplices = Return c ->
  c ∈ concat simplices /\ forall i, i ∈ concat simplices -> c <= i.
Proof.
  unfold coordinating_atom_index_of, get_row. rewrite <- head_lookup.
  destruct (head _) as [c'|] eqn:Hc; [|done].
  intros [= <-]. by apply np_unique_head.
Qed.

Lemma coordinating_atom_index_of_total simplices :
  concat simplices <> [] -> exists c, coordinating_atom_index_of simplices = Return c.
Proof.
  intros Hne. unfold coordinating_atom_index_of, get_row. rewrite <- head_lookup.
  destruct (head _) as [c'|] eqn:Hc; [eauto|].
  apply head_None, np_unique_nil in Hc. done.
Qed.

(** *** Valid indices *)

Lemma np_index_valid n i :
  numpy_valid n i -> exists j, np_index n i = Return j /\ j < n.
Proof.
  unfold numpy_valid, np_index. intros Hi.
  destruct (0 <=? i)%Z eqn:H0; simpl.
  - apply Z.leb_le in H0.
    destruct (i <? Z.of_nat n)%Z eqn:H1; [|apply Z.ltb_ge in H1; lia].
    exists (Z.to_nat i). split; [done|lia].
  - apply Z.leb_gt in H0.
    destruct (- Z.of_nat n <=? i)%Z eqn:H1; [|apply Z.leb_gt in H1; lia].
    destruct (i <? 0)%Z eqn:H2; [|apply Z.ltb_ge in H2; lia].
    simpl. eexists. split; [done|lia].
Qed.

Lemma take_rows_valid {A} (a : list A) idx :
  Forall (numpy_valid (length a)) idx ->
  exists rows, take_rows a idx = Return rows /\ length rows = length idx
    /\ Forall (fun x => x ∈ a) rows.
Proof.
  induction 1 as [|i idx Hi Hidx (rows & Hrows & Hlen & Hin)]; simpl.
  - exists []. by split_and!.
  - destruct (np_index_valid _ _ Hi) as (j & -> & Hj). simpl.
    destruct (lookup_lt_is_Some_2 a j Hj) as [x Hx]. rewrite Hx, Hrows. simpl.
    exists (x :: rows). split_and!; [done|simpl; lia|].
    constructor; [|done]. by eapply list_elem_of_lookup_2.
Qed.

Lemma py_range_valid n f :
  Forall (numpy_valid n) (List.filter f (py_range n)).
Proof.
  apply Forall_forall. intros i Hi.
  apply list_elem_of_In, filter_In in Hi as [Hi _].
  unfold py_range in Hi. apply in_map_iff in Hi as (k & <- & Hk).
  apply in_seq in Hk. unfold numpy_valid. lia.
Qed.

Lemma site_geometry_valid Lp site :
  Forall (numpy_valid (length Lp)) site ->
  exists sp sc dir, site_geometry Lp (length Lp) site = Return (sp, sc, dir).
Proof.
  intros Hv. unfold site_geometry.
  destruct (take_rows_valid Lp site Hv) as (sp & -> & _). simpl.
  destruct (List.filter _ _) as [|z l] eqn:Hf; simpl; [eauto|].
  pose proof (py_range_valid (length Lp) (fun i => negb (py_in i site))) as Hr.
  rewrite Hf in Hr.
  destruct (take_rows_valid Lp (z :: l) Hr) as (rows & Hrows & _).
  simpl in Hrows. rewrite Hrows. simpl. eauto.
Qed.

(** A call that returns has placed every site. *)
Lemma ligand_metal_docking_Return ligand metal_center sites bd L T w c w' :
  heap w !! ligand = Some L ->
  heap w !! metal_center = Some T ->
  ligand_metal_docking ligand metal_center sites bd w = (Return c, w') ->
  exists plans,
    place_sites (map position L) (map position T) bd [] sites = Return plans
    /\ heap w' !! c = Some (L ++ concat (map (instance_of T) plans))
    /\ forall k p, plans !! k = Some p ->
         map position (instance_of T p) = plan_final p.
Proof.
  intros HL HT Hrun.
  eapply ligand_metal_docking_outcome in Hrun; [|done..].
  destruct Hrun as [(plans & Hps & [= ->] & ->)|(? & ? & ? & ? & ? & _ & _ & [=] & _)].
  exists plans. split_and!; [done| |].
  - simpl. unfold heap_after. rewrite lookup_app_r by lia.
    by rewrite Nat.sub_diag.
  - intros k p Hk.
    destruct (place_sites_lookup _ _ _ _ _ _ _ _ Hps Hk) as (site & _ & Hp).
    apply place_site_inv in Hp as [Hp _].
    apply site_plan_final_length in Hp. rewrite length_map in Hp.
    by apply with_positions_position.
Qed.

(** *** Structure, frame and control flow *)

(** C5.  With no bonding site the call raises nothing and returns a new
    object, different from the ligand object, that holds the atoms of the
    ligand: same species, same positions, same order. *)
Theorem zero_sites_returns_copy ligand metal_center bd L w :
  heap w !! ligand = Some L ->
  exists c w',
    ligand_metal_docking ligand metal_center [] bd w = (Return c, w')
    /\ c <> ligand
    /\ heap w' !! c = Some L
    /\ heap w' !! ligand = Some L.
Proof.
  intros HL. pose proof (lookup_lt_Some _ _ _ HL) as Hlt.
  exists (length (heap w)), (world_copied L w).
  rewrite (ligand_metal_docking_eq _ _ _ _ L) by done. simpl.
  split_and!; [done|lia| |].
  - rewrite lookup_app_r by lia. by rewrite Nat.sub_diag.
  - by rewrite lookup_app_l.
Qed.

(** C8.  Whatever the outcome, the call only adds objects to the heap:
    the ligand and the template hold the atoms they held before. *)
Theorem inputs_never_mutated ligand metal_center sites bd L T w r w' :
  heap w !! ligand = Some L ->
  heap w !! metal_center = Some T ->
  ligand_metal_docking ligand metal_center sites bd w = (r, w') ->
  heap w' !! ligand = Some L
  /\ heap w' !! metal_center = Some T
  /\ exists fresh, heap w' = heap w ++ fresh.
Proof.
  intros HL HT Hrun.
  assert (exists fresh, heap w' = heap w ++ fresh) as [fresh Hfresh].
  { eapply ligand_metal_docking_outcome in Hrun; [|done..].
    destruct Hrun as [(plans & _ & _ & ->)
                     |(pre & s & post & plans & e & _ & _ & _ & Hres)].
    - simpl. unfold heap_after. eauto.
    - apply site_body_resolved_Raise_world in Hres as (extra & ev & Hh & _).
      simpl in Hh. unfold heap_after in Hh. rewrite Hh, <- app_assoc. eauto. }
  rewrite Hfresh.
  rewrite !lookup_app_l by (eapply lookup_lt_Some; eauto). eauto.
Qed.

(** C9.  On success the returned structure is the ligand followed by one
    instance of the template per site, in the order of the sites: it has
    [len(ligand) + len(sites) * len(template)] atoms, and the instance of
    site [k] is the block of [len(template)] atoms that starts at
    [len(ligand) + k * len(template)]. *)
Theorem combined_structure_layout ligand metal_center sites bd L T w c w' :
  heap w !! ligand = Some L ->
  heap w !! metal_center = Some T ->
  ligand_metal_docking ligand metal_center sites bd w = (Return c, w') ->
  exists plans S,
    place_sites (map position L) (map position T) bd [] sites = Return plans
    /\ heap w' !! c = Some S
    /\ S = L ++ concat (map (instance_of T) plans)
    /\ length plans = length sites
    /\ length S = length L + length sites * length T
    /\ forall k p, plans !! k = Some p ->
         (exists site, sites !! k = Some site
            /\ place_site (map position L) (map position T) bd
                 (map plan_metal_atoms (take k plans)) site = Return p)
         /\ map species (instance_of T p) = map species T
         /\ map position (instance_of T p) = plan_final p
         /\ take (length T) (drop (length L + k * length T) S) = instance_of T p.
Proof.
  intros HL HT Hrun.
  eapply ligand_metal_docking_outcome in Hrun; [|done..].
  destruct Hrun as [(plans & Hps & [= ->] & ->)|(? & ? & ? & ? & ? & _ & _ & [=] & _)].
  exists plans, (L ++ concat (map (instance_of T) plans)).
  pose proof (instances_length _ _ _ _ _ _ Hps) as Hlen.
  pose proof (place_sites_length _ _ _ _ _ _ Hps) as Hn.
  split_and!; [done| |done|done| |].
  - simpl. unfold heap_after. rewrite lookup_app_r by lia.
    by rewrite Nat.sub_diag.
  - rewrite length_app, (concat_blocks_length _ _ Hlen), length_map. lia.
  - intros k p Hk.
    destruct (place_sites_lookup _ _ _ _ _ _ _ _ Hps Hk) as (site & Hsite & Hp).
    pose proof Hp as [Hplan _]%place_site_inv.
    apply site_plan_final_length in Hplan. rewrite length_map in Hplan.
    split_and!.
    + by exists site.
    + by apply with_positions_species.
    + by apply with_positions_position.
    + rewrite drop_app_add' by done.
      apply (concat_block _ _ Hlen). by rewrite list_lookup_fmap, Hk.
Qed.


(** C10, amended.  With a hull that raises on input that is not
    full-dimensional, and a template that is not full-dimensional (fewer
    than four atoms, or all atoms on a line or in a plane), a call whose
    first site has indices NumPy accepts raises the hull error at that
    site, after the position solver and before anything is copied,
    rotated or placed; and no call with a site returns for such a
    template. *)
Theorem degenerate_template_fails ligand metal_center site sites bd L T w :
  qhull_rejects_degenerate ->
  heap w !! ligand = Some L ->
  heap w !! metal_center = Some T ->
  degenerate (map position T) ->
  (Forall (numpy_valid (length L)) site ->
   exists f,
     ligand_metal_docking ligand metal_center (site :: sites) bd w
     = (Raise HullError,
        World (heap w ++ [L])
              (calls w ++ [CallMinimizeScalar f bd; CallConvexHull (map position T)])))
  /\ (forall c w',
        ligand_metal_docking ligand metal_center (site :: sites) bd w
        <> (Return c, w')).
Proof.
  intros Hq HL HT Hdeg. pose proof (Hq _ Hdeg) as Hnone. split.
  - intros Hv. rewrite <- (length_map position) in Hv.
    destruct (site_geometry_valid _ _ Hv) as (sp & sc & dir & Hg).
    rewrite length_map in Hg.
    exists (position_objective_function sp sc dir bd).
    rewrite (ligand_metal_docking_eq _ _ _ _ L) by done.
    simpl. rewrite run_bind.
    destruct (objects_copied _ _ _ _ _ HL HT) as (HL' & HT' & HC' & _).
    rewrite (site_body_eq _ _ _ L T L) by done.
    by rewrite (site_body_resolved_hull _ _ _ _ _ _ _ _ sp sc dir).
  - intros c w' Hrun.
    eapply ligand_metal_docking_outcome in Hrun; [|done..].
    destruct Hrun as [(plans & Hps & _)|(? & ? & ? & ? & ? & _ & _ & [=] & _)].
    simpl in Hps.
    destruct (place_site _ _ _ _ _) as [p|e] eqn:Hp; simpl in Hps; [|done].
    apply place_site_inv in Hp as [Hp _].
    apply site_plan_inv in Hp as (s & _ & _ & _ & Hh & _). congruence.
Qed.

(** *** Arithmetic on finite values *)

Section Numbers.
Local Open Scope R_scope.

Lemma vfinite_vnum v : vfinite v <-> exists x y z, v = vnum x y z.
Proof.
  destruct v as [a b c]. unfold vfinite, Fl.finite, vnum. simpl. split.
  - intros ([x ->] & [y ->] & [z ->]). by exists x, y, z.
  - intros (x & y & z & [= -> -> ->]). repeat split; eauto.
Qed.

Lemma sqrt_guard x : 0 <= x -> Fl.sqrt (Num x) = Num (sqrt x).
Proof. intros Hx. unfold Fl.sqrt. destruct (Rlt_dec x 0); [lra|done]. Qed.

Lemma sum_squares_nonneg x y z : 0 <= x * x + y * y + z * z.
Proof. nra. Qed.

Lemma vnorm_vnum x y z : vnorm (vnum x y z) = Num (sqrt (x * x + y * y + z * z)).
Proof. unfold vnorm. simpl. apply sqrt_guard, sum_squares_nonneg. Qed.

Lemma vsub_vnum x y z x' y' z' :
  vsub (vnum x y z) (vnum x' y' z') = vnum (x - x') (y - y') (z - z').
Proof. done. Qed.

Lemma vadd_vnum x y z x' y' z' :
  vadd (vnum x y z) (vnum x' y' z') = vnum (x + x') (y + y') (z + z').
Proof. done. Qed.

Lemma vscale_vnum s x y z :
  vscale (Num s) (vnum x y z) = vnum (s * x) (s * y) (s * z).
Proof. done. Qed.

Lemma vdiv_vnum x y z n :
  n <> 0 -> vdiv (vnum x y z) (Num n) = vnum (x / n) (y / n) (z / n).
Proof. intros Hn. unfold vdiv, Fl.div. simpl. by destruct (Req_dec_T n 0). Qed.

Lemma vnum_eq x y z x' y' z' :
  x = x' -> y = y' -> z = z' -> vnum x y z = vnum x' y' z'.
Proof. by intros -> -> ->. Qed.

Lemma distance_vnum x y z x' y' z' :
  distance (vnum x y z) (vnum x' y' z')
    (sqrt ((x - x') * (x - x') + (y - y') * (y - y') + (z - z') * (z - z'))).
Proof. unfold distance. by rewrite vsub_vnum, vnorm_vnum. Qed.

Lemma distance_finite a b : vfinite a -> vfinite b -> exists d, distance a b d.
Proof.
  intros (x & y & z & ->)%vfinite_vnum (x' & y' & z' & ->)%vfinite_vnum.
  eexists. apply distance_vnum.
Qed.

Lemma sqrt_lower b s : 0 <= b -> b * b <= s -> b <= sqrt s.
Proof.
  intros Hb Hs. rewrite <- (sqrt_square b Hb). by apply sqrt_le_1_alt.
Qed.

Lemma sqrt_upper b s : 0 <= b -> 0 <= s -> s < b * b -> sqrt s < b.
Proof.
  intros Hb H0 Hs. rewrite <- (sqrt_square b Hb). by apply sqrt_lt_1_alt.
Qed.

(** Sums. *)
Lemma np_sum_from (l : list R) (a : R) :
  fold_left Fl.add (map Num l) (Num a) = Num (a + fold_right Rplus 0 l).
Proof.
  revert a. induction l as [|x l IH]; intros a; simpl.
  - f_equal. lra.
  - change (Fl.add (Num a) (Num x)) with (Num (a + x)).
    rewrite IH. f_equal. lra.
Qed.

Lemma np_sum_Num (l : list R) : np_sum (map Num l) = Num (fold_right Rplus 0 l).
Proof. unfold np_sum. rewrite np_sum_from. f_equal. lra. Qed.

Lemma finite_list (l : list fl) : Forall Fl.finite l -> exists rs, l = map Num rs.
Proof.
  induction 1 as [|a l [x ->] _ [rs ->]]; [by exists []|]. by exists (x :: rs).
Qed.

Lemma np_mean_axis0_finite rows :
  rows <> [] -> Forall vfinite rows -> vfinite (np_mean_axis0 rows).
Proof.
  intros Hne Hfin.
  assert (Hn : INR (length rows) <> 0).
  { apply not_0_INR. by destruct rows. }
  assert (Hcol : forall f : vec -> fl, (forall v, vfinite v -> Fl.finite (f v)) ->
            Fl.finite (Fl.div (np_sum (map f rows)) (Fl.of_nat (length rows)))).
  { intros f Hf.
    destruct (finite_list (map f rows)) as [rs ->].
    { apply Forall_map. eapply Forall_impl; [exact Hfin|]. exact Hf. }
    rewrite np_sum_Num. unfold Fl.div, Fl.of_nat.
    destruct (Req_dec_T _ _); [done|]. by eexists. }
  unfold np_mean_axis0, vfinite. simpl.
  split_and!; apply Hcol; intros v Hv; apply Hv.
Qed.

(** Normalisation gives a unit vector. *)
Lemma vnorm_normalised x y z :
  let n := sqrt (x * x + y * y + z * z) in
  n <> 0 -> vnorm (vdiv (vnum x y z) (Num n)) = Num 1.
Proof.
  intros n Hn. rewrite vdiv_vnum by done. rewrite vnorm_vnum. f_equal.
  assert (Hs : n * n = x * x + y * y + z * z)
    by (apply sqrt_sqrt, sum_squares_nonneg).
  replace (x / n * (x / n) + y / n * (y / n) + z / n * (z / n))
    with ((x * x + y * y + z * z) / (n * n)) by (field; done).
  rewrite <- Hs. replace (n * n / (n * n)) with 1 by (field; done).
  apply sqrt_1.
Qed.

Lemma vnorm_z_axis : vnorm z_axis = Num 1.
Proof.
  unfold z_axis. rewrite vnorm_vnum. f_equal.
  replace (0 * 0 + 0 * 0 + 1 * 1) with 1 by lra. apply sqrt_1.
Qed.

End Numbers.

(** *** The site geometry *)

Lemma py_in_spec i l : py_in i l = true <-> i ∈ l.
Proof.
  unfold py_in. rewrite existsb_exists. split.
  - intros (x & Hx & ->%Z.eqb_eq). by apply list_elem_of_In.
  - intros Hi. exists i. split; [by apply list_elem_of_In|apply Z.eqb_refl].
Qed.

Lemma non_site_nil n site :
  List.filter (fun i => negb (py_in i site)) (py_range n) = []
  <-> forall i, i < n -> Z.of_nat i ∈ site.
Proof.
  split.
  - intros Hnil i Hi. apply py_in_spec.
    destruct (py_in (Z.of_nat i) site) eqn:Hin; [done|].
    assert (In (Z.of_nat i) (List.filter (fun i => negb (py_in i site)) (py_range n))) as Hf.
    { apply filter_In. split; [|by rewrite Hin].
      unfold py_range. apply in_map, in_seq. lia. }
    rewrite Hnil in Hf. destruct Hf.
  - intros Hall.
    destruct (List.filter _ _) as [|z l] eqn:Hf; [done|].
    assert (In z (List.filter (fun i => negb (py_in i site)) (py_range n))) as Hz
      by (rewrite Hf; left; done).
    apply filter_In in Hz as [Hz Hneg].
    unfold py_range in Hz. apply in_map_iff in Hz as (k & <- & Hk%in_seq).
    assert (py_in (Z.of_nat k) site = true) as Hin by (apply py_in_spec, Hall; lia).
    by rewrite Hin in Hneg.
Qed.

(** C7, amended.  For a site of indices NumPy accepts the extractor does
    not raise.  The direction is the Z axis when no index of the ligand
    is missing from the site; otherwise it is the Z axis when the norm of
    the centroid difference compares below [1e-10], and the centroid
    difference divided by that norm when it does not.  Nothing is said
    of the length of the quotient. *)
Theorem site_geometry_direction Lp site :
  Forall (numpy_valid (length Lp)) site ->
  let non_site :=
    List.filter (fun i => negb (py_in i site)) (py_range (length Lp)) in
  exists sp dir,
    site_geometry Lp (length Lp) site = Return (sp, np_mean_axis0 sp, dir)
    /\ take_rows Lp site = Return sp
    /\ (non_site = [] <-> forall i, i < length Lp -> Z.of_nat i ∈ site)
    /\ (non_site = [] -> dir = z_axis)
    /\ (non_site <> [] ->
        exists rest,
          take_rows Lp non_site = Return rest
          /\ let diff := vsub (np_mean_axis0 sp) (np_mean_axis0 rest) in
             (Fl.ltb (vnorm diff) (Num 1e-10) = true -> dir = z_axis)
             /\ (Fl.ltb (vnorm diff) (Num 1e-10) = false ->
                 dir = vdiv diff (vnorm diff))).
Proof.
  intros Hvalid non_site.
  destruct (take_rows_valid Lp site Hvalid) as (sp & Hsp & _).
  unfold site_geometry. rewrite Hsp. simpl. fold non_site.
  pose proof (non_site_nil (length Lp) site) as Hnil. fold non_site in Hnil.
  destruct non_site as [|z l] eqn:Hns.
  - simpl. exists sp, z_axis. split_and!; done.
  - pose proof (py_range_valid (length Lp) (fun i => negb (py_in i site))) as Hr.
    fold non_site in Hr. rewrite Hns in Hr.
    destruct (take_rows_valid Lp (z :: l) Hr) as (rest & Hrest & _).
    cbn [mbind result_bind]. rewrite Hrest. cbn [mbind result_bind].
    eexists sp, _. split_and!; [done|done|done|done|].
    intros _. exists rest. split; [done|]. cbv zeta.
    destruct (Fl.ltb _ _); split; done.
Qed.

(** *** Rotations *)

Section Rotations.
Local Open Scope R_scope.

Lemma sin_cos_1 t : sin t * sin t + cos t * cos t = 1.
Proof. exact (sin2_cos2 t). Qed.

Lemma sq_rot_x t v : sq (rot_x t v) = sq v.
Proof.
  destruct v as [[x y] z]. simpl.
  replace (x * x + (y * cos t - z * sin t) * (y * cos t - z * sin t)
           + (y * sin t + z * cos t) * (y * sin t + z * cos t))
    with (x * x + (y * y + z * z) * (sin t * sin t + cos t * cos t)) by ring.
  rewrite sin_cos_1. ring.
Qed.

Lemma sq_rot_y t v : sq (rot_y t v) = sq v.
Proof.
  destruct v as [[x y] z]. simpl.
  replace ((x * cos t + z * sin t) * (x * cos t + z * sin t) + y * y
           + (z * cos t - x * sin t) * (z * cos t - x * sin t))
    with (y * y + (x * x + z * z) * (sin t * sin t + cos t * cos t)) by ring.
  rewrite sin_cos_1. ring.
Qed.

Lemma sq_rot_z t v : sq (rot_z t v) = sq v.
Proof.
  destruct v as [[x y] z]. simpl.
  replace ((x * cos t - y * sin t) * (x * cos t - y * sin t)
           + (x * sin t + y * cos t) * (x * sin t + y * cos t) + z * z)
    with (z * z + (x * x + y * y) * (sin t * sin t + cos t * cos t)) by ring.
  rewrite sin_cos_1. ring.
Qed.

(** [np.dot(v, R.T)] for [R = Rz @ Ry @ Rx] applies [Rx], then [Ry],
    then [Rz]. *)
Lemma euler_apply a b c v :
  dot_transpose (vec_of v) (euler_matrix (vnum a b c))
  = vec_of (rot_z c (rot_y b (rot_x a v))).
Proof.
  destruct v as [[x y] z].
  unfold euler_matrix, dot_transpose, mat_mul, vdot, col0, col1, col2, vec_of,
    rot_x, rot_y, rot_z, vnum. simpl.
  apply vnum_eq; ring.
Qed.

Lemma vnorm_vec_of v : vnorm (vec_of v) = Num (sqrt (sq v)).
Proof. destruct v as [[x y] z]. apply vnorm_vnum. Qed.

(** A rotation about [o] fixes [o]. *)
Lemma rotate_fixes_centre a b c ox oy oz :
  vadd (dot_transpose (vsub (vnum ox oy oz) (vnum ox oy oz)) (euler_matrix (vnum a b c)))
       (vnum ox oy oz)
  = vnum ox oy oz.
Proof.
  rewrite vsub_vnum.
  change (vnum (ox - ox) (oy - oy) (oz - oz)) with (vec_of (ox - ox, oy - oy, oz - oz)).
  rewrite euler_apply. simpl. rewrite vadd_vnum. apply vnum_eq; ring.
Qed.

(** A rotation about [o] preserves distances. *)
Lemma rotate_preserves_distance a b c ox oy oz px py pz qx qy qz :
  let E := euler_matrix (vnum a b c) in
  let o := vnum ox oy oz in
  vnorm (vsub (vadd (dot_transpose (vsub (vnum px py pz) o) E) o)
              (vadd (dot_transpose (vsub (vnum qx qy qz) o) E) o))
  = vnorm (vsub (vnum px py pz) (vnum qx qy qz)).
Proof.
  intros E o. subst E o. rewrite !vsub_vnum.
  change (vnum (px - ox) (py - oy) (pz - oz)) with (vec_of (px - ox, py - oy, pz - oz)).
  change (vnum (qx - ox) (qy - oy) (qz - oz)) with (vec_of (qx - ox, qy - oy, qz - oz)).
  rewrite !euler_apply.
  transitivity (vnorm (vec_of (rot_z c (rot_y b (rot_x a (px - qx, py - qy, pz - qz)))))).
  - f_equal. simpl. rewrite !vadd_vnum, vsub_vnum. apply vnum_eq; ring.
  - rewrite vnorm_vec_of, sq_rot_z, sq_rot_y, sq_rot_x. simpl.
    by rewrite vnorm_vnum.
Qed.

End Rotations.



(** *** The validator on finite positions *)

Lemma take_rows_app {A} (a : list A) i1 i2 :
  take_rows a (i1 ++ i2)
  = (r1 ← take_rows a i1; r2 ← take_rows a i2; Return (r1 ++ r2)).
Proof.
  induction i1 as [|i i1 IH]; simpl.
  - by destruct (take_rows a i2).
  - destruct (np_index _ _) as [j|e]; simpl; [|done].
    destruct (a !! j) as [x|]; [|done].
    rewrite IH. destruct (take_rows a i1) as [r1|e]; simpl; [|done].
    by destruct (take_rows a i2).
Qed.

Lemma np_index_nat n i : i < n -> np_index n (Z.of_nat i) = Return i.
Proof.
  intros Hi. unfold np_index.
  destruct (0 <=? Z.of_nat i)%Z eqn:H0; [|apply Z.leb_gt in H0; lia].
  destruct (Z.of_nat i <? Z.of_nat n)%Z eqn:H1; [|apply Z.ltb_ge in H1; lia].
  simpl. by rewrite Nat2Z.id.
Qed.

Lemma take_rows_seq {A} (a : list A) len :
  forall s, s + len <= length a ->
  take_rows a (map Z.of_nat (seq s len)) = Return (take len (drop s a)).
Proof.
  induction len as [|len IH]; intros s Hs; simpl; [done|].
  rewrite np_index_nat by lia. simpl.
  destruct (lookup_lt_is_Some_2 a s ltac:(lia)) as [x Hx]. rewrite Hx.
  rewrite IH by lia. simpl. f_equal.
  rewrite (drop_S _ _ _ Hx). simpl. done.
Qed.

Lemma take_rows_delete {A} (a : list A) c :
  c < length a ->
  take_rows a (map Z.of_nat (delete c (seq 0 (length a)))) = Return (delete c a).
Proof.
  intros Hc. rewrite !delete_take_drop.
  rewrite take_seq, drop_seq, Nat.min_l by lia.
  rewrite map_app, take_rows_app.
  rewrite (take_rows_seq a c 0) by lia.
  rewrite (take_rows_seq a (length a - S c) (0 + S c)) by lia.
  simpl. rewrite drop_0. f_equal. f_equal.
  apply take_ge. rewrite length_drop. lia.
Qed.

Lemma clearances_inv c Lp prev fp nm md :
  clearances (length fp) c Lp prev fp = Return (nm, md) ->
  c < length fp
  /\ nm = delete c fp
  /\ exists mdL,
       min_distances_to nm Lp = Return mdL
       /\ match prev with
          | [] => md = mdL
          | _ :: _ => exists mdP,
              min_distances_to nm (concat prev) = Return mdP
              /\ md = zip_with Fl.minimum mdL mdP
          end.
Proof.
  unfold clearances, np_delete. rewrite length_seq.
  destruct (c <? length fp)%nat eqn:Hc; simpl; [|done].
  apply Nat.ltb_lt in Hc. rewrite take_rows_delete by done. simpl.
  destruct (min_distances_to _ Lp) as [mdL|e] eqn:HL; simpl; [|done].
  destruct prev as [|b0 prev]; simpl.
  - intros [= <- <-]. split_and!; [done|done|]. by exists mdL.
  - destruct (min_distances_to _ (b0 ++ concat prev)) as [mdP|e] eqn:HP; simpl; [|done].
    intros [= <- <-]. split_and!; [done|done|]. exists mdL. split; [done|]. by exists mdP.
Qed.

Section Clearance.
Local Open Scope R_scope.

Lemma fold_minimum_lower (ds : list fl) :
  forall d0 : R,
  Forall Fl.finite ds ->
  exists m, fold_left Fl.minimum ds (Num d0) = Num m
    /\ m <= d0
    /\ forall d, d ∈ ds -> exists x, d = Num x /\ m <= x.
Proof.
  induction ds as [|d ds IH]; intros d0 Hfin; simpl.
  - exists d0. split_and!; [done|lra|]. intros d Hd. by apply elem_of_nil in Hd.
  - apply Forall_cons in Hfin as [[x ->] Hfin].
    change (Fl.minimum (Num d0) (Num x)) with (Num (Rmin d0 x)).
    destruct (IH (Rmin d0 x) Hfin) as (m & Hm & Hle & Hall).
    exists m. split; [done|]. split.
    + pose proof (Rmin_l d0 x). lra.
    + intros d [->|Hd]%elem_of_cons; [|by apply Hall].
      exists x. split; [done|]. pose proof (Rmin_r d0 x). lra.
Qed.

Lemma min_distances_to_lower atoms others md :
  min_distances_to atoms others = Return md ->
  Forall vfinite atoms -> Forall vfinite others ->
  Forall2 (fun a m => exists r, m = Num r
             /\ forall q, q ∈ others -> exists d, distance a q d /\ r <= d)
          atoms md.
Proof.
  destruct others as [|o os]; simpl; [done|].
  intros [= <-] Hatoms [Ho Hos]%Forall_cons.
  apply Forall2_fmap_r, Forall_Forall2_diag.
  eapply Forall_impl; [exact Hatoms|]. intros a Ha. simpl.
  destruct (distance_finite a o Ha Ho) as [d0 Hd0]. unfold distance in Hd0.
  rewrite Hd0.
  destruct (fold_minimum_lower (map (fun p => vnorm (vsub a p)) os) d0)
    as (m & Hm & Hle & Hall).
  { apply Forall_map. eapply Forall_impl; [exact Hos|]. intros q Hq. simpl.
    destruct (distance_finite a q Ha Hq) as [d Hd]. by exists d. }
  exists m. split; [done|].
  intros q [->|Hq]%elem_of_cons.
  - by exists d0.
  - destruct (Hall (vnorm (vsub a q))) as (x & Hx & Hmx).
    { apply list_elem_of_fmap. by exists q. }
    by exists x.
Qed.

Lemma np_any_lt_false md b :
  np_any_lt md (Num b) = false ->
  forall r, Num r ∈ md -> b <= r.
Proof.
  unfold np_any_lt. intros Hany r Hr.
  destruct (Rle_dec b r) as [|Hn]; [done|]. exfalso.
  assert (existsb (fun x => Fl.ltb x (Num b)) md = true) as Ht.
  { apply existsb_exists. exists (Num r). split; [by apply list_elem_of_In|].
    simpl. destruct (Rlt_dec r b); [done|lra]. }
  congruence.
Qed.

Lemma clearances_far c Lp prev fp nm md b :
  clearances (length fp) c Lp prev fp = Return (nm, md) ->
  np_any_lt md (Num b) = false ->
  Forall vfinite fp -> Forall vfinite Lp -> Forall (Forall vfinite) prev ->
  nm = delete c fp
  /\ forall a q, a ∈ nm -> q ∈ Lp ++ concat prev -> clear_by b a q.
Proof.
  intros Hcl Hany Hfp HLp Hprev.
  apply clearances_inv in Hcl as (Hc & Hnm & mdL & HmdL & Hmd).
  split; [done|].
  assert (Hnmfin : Forall vfinite nm).
  { rewrite Hnm. rewrite delete_take_drop. apply Forall_app. split.
    - by apply Forall_take.
    - by apply Forall_drop. }
  pose proof (min_distances_to_lower _ _ _ HmdL Hnmfin HLp) as HL2.
  intros a q Ha Hq.
  apply list_elem_of_lookup in Ha as [i Hi].
  destruct (Forall2_lookup_l _ _ _ _ _ HL2 Hi) as (mL & HmL & rL & -> & HLall).
  destruct prev as [|b0 prev'].
  - subst md. simpl in Hq. rewrite app_nil_r in Hq.
    destruct (HLall q Hq) as (d & Hd & Hle). exists d. split; [done|].
    pose proof (np_any_lt_false _ _ Hany rL (list_elem_of_lookup_2 _ _ _ HmL)). lra.
  - destruct Hmd as (mdP & HmdP & ->).
    assert (Hcfin : Forall vfinite (concat (b0 :: prev'))) by by apply Forall_concat.
    pose proof (min_distances_to_lower _ _ _ HmdP Hnmfin Hcfin) as HP2.
    destruct (Forall2_lookup_l _ _ _ _ _ HP2 Hi) as (mP & HmP & rP & -> & HPall).
    assert (Num (Rmin rL rP) ∈ zip_with Fl.minimum mdL mdP) as Hin.
    { apply (list_elem_of_lookup_2 _ i). rewrite lookup_zip_with, HmL. simpl.
      by rewrite HmP. }
    pose proof (np_any_lt_false _ _ Hany _ Hin) as Hb.
    pose proof (Rmin_l rL rP). pose proof (Rmin_r rL rP).
    apply elem_of_app in Hq as [Hq|Hq].
    + destruct (HLall q Hq) as (d & Hd & Hle). exists d. split; [done|lra].
    + destruct (HPall q Hq) as (d & Hd & Hle). exists d. split; [done|lra].
Qed.

End Clearance.

Lemma place_sites_previous Lp Tp bd sites :
  forall prev plans k p,
  place_sites Lp Tp bd prev sites = Return plans ->
  plans !! k = Some p ->
  exists site, sites !! k = Some site
    /\ site_plan Lp Tp bd (prev ++ map plan_metal_atoms (take k plans)) site = Return p
    /\ np_any_lt (plan_min_distances p) bd = false.
Proof.
  intros prev plans k p Hps Hk.
  destruct (place_sites_lookup _ _ _ _ _ _ _ _ Hps Hk) as (site & Hs & Hp).
  apply place_site_inv in Hp as [Hp Hany]. eauto.
Qed.

Lemma Forall_delete_finite c (fp : list vec) :
  Forall vfinite fp -> Forall vfinite (delete c fp).
Proof.
  intros H. rewrite delete_take_drop. apply Forall_app.
  split; [by apply Forall_take|by apply Forall_drop].
Qed.

(** C1, amended.  When the call returns a structure whose coordinates
    are all numbers, every non-coordinating atom of every placed instance
    is at a distance of at least the bond distance from every ligand atom
    and from every non-coordinating atom of every earlier instance. *)
Theorem placed_instances_keep_clear ligand metal_center sites b L T w c w' S :
  heap w !! ligand = Some L ->
  heap w !! metal_center = Some T ->
  ligand_metal_docking ligand metal_center sites (Num b) w = (Return c, w') ->
  heap w' !! c = Some S ->
  Forall (fun a => vfinite (position a)) S ->
  exists plans,
    place_sites (map position L) (map position T) (Num b) [] sites = Return plans
    /\ S = L ++ concat (map (instance_of T) plans)
    /\ forall k p a,
         plans !! k = Some p ->
         a ∈ delete (plan_coordinating p) (plan_final p) ->
         (forall q, q ∈ map position L -> clear_by b a q)
         /\ (forall j p' a',
               j < k -> plans !! j = Some p' ->
               a' ∈ delete (plan_coordinating p') (plan_final p') ->
               clear_by b a a').
Proof.
  intros HL HT Hrun HS Hfin.
  destruct (ligand_metal_docking_Return _ _ _ _ _ _ _ _ _ HL HT Hrun)
    as (plans & Hps & HS' & Hblocks).
  rewrite HS in HS'. injection HS' as ->.
  exists plans. split; [done|]. split; [done|].
  apply Forall_app in Hfin as [HLfin Hinst].
  assert (HLp : Forall vfinite (map position L)) by by apply Forall_map.
  assert (Hfinal : forall k p, plans !! k = Some p -> Forall vfinite (plan_final p)).
  { intros k p Hk. rewrite <- (Hblocks k p Hk). apply Forall_map.
    apply Forall_concat in Hinst.
    apply (proj1 (Forall_forall _ _) Hinst).
    apply list_elem_of_fmap. exists p. split; [done|]. by eapply list_elem_of_lookup_2. }
  assert (Hplan : forall k p, plans !! k = Some p ->
            clearances (length (plan_final p)) (plan_coordinating p) (map position L)
              (map plan_metal_atoms (take k plans)) (plan_final p)
            = Return (plan_metal_atoms p, plan_min_distances p)
            /\ np_any_lt (plan_min_distances p) (Num b) = false).
  { intros k p Hk.
    destruct (place_sites_previous _ _ _ _ _ _ _ _ Hps Hk) as (site & _ & Hp & Hany).
    simpl in Hp. split; [|done].
    rewrite (site_plan_final_length _ _ _ _ _ _ Hp).
    by apply site_plan_inv in Hp as (s & _ & _ & _ & _ & _ & _ & _ & _ & Hcl & _). }
  assert (Hmetal : forall k p, plans !! k = Some p ->
            plan_metal_atoms p = delete (plan_coordinating p) (plan_final p)).
  { intros k p Hk. destruct (Hplan k p Hk) as [Hcl _].
    by apply clearances_inv in Hcl as (_ & -> & _). }
  intros k p a Hk Ha.
  destruct (Hplan k p Hk) as [Hcl Hany].
  assert (Hprev : Forall (Forall vfinite) (map plan_metal_atoms (take k plans))).
  { apply Forall_map, Forall_forall. intros p' Hp'. simpl.
    apply list_elem_of_lookup in Hp' as [j Hj].
    apply lookup_take_Some in Hj as [Hj _].
    rewrite (Hmetal j p' Hj). apply Forall_delete_finite. by eapply Hfinal. }
  destruct (clearances_far _ _ _ _ _ _ _ Hcl Hany (Hfinal k p Hk) HLp Hprev)
    as [Hnm Hfar].
  rewrite <- Hnm in Ha. split.
  - intros q Hq. apply Hfar; [done|]. apply elem_of_app. by left.
  - intros j p' a' Hjk Hj Ha'. apply Hfar; [done|].
    apply elem_of_app. right. apply list_elem_of_In, in_concat.
    exists (plan_metal_atoms p'). split.
    + apply list_elem_of_In, list_elem_of_fmap. exists p'. split; [done|].
      apply (list_elem_of_lookup_2 _ j). by apply lookup_take_Some.
    + apply list_elem_of_In. by rewrite (Hmetal j p' Hj).
Qed.

(** *** The distances the validator compares *)

Lemma minimum_assoc a b c :
  Fl.minimum (Fl.minimum a b) c = Fl.minimum a (Fl.minimum b c).
Proof.
  destruct a as [x|], b as [y|], c as [z|]; try done.
  unfold Fl.minimum, Fl.lift2. f_equal. symmetry. apply Rmin_assoc.
Qed.

Lemma fold_minimum_init (l : list fl) x y :
  fold_left Fl.minimum l (Fl.minimum x y) = Fl.minimum x (fold_left Fl.minimum l y).
Proof.
  revert y. induction l as [|a l IH]; intros y; simpl; [done|].
  rewrite minimum_assoc. apply IH.
Qed.

(** The minimum over two pools is the [np.minimum] of the two minima. *)
Lemma min_distance_app a (l1 l2 : list vec) d1 d2 :
  min_distance a l1 = Some d1 -> min_distance a l2 = Some d2 ->
  min_distance a (l1 ++ l2) = Some (Fl.minimum d1 d2).
Proof.
  destruct l1 as [|o os], l2 as [|o' os']; simpl; try done.
  intros [= <-] [= <-]. f_equal.
  rewrite map_app, fold_left_app. simpl. apply fold_minimum_init.
Qed.

Lemma min_distances_to_spec atoms others md :
  min_distances_to atoms others = Return md ->
  Forall2 (fun a d => min_distance a others = Some d) atoms md.
Proof.
  destruct others as [|o os]; simpl; [done|]. intros [= <-].
  apply Forall2_fmap_r, Forall_Forall2_diag, Forall_forall. done.
Qed.

Lemma zip_minimum_spec (atoms : list vec) l1 l2 md1 md2 :
  Forall2 (fun a d => min_distance a l1 = Some d) atoms md1 ->
  Forall2 (fun a d => min_distance a l2 = Some d) atoms md2 ->
  Forall2 (fun a d => min_distance a (l1 ++ l2) = Some d) atoms
          (zip_with Fl.minimum md1 md2).
Proof.
  intros H1. revert md2.
  induction H1 as [|a d1 atoms md1 Ha _ IH]; intros md2 H2.
  - apply Forall2_nil_inv_l in H2 as ->. constructor.
  - apply Forall2_cons_inv_l in H2 as (d2 & md2' & Ha2 & H2 & ->). simpl.
    constructor; [by apply min_distance_app|by apply IH].
Qed.

(** The validator's [min_distances]: for every non-coordinating atom of
    the positions it is given, the minimum distance to the ligand atoms
    and the previously accumulated metal positions, pooled. *)
Lemma clearances_min_distance c Lp prev fp nm md :
  clearances (length fp) c Lp prev fp = Return (nm, md) ->
  nm = delete c fp
  /\ Forall2 (fun a d => min_distance a (Lp ++ concat prev) = Some d) nm md.
Proof.
  intros Hcl. apply clearances_inv in Hcl as (_ & Hnm & mdL & HmdL & Hmd).
  split; [done|]. apply min_distances_to_spec in HmdL.
  destruct prev as [|b0 prev'].
  - subst md. simpl. by rewrite app_nil_r.
  - destruct Hmd as (mdP & HmdP & ->). apply min_distances_to_spec in HmdP.
    by apply zip_minimum_spec.
Qed.

Lemma validator_distances Lp Tp bd prev site p :
  site_plan Lp Tp bd prev site = Return p ->
  plan_metal_atoms p = delete (plan_coordinating p) (plan_final p)
  /\ Forall2 (fun a d => min_distance a (Lp ++ concat prev) = Some d)
       (delete (plan_coordinating p) (plan_final p)) (plan_min_distances p).
Proof.
  intros Hp. pose proof (site_plan_final_length _ _ _ _ _ _ Hp) as Hlen.
  apply site_plan_inv in Hp as (s & _ & _ & _ & _ & _ & _ & _ & _ & Hcl & _).
  rewrite <- Hlen in Hcl. apply clearances_min_distance in Hcl as [Hnm H2].
  split; [done|]. by rewrite <- Hnm.
Qed.

Lemma validator_trips Lp Tp bd prev site p :
  site_plan Lp Tp bd prev site = Return p ->
  np_any_lt (plan_min_distances p) bd = true
  <-> exists i a d,
        delete (plan_coordinating p) (plan_final p) !! i = Some a
        /\ min_distance a (Lp ++ concat prev) = Some d
        /\ Fl.ltb d bd = true.
Proof.
  intros Hp. apply validator_distances in Hp as [_ H2].
  unfold np_any_lt. rewrite existsb_exists. split.
  - intros (d & Hd & Hlt).
    apply list_elem_of_In, list_elem_of_lookup in Hd as [i Hi].
    destruct (Forall2_lookup_r _ _ _ _ _ H2 Hi) as (a & Ha & Hmin). eauto 10.
  - intros (i & a & d & Ha & Hmin & Hlt).
    destruct (Forall2_lookup_l _ _ _ _ _ H2 Ha) as (d' & Hd' & Hmin').
    assert (d' = d) as -> by congruence.
    exists d. split; [|done]. apply list_elem_of_In.
    by eapply list_elem_of_lookup_2.
Qed.

(** The accumulated metal positions of a placed instance are its atoms
    without the coordinating atom. *)
Lemma placed_metal_atoms Lp Tp bd sites :
  forall prev plans,
  place_sites Lp Tp bd prev sites = Return plans ->
  map plan_metal_atoms plans
  = map (fun q => delete (plan_coordinating q) (plan_final q)) plans.
Proof.
  intros prev plans Hps. apply place_sites_Forall in Hps.
  induction Hps as [|p plans (prev' & site & Hp) _ IH]; simpl; [done|].
  apply place_site_inv in Hp as [Hp _]. apply validator_distances in Hp as [-> _].
  by rewrite IH.
Qed.

(** C2.  The call raises the steric-clash error exactly when some site is
    reached (every earlier site was placed), passes its stages up to the
    validator, and the instance rotated by the angles of the optimiser
    has a non-coordinating atom whose minimum distance to the ligand
    atoms and the non-coordinating atoms of the earlier instances,
    pooled, compares strictly below the bond distance.  The call then
    ends at that site: nothing is returned and the library calls made
    are those of the earlier sites and of this one. *)
Theorem steric_clash_iff ligand metal_center sites bd L T w :
  minimize_propagates ->
  heap w !! ligand = Some L ->
  heap w !! metal_center = Some T ->
  let run := ligand_metal_docking ligand metal_center sites bd w in
  let Lp := map position L in
  let Tp := map position T in
  let non_coordinating p := delete (plan_coordinating p) (plan_final p) in
  let clash_at pre site post plans p :=
    sites = pre ++ site :: post
    /\ place_sites Lp Tp bd [] pre = Return plans
    /\ site_plan Lp Tp bd (map non_coordinating plans) site = Return p
    /\ plan_final p
       = rotate_about (plan_optimal_position p) (euler_matrix (plan_angles p))
           (plan_translated p)
    /\ exists i a d,
         non_coordinating p !! i = Some a
         /\ min_distance a (Lp ++ concat (map non_coordinating plans)) = Some d
         /\ Fl.ltb d bd = true in
  (run.1 = Raise StericClash <->
     exists pre site post plans p, clash_at pre site post plans p)
  /\ (run.1 = Raise StericClash ->
      exists pre site post plans p,
        clash_at pre site post plans p
        /\ calls run.2 = calls w ++ concat (map plan_calls plans) ++ plan_calls p).
Proof.
  intros Hmin HL HT run Lp Tp non_coordinating clash_at.
  assert (Hfwd : run.1 = Raise StericClash ->
      exists pre site post plans p,
        clash_at pre site post plans p
        /\ calls run.2 = calls w ++ concat (map plan_calls plans) ++ plan_calls p).
  { subst run. destruct (ligand_metal_docking _ _ _ _ _) as [r w'] eqn:Hrun.
    simpl. intros ->.
    eapply ligand_metal_docking_outcome in Hrun; [|done..].
    destruct Hrun as [(? & _ & [=] & _)|(pre & s & post & plans & e & -> & Hps & [= <-] & Hres)].
    apply site_body_resolved_steric in Hres as (p & Hp & Hc & ->); [|done].
    rewrite (placed_metal_atoms _ _ _ _ _ _ Hps) in Hp. fold non_coordinating in Hp.
    exists pre, s, post, plans, p. split.
    - split_and!; [done|done|done| |].
      + by apply site_plan_inv in Hp as (? & _ & _ & _ & _ & _ & _ & _ & ? & _).
      + by apply (validator_trips _ _ _ _ _ _ Hp).
    - simpl. by rewrite <- app_assoc. }
  split; [split|done].
  - intros H. destruct (Hfwd H) as (pre & s & post & plans & p & Hc & _). eauto 10.
  - intros (pre & s & post & plans & p & -> & Hps & Hp & _ & Hc).
    subst run. rewrite (ligand_metal_docking_fst _ _ _ _ L T) by done.
    fold Lp Tp. rewrite place_sites_app, Hps. simpl.
    rewrite (placed_metal_atoms _ _ _ _ _ _ Hps). fold non_coordinating.
    unfold place_site. rewrite Hp. simpl.
    apply (validator_trips _ _ _ _ _ _ Hp) in Hc. by rewrite Hc.
Qed.

(** *** The objective and the library calls *)

Section Objective.
Local Open Scope R_scope.

Lemma position_objective_function_spec site_atoms centroid direction b s :
  position_objective_function (map vec_of site_atoms) (vec_of centroid)
    (vec_of direction) (Num b) (Num s)
  = Num (squared_deviation_sum site_atoms centroid direction b s).
Proof.
  destruct centroid as [[cx cy] cz], direction as [[dx dy] dz].
  unfold position_objective_function, squared_deviation_sum. simpl vec_of.
  rewrite vscale_vnum, vadd_vnum, !map_map.
  rewrite <- np_sum_Num, map_map. f_equal.
  apply map_ext. intros [[ax ay] az]. simpl vec_of.
  rewrite vsub_vnum, vnorm_vnum. done.
Qed.

End Objective.

Lemma plan_calls_ok Lp Tp bd prev site p :
  site_plan Lp Tp bd prev site = Return p ->
  Forall (call_ok Tp bd) (plan_calls p).
Proof.
  intros Hp. apply site_plan_inv in Hp as (s & _ & _ & _ & _ & _ & _ & _ & _ & _ & ->).
  repeat constructor.
Qed.

(** C6.  The position objective is the sum of squared deviations of the
    specification; every minimisation of a run starts from its fixed seed
    (the bond distance, the zero angles); a call that returns has run
    each of the two minimisations exactly once per site, in site order. *)
Theorem optimisations_once_per_site ligand metal_center sites bd L T w :
  heap w !! ligand = Some L ->
  heap w !! metal_center = Some T ->
  let Lp := map position L in
  let Tp := map position T in
  (forall site_atoms centroid direction b s,
     position_objective_function (map vec_of site_atoms) (vec_of centroid)
       (vec_of direction) (Num b) (Num s)
     = Num (squared_deviation_sum site_atoms centroid direction b s))
  /\ (forall r w',
        ligand_metal_docking ligand metal_center sites bd w = (r, w') ->
        exists ev, calls w' = calls w ++ ev /\ Forall (call_ok Tp bd) ev)
  /\ (forall c w',
        ligand_metal_docking ligand metal_center sites bd w = (Return c, w') ->
        exists plans,
          place_sites Lp Tp bd [] sites = Return plans
          /\ length plans = length sites
          /\ calls w' = calls w ++ concat (map plan_calls plans)
          /\ forall k p, plans !! k = Some p ->
               plan_calls p
               = [CallMinimizeScalar
                    (position_objective_function (plan_site_positions p)
                       (plan_site_centroid p) (plan_direction p) bd) bd;
                  CallConvexHull Tp;
                  CallMinimizeAngles
                    (rotation_objective_function (plan_translated p)
                       (plan_optimal_position p) (length Tp) (plan_coordinating p)
                       Lp (map plan_metal_atoms (take k plans)))
                    initial_angles]).
Proof.
  intros HL HT Lp Tp.
  assert (Hok : forall plans,
            place_sites Lp Tp bd [] sites = Return plans \/
            (exists pre post, sites = pre ++ post
               /\ place_sites Lp Tp bd [] pre = Return plans) ->
            Forall (call_ok Tp bd) (concat (map plan_calls plans))).
  { intros plans Hplans. apply Forall_concat, Forall_map, Forall_forall.
    intros p Hp. simpl.
    assert (exists prev site, place_site Lp Tp bd prev site = Return p)
      as (prev & site & Hsite).
    { destruct Hplans as [Hps|(pre & post & _ & Hps)];
        apply place_sites_Forall in Hps;
        by apply (proj1 (Forall_forall _ _) Hps). }
    apply place_site_inv in Hsite as [Hsite _]. by eapply plan_calls_ok. }
  split_and!.
  - apply position_objective_function_spec.
  - intros r w' Hrun.
    eapply ligand_metal_docking_outcome in Hrun; [|done..].
    destruct Hrun as [(plans & Hps & _ & ->)
                     |(pre & s & post & plans & e & -> & Hps & _ & Hres)].
    + eexists. split; [done|]. apply Hok. by left.
    + apply site_body_resolved_Raise_world in Hres as (extra & ev & _ & Hev & Hevok).
      simpl in Hev. exists (concat (map plan_calls plans) ++ ev).
      split; [by rewrite Hev, app_assoc|].
      apply Forall_app. split; [|done]. apply Hok. right. eauto.
  - intros c w' Hrun.
    eapply ligand_metal_docking_outcome in Hrun; [|done..].
    destruct Hrun as [(plans & Hps & _ & ->)|(? & ? & ? & ? & ? & _ & _ & [=] & _)].
    exists plans. split_and!; [done|by eapply place_sites_length|done|].
    intros k p Hk.
    destruct (place_sites_previous _ _ _ _ _ _ _ _ Hps Hk) as (site & _ & Hp & _).
    simpl in Hp.
    by apply site_plan_inv in Hp as (s & _ & _ & _ & _ & _ & _ & _ & _ & _ & ->).
Qed.

(** *** Building a plan stage by stage *)

Lemma site_plan_intro Lp Tp bd prev site sp sc dir x opt s c mcp ang fp nm md :
  site_geometry Lp (length Lp) site = Return (sp, sc, dir) ->
  lbfgsb_scalar (position_objective_function sp sc dir bd) bd = x ->
  optimal_position_of sc dir x = opt ->
  hull_simplices Tp = Some s ->
  coordinating_atom_index_of s = Return c ->
  translate_to Tp c opt = Return mcp ->
  lbfgsb_angles (rotation_objective_function mcp opt (length Tp) c Lp prev)
    initial_angles = Return ang ->
  rotate_about opt (euler_matrix ang) mcp = fp ->
  clearances (length Tp) c Lp prev fp = Return (nm, md) ->
  site_plan Lp Tp bd prev site
  = Return (Plan sp sc dir x opt c mcp ang fp nm md
              [CallMinimizeScalar (position_objective_function sp sc dir bd) bd;
               CallConvexHull Tp;
               CallMinimizeAngles
                 (rotation_objective_function mcp opt (length Tp) c Lp prev)
                 initial_angles]).
Proof.
  intros Hg Hx Hopt Hh Hc Htr Ha Hfp Hcl. unfold site_plan.
  rewrite Hg. simpl. rewrite Hx, Hopt, Hh. simpl. rewrite Hc. simpl.
  rewrite Htr. simpl. rewrite Ha. simpl. rewrite Hfp, Hcl. done.
Qed.

Section Passing.
Local Open Scope R_scope.

Lemma clear_by_vnum b x y z x' y' z' :
  0 <= b ->
  b * b <= (x - x') * (x - x') + (y - y') * (y - y') + (z - z') * (z - z') ->
  clear_by b (vnum x y z) (vnum x' y' z').
Proof.
  intros Hb Hs. eexists. split; [apply distance_vnum|]. by apply sqrt_lower.
Qed.

Lemma fold_minimum_ge b (ds : list fl) :
  forall d0 : R,
  b <= d0 ->
  Forall (fun d => exists x, d = Num x /\ b <= x) ds ->
  exists m, fold_left Fl.minimum ds (Num d0) = Num m /\ b <= m.
Proof.
  induction ds as [|d ds IH]; intros d0 Hd0 Hds; simpl; [eauto|].
  apply Forall_cons in Hds as [(x & -> & Hx) Hds].
  change (Fl.minimum (Num d0) (Num x)) with (Num (Rmin d0 x)).
  apply IH; [|done]. by apply Rmin_glb.
Qed.

Lemma min_distances_to_pass atoms others b :
  others <> [] ->
  (forall a q, a ∈ atoms -> q ∈ others -> clear_by b a q) ->
  exists md, min_distances_to atoms others = Return md
    /\ Forall2 (fun _ m => exists r, m = Num r /\ b <= r) atoms md.
Proof.
  intros Hne Hclear. destruct others as [|o os]; [done|]. simpl.
  eexists. split; [done|].
  apply Forall2_fmap_r, Forall_Forall2_diag, Forall_forall. intros a Ha. simpl.
  destruct (Hclear a o Ha) as (d0 & Hd0 & Hle0); [by left|].
  unfold distance in Hd0. rewrite Hd0.
  apply fold_minimum_ge; [done|].
  apply Forall_map, Forall_forall. intros q Hq. simpl.
  destruct (Hclear a q Ha) as (d & Hd & Hle); [by right|]. by exists d.
Qed.

Lemma np_any_lt_pass md b :
  Forall (fun m => exists r, m = Num r /\ b <= r) md ->
  np_any_lt md (Num b) = false.
Proof.
  intros Hmd. unfold np_any_lt.
  destruct (existsb _ md) eqn:He; [|done].
  apply existsb_exists in He as (m & Hm & Hlt).
  apply list_elem_of_In in Hm.
  destruct (proj1 (Forall_forall _ _) Hmd m Hm) as (r & -> & Hr).
  simpl in Hlt. destruct (Rlt_dec r b); [lra|done].
Qed.

(** The validator passes when every pair is far enough apart. *)
Lemma clearances_pass c Lp prev fp b :
  (c < length fp)%nat ->
  Lp <> [] ->
  (forall a q, a ∈ delete c fp -> q ∈ Lp ++ concat prev -> clear_by b a q) ->
  (prev <> [] -> concat prev <> []) ->
  exists md,
    clearances (length fp) c Lp prev fp = Return (delete c fp, md)
    /\ np_any_lt md (Num b) = false.
Proof.
  intros Hc HLp Hclear Hprev. unfold clearances, np_delete.
  rewrite length_seq. apply Nat.ltb_lt in Hc. rewrite Hc. simpl.
  apply Nat.ltb_lt in Hc. rewrite take_rows_delete by done. simpl.
  destruct (min_distances_to_pass (delete c fp) Lp b HLp) as (mdL & -> & HmdL).
  { intros a q Ha Hq. apply Hclear; [done|]. apply elem_of_app. by left. }
  cbn [mbind result_bind]. destruct prev as [|b0 prev'].
  - simpl. exists mdL. split; [done|]. apply np_any_lt_pass.
    eapply Forall2_Forall_r; [exact HmdL|]. apply Forall_forall. by intros.
  - destruct (min_distances_to_pass (delete c fp) (concat (b0 :: prev')) b)
      as (mdP & HP & HmdP).
    { by apply Hprev. }
    { intros a q Ha Hq. apply Hclear; [done|]. apply elem_of_app. by right. }
    cbn [mbind result_bind]. rewrite HP. simpl. eexists. split; [done|].
    apply np_any_lt_pass.
    apply Forall_forall. intros m Hm.
    apply list_elem_of_lookup in Hm as [i Hi].
    apply lookup_zip_with_Some in Hi as (mL & mP & -> & HiL & HiP).
    destruct (Forall2_lookup_r _ _ _ _ _ HmdL HiL) as (a & _ & rL & -> & HrL).
    destruct (Forall2_lookup_r _ _ _ _ _ HmdP HiP) as (a' & _ & rP & -> & HrP).
    exists (Rmin rL rP). split; [done|]. by apply Rmin_glb.
Qed.

(** The rotation by the zero angles is the identity. *)
Lemma rotate_about_zero opt ps :
  vfinite opt -> Forall vfinite ps ->
  rotate_about opt (euler_matrix initial_angles) ps = ps.
Proof.
  intros (ox & oy & oz & ->)%vfinite_vnum Hps. unfold rotate_about.
  induction Hps as [|p ps Hp _ IH]; simpl; [done|]. f_equal; [|exact IH].
  apply vfinite_vnum in Hp as (x & y & z & ->).
  rewrite vsub_vnum.
  change (vnum (x - ox) (y - oy) (z - oz)) with (vec_of (x - ox, y - oy, z - oz)).
  unfold initial_angles. rewrite euler_apply. simpl.
  rewrite cos_0, sin_0, vadd_vnum. apply vnum_eq; ring.
Qed.

End Passing.

End Properties.

(** ** The worked example *)

Section Example.
Local Open Scope R_scope.

Lemma stationary_propagates : minimize_propagates (lib := stationary_scipy).
Proof.
  intros f x0 e. simpl. destruct (f x0) as [v|e'] eqn:Hf; simpl; [done|].
  intros [= <-]. eauto.
Qed.

Lemma mean_of_one x y z : np_mean_axis0 [vnum x y z] = vnum x y z.
Proof.
  unfold np_mean_axis0, np_sum, Fl.of_nat. simpl.
  destruct (Req_dec_T 1 0) as [H|_]; [lra|].
  apply vnum_eq; field.
Qed.

Lemma vnorm_unit x y z : x * x + y * y + z * z = 1 -> vnorm (vnum x y z) = Num 1.
Proof. intros H. rewrite vnorm_vnum, H. by rewrite sqrt_1. Qed.

Lemma not_tiny : Fl.ltb (Num 1) (Num 1e-10) = false.
Proof. simpl. destruct (Rlt_dec 1 1e-10); [lra|done]. Qed.

Lemma example_geometry_0 :
  site_geometry (map position example_ligand) 2 [0%Z]
  = Return ([vnum 0 0 1], vnum 0 0 1, vnum 0 0 1).
Proof.
  unfold site_geometry.
  change (take_rows (map position example_ligand) [0%Z]) with (Return [vnum 0 0 1]).
  cbn [mbind result_bind].
  change (List.filter _ (py_range 2)) with [1%Z].
  change (take_rows (map position example_ligand) [1%Z]) with (Return [vnum 0 0 0]).
  cbn [mbind result_bind]. rewrite !mean_of_one, vsub_vnum.
  rewrite vnorm_unit by lra. rewrite not_tiny.
  rewrite vdiv_vnum by lra. do 2 f_equal. apply vnum_eq; field.
Qed.

Lemma example_geometry_1 :
  site_geometry (map position example_ligand) 2 [1%Z]
  = Return ([vnum 0 0 0], vnum 0 0 0, vnum 0 0 (-1)).
Proof.
  unfold site_geometry.
  change (take_rows (map position example_ligand) [1%Z]) with (Return [vnum 0 0 0]).
  cbn [mbind result_bind].
  change (List.filter _ (py_range 2)) with [0%Z].
  change (take_rows (map position example_ligand) [0%Z]) with (Return [vnum 0 0 1]).
  cbn [mbind result_bind]. rewrite !mean_of_one, vsub_vnum.
  rewrite vnorm_unit by lra. rewrite not_tiny.
  rewrite vdiv_vnum by lra. do 2 f_equal. apply vnum_eq; field.
Qed.

(** On the example the seed of the position solver is a global minimum
    of its objective: the objective is a sum of squares and vanishes at
    the bond distance. *)
Lemma example_seed_is_optimal s :
  position_objective_function [vnum 0 0 1] (vnum 0 0 1) (vnum 0 0 1) (Num 2) (Num 2)
  = Num 0
  /\ exists v,
       position_objective_function [vnum 0 0 1] (vnum 0 0 1) (vnum 0 0 1) (Num 2) (Num s)
       = Num v /\ 0 <= v.
Proof.
  pose proof (position_objective_function_spec [(0, 0, 1)] (0, 0, 1) (0, 0, 1) 2)
    as Hspec.
  simpl in Hspec. split.
  - rewrite Hspec. f_equal.
    replace ((0 - (0 + 2 * 0)) * (0 - (0 + 2 * 0)) + (0 - (0 + 2 * 0)) * (0 - (0 + 2 * 0))
             + (1 - (1 + 2 * 1)) * (1 - (1 + 2 * 1))) with (2 * 2) by lra.
    rewrite sqrt_square by lra. lra.
  - rewrite Hspec. eexists. split; [done|].
    apply Rplus_le_le_0_compat; [|lra].
    apply Rle_0_sqr.
Qed.

Lemma example_optimal_0 :
  optimal_position_of (vnum 0 0 1) (vnum 0 0 1) (Num 2) = vnum 0 0 3.
Proof.
  unfold optimal_position_of. rewrite vscale_vnum, vadd_vnum. apply vnum_eq; lra.
Qed.

Lemma example_optimal_1 :
  optimal_position_of (vnum 0 0 0) (vnum 0 0 (-1)) (Num 2) = vnum 0 0 (-2).
Proof.
  unfold optimal_position_of. rewrite vscale_vnum, vadd_vnum. apply vnum_eq; lra.
Qed.

Lemma example_translate_0 :
  translate_to (map position example_cluster) 0 (vnum 0 0 3) = Return first_instance.
Proof.
  unfold translate_to, get_row, first_instance. simpl.
  repeat (f_equal; try (apply vnum_eq; lra)).
Qed.

Lemma example_translate_1 :
  translate_to (map position example_cluster) 0 (vnum 0 0 (-2)) = Return second_instance.
Proof.
  unfold translate_to, get_row, second_instance. simpl.
  repeat (f_equal; try (apply vnum_eq; lra)).
Qed.

Lemma first_instance_finite : Forall vfinite first_instance.
Proof. repeat constructor; apply vfinite_vnum; eauto. Qed.

Lemma second_instance_finite : Forall vfinite second_instance.
Proof. repeat constructor; apply vfinite_vnum; eauto. Qed.

(** With the seed-returning optimiser a site is placed unrotated, as soon
    as the translated template passes the validator. *)
Lemma stationary_place_site Lp Tp b prev site sp sc dir opt fp :
  site_geometry Lp (length Lp) site = Return (sp, sc, dir) ->
  optimal_position_of sc dir (Num b) = opt ->
  vfinite opt ->
  length Tp = 6%nat ->
  translate_to Tp 0 opt = Return fp ->
  Forall vfinite fp ->
  Lp <> [] ->
  (prev <> [] -> concat prev <> []) ->
  (forall a q, a ∈ delete 0%nat fp -> q ∈ Lp ++ concat prev -> clear_by b a q) ->
  exists md,
    place_site (lib := stationary_scipy) Lp Tp (Num b) prev site
    = Return (Plan sp sc dir (Num b) opt 0 fp initial_angles fp (delete 0%nat fp) md
                [CallMinimizeScalar (position_objective_function sp sc dir (Num b)) (Num b);
                 CallConvexHull Tp;
                 CallMinimizeAngles
                   (rotation_objective_function fp opt (length Tp) 0 Lp prev)
                   initial_angles]).
Proof.
  intros Hg Hopt Hoptfin HT Htr Hfp HLp Hprev Hclear.
  pose proof (translate_to_length _ _ _ _ Htr) as Hlen.
  destruct (clearances_pass 0%nat Lp prev fp b) as (md & Hcl & Hany);
    [lia|done|done|done|].
  rewrite Hlen in Hcl.
  exists md. unfold place_site.
  rewrite (site_plan_intro (lib := stationary_scipy) Lp Tp (Num b) prev site
             sp sc dir (Num b) opt bipyramid_facets 0 fp initial_angles fp
             (delete 0%nat fp) md); try done.
  - simpl. by rewrite Hany.
  - simpl. by rewrite HT.
  - simpl. unfold rotation_objective_function.
    rewrite rotate_about_zero by done. by rewrite Hcl.
  - by apply rotate_about_zero.
Qed.

Lemma example_place_0 :
  exists md,
    place_site (lib := stationary_scipy) (map position example_ligand)
      (map position example_cluster) (Num 2) [] [0%Z]
    = Return (example_plan_0 md).
Proof.
  apply stationary_place_site.
  - exact example_geometry_0.
  - exact example_optimal_0.
  - apply vfinite_vnum; eauto.
  - done.
  - exact example_translate_0.
  - exact first_instance_finite.
  - done.
  - done.
  - intros a q Ha Hq. simpl in Ha, Hq. members Ha; members Hq;
      (apply clear_by_vnum; lra).
Qed.

Lemma example_place_1 :
  exists md,
    place_site (lib := stationary_scipy) (map position example_ligand)
      (map position example_cluster) (Num 2) [delete 0%nat first_instance] [1%Z]
    = Return (example_plan_1 md).
Proof.
  apply stationary_place_site.
  - exact example_geometry_1.
  - exact example_optimal_1.
  - apply vfinite_vnum; eauto.
  - done.
  - exact example_translate_1.
  - exact second_instance_finite.
  - done.
  - done.
  - intros a q Ha Hq. simpl in Ha, Hq. members Ha; members Hq;
      (apply clear_by_vnum; lra).
Qed.

Lemma example_places :
  exists md0 md1,
    place_sites (lib := stationary_scipy) (map position example_ligand)
      (map position example_cluster) (Num 2) [] example_sites
    = Return [example_plan_0 md0; example_plan_1 md1].
Proof.
  destruct example_place_0 as [md0 H0]. destruct example_place_1 as [md1 H1].
  exists md0, md1. unfold example_sites. cbn [place_sites].
  rewrite H0. cbn [mbind result_bind example_plan_0 plan_metal_atoms app].
  rewrite H1. done.
Qed.

Lemma example_run :
  exists md0 md1 w',
    place_sites (lib := stationary_scipy) (map position example_ligand)
      (map position example_cluster) (Num 2) [] example_sites
    = Return [example_plan_0 md0; example_plan_1 md1]
    /\ ligand_metal_docking (lib := stationary_scipy) 0%nat 1%nat example_sites (Num 2)
         example_world = (Return 2%nat, w')
    /\ heap w' !! 2%nat = Some example_result
    /\ calls w' = plan_calls (example_plan_0 md0) ++ plan_calls (example_plan_1 md1).
Proof.
  destruct example_places as (md0 & md1 & Hps).
  exists md0, md1. eexists. split; [exact Hps|]. split.
  - by apply (ligand_metal_docking_placed (lib := stationary_scipy) 0%nat 1%nat
                example_sites (Num 2) example_ligand example_cluster example_world).
  - split; reflexivity.
Qed.

End Example.

Lemma example_result_finite : Forall (fun a => vfinite (position a)) example_result.
Proof. repeat constructor; apply vfinite_vnum; eauto. Qed.

Lemma mean_of_none : np_mean_axis0 [] = V3 NaN NaN NaN.
Proof.
  unfold np_mean_axis0, np_sum, Fl.of_nat, Fl.div. simpl.
  destruct (Req_dec_T 0 0) as [_|H]; [done|]. by destruct H.
Qed.

Lemma apex_is_near : ~ clear_by 2 (vnum 0 0 4) (vnum 0 0 3).
Proof.
  intros (d & Hd & Hle). unfold distance in Hd.
  rewrite vsub_vnum, vnorm_vnum in Hd. injection Hd as <-.
  assert (sqrt ((0 - 0) * (0 - 0) + (0 - 0) * (0 - 0) + (4 - 3) * (4 - 3)) < 2)%R.
  { apply sqrt_upper; lra. }
  lra.
Qed.

(** C1 as stated fails.  The call returns on the example, and atom 5 of
    the second instance, which is not its coordinating atom, lies at
    distance 1 from the coordinating atom of the first instance, the
    bond distance being 2: only the non-coordinating atoms of earlier
    instances are recorded for the validator (line 182). *)
Lemma earlier_coordinating_atom_is_not_checked :
  exists c w' S p0 p1 a a',
    ligand_metal_docking (lib := stationary_scipy) 0 1 example_sites (Num 2)
      example_world = (Return c, w')
    /\ heap w' !! c = Some S
    /\ Forall (fun x => vfinite (position x)) S
    /\ place_sites (lib := stationary_scipy) (map position example_ligand)
         (map position example_cluster) (Num 2) [] example_sites
       = Return [p0; p1]
    /\ a ∈ delete (plan_coordinating p1) (plan_final p1)
    /\ a' ∈ plan_final p0
    /\ plan_final p0 !! plan_coordinating p0 = Some a'
    /\ ~ clear_by 2 a a'.
Proof.
  destruct example_run as (md0 & md1 & w' & Hps & Hrun & HS & _).
  exists 2, w', example_result, (example_plan_0 md0), (example_plan_1 md1),
    (vnum 0 0 4), (vnum 0 0 3).
  split_and!; [done|done|apply example_result_finite|done| | |done|apply apex_is_near].
  - simpl. do 4 right. left.
  - simpl. left.
Qed.

(** The amended C1 on the example. *)
Lemma placed_instances_keep_clear_witness :
  exists plans,
    place_sites (lib := stationary_scipy) (map position example_ligand)
      (map position example_cluster) (Num 2) [] example_sites = Return plans
    /\ example_result = example_ligand ++ concat (map (instance_of example_cluster) plans)
    /\ forall k p a,
         plans !! k = Some p ->
         a ∈ delete (plan_coordinating p) (plan_final p) ->
         (forall q, q ∈ map position example_ligand -> clear_by 2 a q)
         /\ (forall j p' a',
               j < k -> plans !! j = Some p' ->
               a' ∈ delete (plan_coordinating p') (plan_final p') ->
               clear_by 2 a a').
Proof.
  destruct example_run as (md0 & md1 & w' & Hps & Hrun & HS & _).
  apply (placed_instances_keep_clear (lib := stationary_scipy) 0 1 example_sites 2
           example_ligand example_cluster example_world 2 w' example_result).
  - reflexivity.
  - reflexivity.
  - exact Hrun.
  - exact HS.
  - exact example_result_finite.
Defined.

(** C7 as stated fails.  An empty site on a one-atom ligand raises
    nothing, but its centroid is the mean of no row, NaN, and so is the
    direction: it is not a unit vector. *)
Lemma empty_site_direction_is_nan :
  site_geometry [vnum 0 0 0] 1 []
  = Return ([], V3 NaN NaN NaN, V3 NaN NaN NaN)
  /\ vnorm (V3 NaN NaN NaN) <> Num 1.
Proof.
  split; [|done].
  unfold site_geometry.
  change (take_rows [vnum 0 0 0] []) with (Return (@nil vec)).
  cbn [mbind result_bind].
  change (List.filter _ (py_range 1)) with [0%Z].
  change (take_rows [vnum 0 0 0] [0%Z]) with (Return [vnum 0 0 0]).
  cbn [mbind result_bind]. rewrite mean_of_none. done.
Qed.

(** The amended C7 on the first site of the example. *)
Lemma site_geometry_direction_witness :
  let Lp := map position example_ligand in
  let non_site :=
    List.filter (fun i => negb (py_in i [0%Z])) (py_range (length Lp)) in
  exists sp dir,
    site_geometry Lp (length Lp) [0%Z] = Return (sp, np_mean_axis0 sp, dir)
    /\ take_rows Lp [0%Z] = Return sp
    /\ (non_site = [] <-> forall i, i < length Lp -> Z.of_nat i ∈ [0%Z])
    /\ (non_site = [] -> dir = z_axis)
    /\ (non_site <> [] ->
        exists rest,
          take_rows Lp non_site = Return rest
          /\ let diff := vsub (np_mean_axis0 sp) (np_mean_axis0 rest) in
             (Fl.ltb (vnorm diff) (Num 1e-10) = true -> dir = z_axis)
             /\ (Fl.ltb (vnorm diff) (Num 1e-10) = false ->
                 dir = vdiv diff (vnorm diff))).
Proof.
  apply (site_geometry_direction (map position example_ligand) [0%Z]).
  repeat constructor; unfold numpy_valid; simpl; lia.
Defined.

(** C5 on the example. *)
Lemma zero_sites_returns_copy_witness :
  exists c w',
    ligand_metal_docking (lib := stationary_scipy) 0 1 [] (Num 2) example_world
    = (Return c, w')
    /\ c <> 0
    /\ heap w' !! c = Some example_ligand
    /\ heap w' !! 0 = Some example_ligand.
Proof.
  apply (zero_sites_returns_copy (lib := stationary_scipy) 0 1 (Num 2)
           example_ligand example_world).
  reflexivity.
Defined.

(** C8 on the example. *)
Lemma inputs_never_mutated_witness :
  let run := ligand_metal_docking (lib := stationary_scipy) 0 1 example_sites
               (Num 2) example_world in
  heap run.2 !! 0 = Some example_ligand
  /\ heap run.2 !! 1 = Some example_cluster
  /\ exists fresh, heap run.2 = heap example_world ++ fresh.
Proof.
  intros run.
  apply (inputs_never_mutated (lib := stationary_scipy) 0 1 example_sites (Num 2)
           example_ligand example_cluster example_world run.1 run.2).
  - reflexivity.
  - reflexivity.
  - apply surjective_pairing.
Defined.

(** C9 on the example: fourteen atoms, the second instance in the block
    that starts at atom 8. *)
Lemma combined_structure_layout_witness :
  exists w' plans S,
    ligand_metal_docking (lib := stationary_scipy) 0 1 example_sites (Num 2)
      example_world = (Return 2, w')
    /\ place_sites (lib := stationary_scipy) (map position example_ligand)
         (map position example_cluster) (Num 2) [] example_sites = Return plans
    /\ heap w' !! 2 = Some S
    /\ S = example_ligand ++ concat (map (instance_of example_cluster) plans)
    /\ length plans = length example_sites
    /\ length S = length example_ligand + length example_sites * length example_cluster
    /\ forall k p, plans !! k = Some p ->
         (exists site, example_sites !! k = Some site
            /\ place_site (lib := stationary_scipy) (map position example_ligand)
                 (map position example_cluster) (Num 2)
                 (map plan_metal_atoms (take k plans)) site = Return p)
         /\ map species (instance_of example_cluster p) = map species example_cluster
         /\ map position (instance_of example_cluster p) = plan_final p
         /\ take (length example_cluster)
              (drop (length example_ligand + k * length example_cluster) S)
            = instance_of example_cluster p.
Proof.
  destruct example_run as (md0 & md1 & w' & Hps & Hrun & HS & _).
  exists w'.
  destruct (combined_structure_layout (lib := stationary_scipy) 0 1 example_sites
              (Num 2) example_ligand example_cluster example_world 2 w')
    as (plans & S & H).
  - reflexivity.
  - reflexivity.
  - exact Hrun.
  - exists plans, S. split; [exact Hrun|exact H].
Defined.

Lemma clearances_total c Lp prev fp :
  c < length fp -> Lp <> [] -> (prev <> [] -> concat prev <> []) ->
  exists md, clearances (length fp) c Lp prev fp = Return (delete c fp, md).
Proof.
  intros Hc HLp Hprev. unfold clearances, np_delete.
  rewrite length_seq. apply Nat.ltb_lt in Hc. rewrite Hc. simpl.
  apply Nat.ltb_lt in Hc. rewrite take_rows_delete by done. simpl.
  destruct Lp as [|q Lp]; [done|]. cbn [min_distances_to mbind result_bind].
  destruct prev as [|b0 prev']; [eauto|].
  destruct (concat (b0 :: prev')) as [|o os] eqn:Hcat; [by destruct Hprev|].
  cbn [min_distances_to mbind result_bind]. eauto.
Qed.

(** ** A clash that no rotation avoids *)

Section Crowded.
Local Open Scope R_scope.

Lemma qhull_propagates : minimize_propagates (lib := qhull_scipy).
Proof.
  intros f x0 e. simpl. destruct (f x0) as [v|e'] eqn:Hf; simpl; [done|].
  intros [= <-]. eauto.
Qed.

Lemma qhull_rejects : qhull_rejects_degenerate (lib := qhull_scipy).
Proof.
  intros pts Hd. cbn [hull_simplices qhull_scipy].
  by destruct (excluded_middle_informative _).
Qed.

Lemma tetrahedron_full : ~ degenerate (map position tetrahedron).
Proof.
  intros [Hlen|[Hcol|Hcop]].
  - simpl in Hlen. lia.
  - destruct Hcol as (x0 & y0 & z0 & u & v & w & H). simpl in H.
    apply Forall_cons in H as [[t0 H0] H].
    apply Forall_cons in H as [[t1 H1] H].
    apply Forall_cons in H as [[t2 H2] _].
    unfold vnum in H0, H1, H2.
    injection H0 as H0x H0y _. injection H1 as H1x _ _. injection H2 as H2x H2y _.
    assert (Hu : (t2 - t0) * u = 0) by lra.
    assert (Hv : (t2 - t0) * v = 1) by lra.
    assert (Hw : (t1 - t0) * u = 1) by lra.
    apply Rmult_integral in Hu as [Hu|Hu].
    + rewrite Hu in Hv. lra.
    + rewrite Hu in Hw. lra.
  - destruct Hcop as (a & b & c & d & Hnz & H). simpl in H.
    apply Forall_cons in H as [(x0 & y0 & z0 & H0 & E0) H].
    apply Forall_cons in H as [(x1 & y1 & z1 & H1 & E1) H].
    apply Forall_cons in H as [(x2 & y2 & z2 & H2 & E2) H].
    apply Forall_cons in H as [(x3 & y3 & z3 & H3 & E3) _].
    unfold vnum in H0, H1, H2, H3.
    injection H0 as <- <- <-. injection H1 as <- <- <-.
    injection H2 as <- <- <-. injection H3 as <- <- <-.
    lra.
Qed.

Lemma qhull_tetrahedron :
  hull_simplices (SciPy := qhull_scipy) (map position tetrahedron)
  = Some tetrahedron_facets.
Proof.
  cbn [hull_simplices qhull_scipy].
  destruct (excluded_middle_informative _) as [H|_]; [|done].
  by apply tetrahedron_full in H.
Qed.

Lemma mean_of_two x y z x' y' z' :
  np_mean_axis0 [vnum x y z; vnum x' y' z']
  = vnum ((x + x') / 2) ((y + y') / 2) ((z + z') / 2).
Proof.
  unfold np_mean_axis0, np_sum, Fl.of_nat. simpl.
  destruct (Req_dec_T (1 + 1) 0) as [H|_]; [lra|].
  apply vnum_eq; field.
Qed.

Lemma crowded_geometry :
  site_geometry (map position crowded_ligand) 3 [0%Z]
  = Return ([vnum 0 0 0], vnum 0 0 0, vnum 0 0 1).
Proof.
  unfold site_geometry.
  change (take_rows (map position crowded_ligand) [0%Z]) with (Return [vnum 0 0 0]).
  cbn [mbind result_bind].
  change (List.filter _ (py_range 3)) with [1%Z; 2%Z].
  change (take_rows (map position crowded_ligand) [1%Z; 2%Z])
    with (Return [vnum 0 0 2; vnum 0 0 (-4)]).
  cbn [mbind result_bind]. rewrite mean_of_one, mean_of_two, vsub_vnum.
  rewrite vnorm_unit by lra. rewrite not_tiny.
  rewrite vdiv_vnum by lra. do 2 f_equal. apply vnum_eq; field.
Qed.

Lemma crowded_optimal :
  optimal_position_of (vnum 0 0 0) (vnum 0 0 1) (Num 2) = vnum 0 0 2.
Proof.
  unfold optimal_position_of. rewrite vscale_vnum, vadd_vnum. apply vnum_eq; lra.
Qed.

Lemma crowded_translate :
  translate_to (map position tetrahedron) 0 (vnum 0 0 2) = Return crowded_instance.
Proof.
  unfold translate_to, get_row, crowded_instance. simpl.
  repeat (f_equal; try (apply vnum_eq; lra)).
Qed.

Lemma crowded_instance_finite : Forall vfinite crowded_instance.
Proof. repeat constructor; apply vfinite_vnum; eauto. Qed.

(** Atom 1 of the instance is one unit from the ligand atom at the bond
    position, however the instance is turned about that position (as
    real geometry; the computed distance differs from 1 by rounding
    only, and the bond distance is 2). *)
Lemma crowded_at_every_angle a b c :
  exists q,
    rotate_about (vnum 0 0 2) (euler_matrix (vnum a b c)) crowded_instance !! 1%nat
    = Some q
    /\ distance q (vnum 0 0 2) 1.
Proof.
  exists (vadd (dot_transpose (vsub (vnum 1 0 2) (vnum 0 0 2))
                               (euler_matrix (vnum a b c)))
               (vnum 0 0 2)).
  split; [reflexivity|]. unfold distance.
  pose proof (rotate_preserves_distance a b c 0 0 2 1 0 2 0 0 2) as H.
  cbv zeta in H. rewrite rotate_fixes_centre in H. rewrite H.
  rewrite vsub_vnum, vnorm_vnum. f_equal.
  replace ((1 - 0) * (1 - 0) + (0 - 0) * (0 - 0) + (2 - 2) * (2 - 2)) with 1 by lra.
  apply sqrt_1.
Qed.

End Crowded.

(** The placement at the crowded site: the validator finds the atom. *)
Lemma crowded_site_plan :
  exists p,
    site_plan (lib := qhull_scipy) (map position crowded_ligand)
      (map position tetrahedron) (Num 2) [] [0%Z] = Return p
    /\ np_any_lt (plan_min_distances p) (Num 2) = true.
Proof.
  destruct (clearances_total 0 (map position crowded_ligand) [] crowded_instance)
    as [md Hcl]; [simpl; lia|done|done|].
  eexists. split.
  - apply (site_plan_intro (lib := qhull_scipy)
             (map position crowded_ligand) (map position tetrahedron) (Num 2)
             [] [0%Z]
             [vnum 0 0 0] (vnum 0 0 0) (vnum 0 0 1) (Num 2)
             (vnum 0 0 2) tetrahedron_facets 0 crowded_instance initial_angles
             crowded_instance (delete 0 crowded_instance) md).
    + exact crowded_geometry.
    + reflexivity.
    + exact crowded_optimal.
    + exact qhull_tetrahedron.
    + reflexivity.
    + exact crowded_translate.
    + cbn [lbfgsb_angles qhull_scipy]. unfold rotation_objective_function.
      rewrite rotate_about_zero;
        [|apply vfinite_vnum; eauto|exact crowded_instance_finite].
      change (length (map position tetrahedron)) with (length crowded_instance).
      by rewrite Hcl.
    + apply rotate_about_zero;
        [apply vfinite_vnum; eauto|exact crowded_instance_finite].
    + exact Hcl.
  - simpl.
    apply clearances_inv in Hcl as (_ & _ & mdL & HmdL & ->).
    assert (Hnm : Forall vfinite (delete 0 crowded_instance))
      by (repeat constructor; apply vfinite_vnum; eauto).
    assert (HLp : Forall vfinite (map position crowded_ligand))
      by (repeat constructor; apply vfinite_vnum; eauto).
    pose proof (min_distances_to_lower _ _ _ HmdL Hnm HLp) as HL2.
    assert (Hi : delete 0 crowded_instance !! 0%nat = Some (vnum 1 0 2)) by done.
    destruct (Forall2_lookup_l _ _ _ _ _ HL2 Hi) as (mL & HmL & rL & -> & HLall).
    unfold np_any_lt. apply existsb_exists. exists (Num rL). split.
    + apply list_elem_of_In. by eapply list_elem_of_lookup_2.
    + destruct (HLall (vnum 0 0 2)) as (d & Hd & Hle).
      { simpl. right. left. }
      unfold distance in Hd. rewrite vsub_vnum, vnorm_vnum in Hd.
      injection Hd as <-.
      assert (sqrt ((1 - 0) * (1 - 0) + (0 - 0) * (0 - 0) + (2 - 2) * (2 - 2)) < 2)%R
        by (apply sqrt_upper; lra).
      simpl. destruct (Rlt_dec rL 2); [done|lra].
Qed.

Lemma minimum_nan_r x : Fl.minimum x NaN = NaN.
Proof. by destruct x. Qed.

Lemma zip_minimum_nan (l : list fl) n :
  Forall (fun m => m = NaN) (zip_with Fl.minimum l (replicate n NaN)).
Proof.
  revert n. induction l as [|x l IH]; intros [|n]; simpl; try constructor.
  - apply minimum_nan_r.
  - apply IH.
Qed.

Lemma np_any_lt_nan md b :
  Forall (fun m => m = NaN) md -> np_any_lt md b = false.
Proof.
  induction 1 as [|m md -> _ IH]; [done|]. simpl. exact IH.
Qed.

Lemma empty_site_place :
  place_site (lib := stationary_scipy) (map position example_ligand)
    (map position example_cluster) (Num 2) [] []
  = Return (nan_plan).
Proof.
  unfold place_site.
  rewrite (site_plan_intro (lib := stationary_scipy)
             (map position example_ligand) (map position example_cluster) (Num 2)
             [] [] [] nan_vec nan_vec (Num 2) nan_vec bipyramid_facets 0
             (replicate 6 nan_vec) initial_angles (replicate 6 nan_vec)
             (replicate 5 nan_vec) (replicate 5 NaN)); try reflexivity.
  unfold site_geometry.
  change (take_rows (map position example_ligand) []) with (Return (@nil vec)).
  cbn [mbind result_bind]. rewrite mean_of_none.
  change (List.filter _ (py_range _)) with [0%Z; 1%Z].
  change (take_rows (map position example_ligand) [0%Z; 1%Z])
    with (Return [vnum 0 0 1; vnum 0 0 0]).
  reflexivity.
Qed.

Lemma after_nan_place :
  exists md,
    place_site (lib := stationary_scipy) (map position example_ligand)
      (map position example_cluster) (Num 2) [replicate 5 nan_vec] [0%Z]
    = Return (example_plan_after_nan md).
Proof.
  destruct (clearances_total 0 (map position example_ligand)
              [replicate 5 nan_vec] first_instance) as [md Hcl];
    [simpl; lia|done|done|].
  exists md.
  assert (Hmd : Forall (fun m => m = NaN) md).
  { pose proof Hcl as Hinv.
    apply clearances_inv in Hinv as (_ & _ & mdL & _ & mdP & HmdP & ->).
    injection HmdP as <-. apply (zip_minimum_nan mdL 5). }
  unfold place_site.
  rewrite (site_plan_intro (lib := stationary_scipy)
             (map position example_ligand) (map position example_cluster) (Num 2)
             [replicate 5 nan_vec] [0%Z]
             [vnum 0 0 1] (vnum 0 0 1) (vnum 0 0 1) (Num 2)
             (vnum 0 0 3) bipyramid_facets 0 first_instance initial_angles
             first_instance (delete 0 first_instance) md).
  - cbn [mbind result_bind plan_min_distances example_plan_after_nan].
    by rewrite (np_any_lt_nan _ _ Hmd).
  - exact example_geometry_0.
  - reflexivity.
  - exact example_optimal_0.
  - reflexivity.
  - reflexivity.
  - exact example_translate_0.
  - cbn [lbfgsb_angles stationary_scipy]. unfold rotation_objective_function.
    rewrite rotate_about_zero;
      [|apply vfinite_vnum; eauto|exact first_instance_finite].
    change (length (map position example_cluster)) with (length first_instance).
    by rewrite Hcl.
  - apply rotate_about_zero; [apply vfinite_vnum; eauto|exact first_instance_finite].
  - exact Hcl.
Qed.

(** The restriction of the amended C1 to results without NaN is needed:
    an empty site is placed at NaN, and from then on the validator, whose
    comparisons with NaN are all false, passes; the distance from a later
    atom to the atoms of that instance is not a number. *)
Lemma nan_positions_pass_the_validator :
  exists c w' p0 p1 a a',
    ligand_metal_docking (lib := stationary_scipy) 0 1 [[]; [0%Z]] (Num 2)
      example_world = (Return c, w')
    /\ place_sites (lib := stationary_scipy) (map position example_ligand)
         (map position example_cluster) (Num 2) [] [[]; [0%Z]]
       = Return [p0; p1]
    /\ a ∈ delete (plan_coordinating p1) (plan_final p1)
    /\ a' ∈ delete (plan_coordinating p0) (plan_final p0)
    /\ ~ clear_by 2 a a'.
Proof.
  destruct after_nan_place as [md H1].
  assert (Hps : place_sites (lib := stationary_scipy) (map position example_ligand)
                  (map position example_cluster) (Num 2) [] [[]; [0%Z]]
                = Return [nan_plan; example_plan_after_nan md]).
  { cbn [place_sites]. rewrite empty_site_place.
    cbn [mbind result_bind nan_plan plan_metal_atoms app]. by rewrite H1. }
  eexists _, _, nan_plan, (example_plan_after_nan md), (vnum 4 0 4), nan_vec.
  split_and!.
  - by apply (ligand_metal_docking_placed (lib := stationary_scipy) 0 1
                [[]; [0%Z]] (Num 2) example_ligand example_cluster example_world).
  - exact Hps.
  - simpl. left.
  - simpl. left.
  - intros (d & Hd & _). discriminate Hd.
Qed.


(** C2 on the crowded site: a ligand atom sits at the bond position, one
    unit from an atom of the tetrahedron, and the call raises the
    steric-clash error. *)
Lemma steric_clash_iff_witness :
  (ligand_metal_docking (lib := qhull_scipy) 0 1 [[0%Z]] (Num 2)
     crowded_world).1 = Raise StericClash.
Proof.
  destruct (steric_clash_iff (lib := qhull_scipy) 0 1 [[0%Z]] (Num 2)
              crowded_ligand tetrahedron crowded_world)
    as [Hiff _].
  - exact qhull_propagates.
  - reflexivity.
  - reflexivity.
  - apply Hiff.
    destruct crowded_site_plan as (p & Hp & Hclash).
    exists [], [0%Z], [], [], p.
    split_and!; [done|done|exact Hp| |].
    + by apply site_plan_inv in Hp as (? & _ & _ & _ & _ & _ & _ & _ & ? & _).
    + by apply (validator_trips (lib := qhull_scipy) _ _ _ _ _ _ Hp).
Defined.




(** C6 on the example. *)
Lemma optimisations_once_per_site_witness :
  exists w' plans,
    ligand_metal_docking (lib := stationary_scipy) 0 1 example_sites (Num 2)
      example_world = (Return 2, w')
    /\ place_sites (lib := stationary_scipy) (map position example_ligand)
         (map position example_cluster) (Num 2) [] example_sites = Return plans
    /\ length plans = length example_sites
    /\ calls w' = calls example_world ++ concat (map plan_calls plans)
    /\ forall k p, plans !! k = Some p ->
         plan_calls p
         = [CallMinimizeScalar
              (position_objective_function (plan_site_positions p)
                 (plan_site_centroid p) (plan_direction p) (Num 2)) (Num 2);
            CallConvexHull (map position example_cluster);
            CallMinimizeAngles
              (rotation_objective_function (plan_translated p)
                 (plan_optimal_position p)
                 (length (map position example_cluster)) (plan_coordinating p)
                 (map position example_ligand)
                 (map plan_metal_atoms (take k plans)))
              initial_angles].
Proof.
  destruct example_run as (md0 & md1 & w' & _ & Hrun & _).
  destruct (optimisations_once_per_site (lib := stationary_scipy) 0 1 example_sites
              (Num 2) example_ligand example_cluster example_world)
    as (_ & _ & H).
  - reflexivity.
  - reflexivity.
  - destruct (H 2 w' Hrun) as (plans & Hplans).
    exists w', plans. split; [exact Hrun|exact Hplans].
Defined.

(** C10 as stated fails.  With the planar three-atom template and a
    library that raises on such input, a site whose index is out of
    range makes the call raise [IndexError] at line 38: the hull is never
    asked for. *)
Lemma invalid_site_fails_before_the_hull :
  degenerate (map position flat_cluster)
  /\ qhull_rejects_degenerate (lib := qhull_scipy)
  /\ ligand_metal_docking (lib := qhull_scipy) 0 1 [[5%Z]] (Num 2) flat_world
     = (Raise IndexError, World (heap flat_world ++ [example_ligand]) []).
Proof.
  split_and!.
  - left. simpl. lia.
  - exact qhull_rejects.
  - reflexivity.
Qed.

(** The amended C10 on the planar three-atom template. *)
Lemma degenerate_template_fails_witness :
  (exists f,
     ligand_metal_docking (lib := qhull_scipy) 0 1 [[0%Z]] (Num 2) flat_world
     = (Raise HullError,
        World (heap flat_world ++ [example_ligand])
          (calls flat_world
             ++ [CallMinimizeScalar f (Num 2);
                 CallConvexHull (map position flat_cluster)])))
  /\ (forall c w',
        ligand_metal_docking (lib := qhull_scipy) 0 1 [[0%Z]] (Num 2) flat_world
        <> (Return c, w')).
Proof.
  destruct (degenerate_template_fails (lib := qhull_scipy) 0 1 [0%Z] [] (Num 2)
              example_ligand flat_cluster flat_world)
    as [Hfail Hnever].
  - exact qhull_rejects.
  - reflexivity.
  - reflexivity.
  - left. simpl. lia.
  - split; [|exact Hnever]. apply Hfail.
    repeat constructor; unfold numpy_valid; simpl; lia.
Defined.

(** ** Further properties of the call *)

Section Further.
Context {lib : SciPy}.


(** *** Sites in sequence *)

Lemma for_each_app {A S : Type} (body : S -> A -> M S) (l1 l2 : list A) :
  forall s w,
  for_each body s (l1 ++ l2) w
  = match for_each body s l1 w with
    | (Return s', w') => for_each body s' l2 w'
    | (Raise e, w') => (Raise e, w')
    end.
Proof.
  induction l1 as [|x l1 IH]; intros s w; simpl; [done|].
  rewrite !run_bind. destruct (body s x w) as [[s'|e] w1]; [|done]. apply IH.
Qed.

Lemma ligand_metal_docking_loop ligand metal_center sites bd w :
  ligand_metal_docking ligand metal_center sites bd w
  = match heap w !! ligand with
    | None => (Raise AttributeError, w)
    | Some L =>
        match for_each (site_body ligand metal_center (length (heap w))
                          (map position L) bd) [] sites (world_copied L w) with
        | (Return _, w') => (Return (length (heap w)), w')
        | (Raise e, w') => (Raise e, w')
        end
    end.
Proof.
  destruct (heap w !! ligand) as [L|] eqn:HL.
  - by apply ligand_metal_docking_eq.
  - unfold ligand_metal_docking. rewrite run_bind.
    unfold Atoms_copy, with_object. by rewrite HL.
Qed.

(** A call that raises raises the same exception, in the same state,
    whatever sites follow: the sites after a failure are never looked at. *)
Theorem failure_ignores_later_sites ligand metal_center pre post bd w e w' :
  ligand_metal_docking ligand metal_center pre bd w = (Raise e, w') ->
  ligand_metal_docking ligand metal_center (pre ++ post) bd w = (Raise e, w').
Proof.
  rewrite !ligand_metal_docking_loop.
  destruct (heap w !! ligand) as [L|]; [|done].
  rewrite for_each_app.
  destruct (for_each _ [] pre _) as [[prev|e'] w1]; [done|].
  by intros [= <- <-].
Qed.

(** The sites before a returning call's last sites are placed as in a
    call on these sites alone: the structure returned for [pre] starts
    the structure returned for [pre ++ post]. *)
Theorem earlier_sites_ignore_later_ones ligand metal_center pre post bd L T w c w' S :
  heap w !! ligand = Some L ->
  heap w !! metal_center = Some T ->
  ligand_metal_docking ligand metal_center (pre ++ post) bd w = (Return c, w') ->
  heap w' !! c = Some S ->
  exists w1 S1 rest,
    ligand_metal_docking ligand metal_center pre bd w = (Return c, w1)
    /\ heap w1 !! c = Some S1
    /\ S = S1 ++ rest
    /\ length S1 = length L + length pre * length T
    /\ length rest = length post * length T.
Proof.
  intros HL HT Hrun HS.
  eapply ligand_metal_docking_outcome in Hrun; [|done..].
  destruct Hrun as [(plans & Hps & [= ->] & ->)|(? & ? & ? & ? & ? & _ & _ & [=] & _)].
  rewrite place_sites_app in Hps.
  destruct (place_sites _ _ _ [] pre) as [ps|e] eqn:Hpre; simpl in Hps; [|done].
  destruct (place_sites _ _ _ _ post) as [ps'|e] eqn:Hpost; simpl in Hps; [|done].
  injection Hps as <-.
  simpl in HS. unfold heap_after in HS.
  rewrite lookup_app_r in HS by lia. rewrite Nat.sub_diag in HS. simpl in HS.
  injection HS as <-.
  eexists _, (L ++ concat (map (instance_of T) ps)),
    (concat (map (instance_of T) ps')).
  split_and!.
  - by eapply ligand_metal_docking_placed.
  - simpl. unfold heap_after. rewrite lookup_app_r by lia.
    by rewrite Nat.sub_diag.
  - by rewrite map_app, concat_app, app_assoc.
  - rewrite length_app, (concat_blocks_length (length T)).
    + rewrite length_map. by rewrite (place_sites_length _ _ _ _ _ _ Hpre).
    + by eapply instances_length.
  - rewrite (concat_blocks_length (length T)).
    + rewrite length_map. by rewrite (place_sites_length _ _ _ _ _ _ Hpost).
    + by eapply instances_length.
Qed.

(** *** The exceptions of a call *)

Lemma place_site_raise Lp Tp bd prev site e :
  minimize_propagates ->
  place_site Lp Tp bd prev site = Raise e -> benign e \/ e = StericClash.
Proof.
  intros Hmin. unfold place_site.
  destruct (site_plan _ _ _ _ _) as [p|e'] eqn:Hp; simpl.
  - destruct (np_any_lt _ _); [|done]. intros [= <-]. by right.
  - intros [= <-]. left. by eapply site_plan_raise.
Qed.

(** With both objects in place, a call raises nothing but an index
    error, the zero-size error of [np.min], the error of the hull, or the
    steric clash error. *)
Theorem exceptions_of_a_call ligand metal_center sites bd L T w e w' :
  minimize_propagates ->
  heap w !! ligand = Some L ->
  heap w !! metal_center = Some T ->
  ligand_metal_docking ligand metal_center sites bd w = (Raise e, w') ->
  e = IndexError \/ e = ValueError zero_size_message \/ e = HullError
  \/ e = StericClash.
Proof.
  intros Hmin HL HT Hrun.
  eapply ligand_metal_docking_outcome in Hrun; [|done..].
  destruct Hrun as [(? & _ & [=] & _)|(pre & s & post & plans & e' & _ & _ & [= <-] & Hres)].
  apply site_body_resolved_Raise in Hres.
  apply place_site_raise in Hres as [[?|[?|?]]|?]; auto.
Qed.

Lemma np_index_Return n i j : np_index n i = Return j -> numpy_valid n i.
Proof.
  unfold np_index, numpy_valid.
  destruct (Z.leb_spec 0 i), (Z.ltb_spec i (Z.of_nat n)); simpl; try (intros; lia).
  all: destruct (Z.leb_spec (- Z.of_nat n) i), (Z.ltb_spec i 0); simpl;
    intros; try lia; try done.
Qed.

Lemma take_rows_invalid {A} (a : list A) idx :
  Exists (fun i => ~ numpy_valid (length a) i) idx ->
  exists e, take_rows a idx = Raise e.
Proof.
  induction idx as [|i idx IH]; intros Hex; [by apply Exists_nil in Hex|].
  simpl. destruct (np_index (length a) i) as [j|e] eqn:Hi; simpl; [|eauto].
  destruct (a !! j) as [x|]; [|eauto].
  apply Exists_cons in Hex as [Hbad|Hex].
  - exfalso. apply Hbad. by eapply np_index_Return.
  - destruct (IH Hex) as [e ->]. simpl. eauto.
Qed.

(** A site with an index outside [-len(ligand), len(ligand)) raises
    [IndexError] as soon as it is reached, before any library call is
    made for it: the state is the one the earlier sites left. *)
Theorem invalid_index_raises ligand metal_center pre site post bd L T w plans :
  heap w !! ligand = Some L ->
  heap w !! metal_center = Some T ->
  place_sites (map position L) (map position T) bd [] pre = Return plans ->
  Exists (fun i => ~ numpy_valid (length L) i) site ->
  ligand_metal_docking ligand metal_center (pre ++ site :: post) bd w
  = (Raise IndexError,
     World (heap_after L T plans (heap w))
           (calls w ++ concat (map plan_calls plans))).
Proof.
  intros HL HT Hps Hbad.
  rewrite (ligand_metal_docking_eq _ _ _ _ L) by done.
  rewrite for_each_app.
  pose proof (objects_copied _ _ _ _ _ HL HT) as Hobj.
  erewrite for_each_placed; [|exact Hobj|exact Hps].
  simpl. rewrite run_bind.
  assert (Hobj' : objects ligand metal_center (length (heap w)) L T
            (L ++ concat (map (instance_of T) plans))
            (world_after (length (heap w)) L T plans (world_copied L w))).
  { clear Hps. destruct Hobj as (H1 & H2 & H3 & H4 & H5).
    unfold objects, world_after. simpl.
    assert (ligand < length (heap w)) by (eapply lookup_lt_Some; eauto).
    assert (metal_center < length (heap w)) by (eapply lookup_lt_Some; eauto).
    rewrite !list_lookup_insert_ne by lia.
    rewrite <- !app_assoc. rewrite !lookup_app_l by done.
    rewrite list_lookup_insert_eq by (rewrite !length_app; simpl; lia).
    done. }
  destruct Hobj' as (H1 & H2 & H3 & _).
  rewrite (site_body_eq _ _ _ L T _) by done.
  unfold site_body_resolved.
  rewrite <- (length_map position L) in Hbad.
  destruct (take_rows_invalid _ _ Hbad) as [e He].
  assert (Hg : site_geometry (map position L) (length L) site = Raise IndexError).
  { unfold site_geometry. rewrite He. simpl. f_equal.
    by apply take_rows_raise in He. }
  rewrite Hg. by rewrite world_after_copied.
Qed.

(** On an empty ligand no call with a site returns: a non-empty site
    raises [IndexError], and an empty one cannot pass [np.min] over no
    ligand atom; the exception is never the steric clash error. *)
Theorem empty_ligand_never_returns ligand metal_center site sites bd T w r w' :
  minimize_propagates ->
  heap w !! ligand = Some [] ->
  heap w !! metal_center = Some T ->
  ligand_metal_docking ligand metal_center (site :: sites) bd w = (r, w') ->
  exists e, r = Raise e /\ e <> StericClash /\ (site <> [] -> e = IndexError).
Proof.
  intros Hmin HL HT Hrun.
  pose proof (ligand_metal_docking_fst _ _ (site :: sites) bd _ _ _ HL HT) as Hfst.
  rewrite Hrun in Hfst. simpl in Hfst.
  destruct (place_site [] (map position T) bd [] site) as [p|e] eqn:Hp.
  - exfalso. apply place_site_inv in Hp as [Hp _].
    apply site_plan_inv in Hp as (s & _ & _ & _ & _ & _ & _ & _ & _ & Hcl & _).
    revert Hcl. unfold clearances.
    destruct (np_delete _ _) as [idx|?]; simpl; [|done].
    destruct (take_rows _ _) as [rows|?]; simpl; done.
  - simpl in Hfst. exists e. split; [done|].
    assert (Hsite : site_plan [] (map position T) bd [] site = Raise e).
    { revert Hp. unfold place_site.
      destruct (site_plan _ _ _ _ _) as [p|e'] eqn:Hsp; simpl; [|done].
      exfalso.
      apply site_plan_inv in Hsp as (s & _ & _ & _ & _ & _ & _ & _ & _ & Hcl & _).
      revert Hcl. unfold clearances.
      destruct (np_delete _ _) as [idx|?]; simpl; [|done].
      destruct (take_rows _ _) as [rows|?]; simpl; done. }
    split.
    + apply benign_not_steric. by eapply site_plan_raise.
    + intros Hne.
      assert (Hg : site_geometry [] (length (@nil vec)) site = Raise IndexError).
      { destruct (take_rows_invalid (@nil vec) site) as [e0 He0].
        - destruct site as [|i site']; [done|]. left.
          unfold numpy_valid. simpl. lia.
        - unfold site_geometry. rewrite He0. simpl. f_equal.
          by apply take_rows_raise in He0. }
      revert Hsite. unfold site_plan. rewrite Hg. simpl. by intros [= <-].
Qed.

(** *** Well-formed calls *)

Lemma concat_nonempty {A} (ls : list (list A)) :
  Forall (fun l => l <> []) ls -> ls <> [] -> concat ls <> [].
Proof.
  intros Hall Hne. destruct ls as [|l ls]; [done|].
  apply Forall_cons in Hall as [Hl _]. simpl. by destruct l.
Qed.

Lemma site_plan_total Lp Tp bd prev site simplices :
  minimize_propagates ->
  Lp <> [] ->
  Forall (numpy_valid (length Lp)) site ->
  hull_simplices Tp = Some simplices ->
  concat simplices <> [] ->
  Forall (fun i => i < length Tp) (concat simplices) ->
  2 <= length Tp ->
  Forall (fun l => l <> []) prev ->
  exists p, site_plan Lp Tp bd prev site = Return p /\ plan_metal_atoms p <> [].
Proof.
  intros Hmin HLp Hsite Hh Hne Hrange HT Hprev.
  destruct (site_geometry_valid _ _ Hsite) as (sp & sc & dir & Hg).
  destruct (coordinating_atom_index_of_total _ Hne) as [c Hc].
  assert (Hclt : c < length Tp).
  { destruct (coordinating_atom_index_of_spec _ _ Hc) as [Hin _].
    by apply (proj1 (Forall_forall _ _) Hrange). }
  set (opt := optimal_position_of sc dir
                (lbfgsb_scalar (position_objective_function sp sc dir bd) bd)).
  destruct (lookup_lt_is_Some_2 Tp c Hclt) as [pc Hpc].
  assert (Htr : translate_to Tp c opt
                = Return (map (fun q => vadd q (vsub opt pc)) Tp)).
  { unfold translate_to, get_row. by rewrite Hpc. }
  set (mcp := map (fun q => vadd q (vsub opt pc)) Tp) in *.
  assert (Hmcp : length mcp = length Tp) by (unfold mcp; by rewrite length_map).
  assert (Hcat : prev <> [] -> concat prev <> []) by by apply concat_nonempty.
  assert (Htotal : forall ang, exists md,
            clearances (length Tp) c Lp prev (rotate_about opt (euler_matrix ang) mcp)
            = Return (delete c (rotate_about opt (euler_matrix ang) mcp), md)).
  { intros ang.
    rewrite <- Hmcp, <- (rotate_about_length opt (euler_matrix ang) mcp).
    apply clearances_total; [|done|done].
    rewrite rotate_about_length. lia. }
  destruct (lbfgsb_angles (rotation_objective_function mcp opt (length Tp) c Lp prev)
              initial_angles) as [ang|e] eqn:Hang.
  2:{ exfalso. apply Hmin in Hang as [x Hx].
      unfold rotation_objective_function in Hx.
      destruct (Htotal x) as [md Hmd]. by rewrite Hmd in Hx. }
  destruct (Htotal ang) as [md Hmd].
  eexists. split.
  - eapply site_plan_intro; eauto.
  - simpl. intros Hnil. apply (f_equal length) in Hnil.
    rewrite length_delete in Hnil.
    + rewrite rotate_about_length in Hnil. simpl in Hnil. lia.
    + apply lookup_lt_is_Some_2. rewrite rotate_about_length. lia.
Qed.

Lemma place_sites_total Lp Tp bd sites simplices :
  minimize_propagates ->
  Lp <> [] ->
  Forall (Forall (numpy_valid (length Lp))) sites ->
  hull_simplices Tp = Some simplices ->
  concat simplices <> [] ->
  Forall (fun i => i < length Tp) (concat simplices) ->
  2 <= length Tp ->
  forall prev, Forall (fun l => l <> []) prev ->
  (exists plans, place_sites Lp Tp bd prev sites = Return plans)
  \/ place_sites Lp Tp bd prev sites = Raise StericClash.
Proof.
  intros Hmin HLp Hsites Hh Hne Hrange HT.
  induction Hsites as [|site sites Hsite _ IH]; intros prev Hprev; simpl.
  - left. eauto.
  - destruct (site_plan_total Lp Tp bd prev site simplices) as (p & Hp & Hnm);
      try done.
    unfold place_site. rewrite Hp. simpl.
    destruct (np_any_lt _ _); simpl; [by right|].
    destruct (IH (prev ++ [plan_metal_atoms p])) as [[plans ->]| ->].
    + apply Forall_app. split; [done|]. by constructor.
    + left. simpl. eauto.
    + by right.
Qed.

(** With a non-empty ligand, site indices NumPy accepts, and a template
    of at least two atoms whose hull exists (its facets naming atoms of
    the template), a call returns a structure or raises the steric clash
    error: nothing else can go wrong. *)
Theorem well_formed_call_returns_or_clashes
    ligand metal_center sites bd L T w simplices r w' :
  minimize_propagates ->
  heap w !! ligand = Some L ->
  heap w !! metal_center = Some T ->
  L <> [] ->
  Forall (Forall (numpy_valid (length L))) sites ->
  hull_simplices (map position T) = Some simplices ->
  concat simplices <> [] ->
  Forall (fun i => i < length T) (concat simplices) ->
  2 <= length T ->
  ligand_metal_docking ligand metal_center sites bd w = (r, w') ->
  r = Return (length (heap w)) \/ r = Raise StericClash.
Proof.
  intros Hmin HL HT HLne Hsites Hh Hne Hrange H2 Hrun.
  pose proof (ligand_metal_docking_fst _ _ sites bd _ _ _ HL HT) as Hfst.
  rewrite Hrun in Hfst. simpl in Hfst.
  destruct (place_sites_total (map position L) (map position T) bd sites simplices)
    with (prev := @nil (list vec)) as [[plans Hps]|Hps]; try done.
  - by destruct L.
  - by rewrite length_map.
  - by rewrite length_map.
  - by rewrite length_map.
  - left. by rewrite Hps in Hfst.
  - right. by rewrite Hps in Hfst.
Qed.

(** *** Negative indices *)

Lemma take_rows_shift {A} (a : list A) idx :
  Forall (fun i => (- Z.of_nat (length a) <= i < 0)%Z) idx ->
  take_rows a idx = take_rows a (map (fun i => (i + Z.of_nat (length a))%Z) idx).
Proof.
  induction 1 as [|i idx Hi _ IH]; simpl; [done|].
  rewrite IH. f_equal.
  unfold np_index.
  destruct (Z.leb_spec 0 i); [lia|]. simpl.
  destruct (Z.leb_spec (- Z.of_nat (length a)) i); [|lia].
  destruct (Z.ltb_spec i 0); [|lia]. simpl.
  destruct (Z.leb_spec 0 (i + Z.of_nat (length a))); [|lia].
  destruct (Z.ltb_spec (i + Z.of_nat (length a)) (Z.of_nat (length a))); [|lia].
  done.
Qed.

Lemma filter_all {A} (f : A -> bool) (l : list A) :
  (forall x, In x l -> f x = true) -> List.filter f l = l.
Proof.
  induction l as [|x l IH]; intros H; simpl; [done|].
  rewrite (H x) by (by left). f_equal. apply IH. intros y Hy. apply H. by right.
Qed.

(** A site given by negative indices selects the site atoms NumPy's
    wrap-around designates, but the test [i not in site_indices] compares
    the raw indices: every ligand atom, the site atoms included, counts
    as outside the site, and the direction is taken against the centroid
    of the whole ligand. *)
Theorem negative_indices_wrap Lp site :
  site <> [] ->
  Forall (fun i => (- Z.of_nat (length Lp) <= i < 0)%Z) site ->
  exists sp,
    take_rows Lp (map (fun i => (i + Z.of_nat (length Lp))%Z) site) = Return sp
    /\ site_geometry Lp (length Lp) site
       = Return (sp, np_mean_axis0 sp,
                 let d := vsub (np_mean_axis0 sp) (np_mean_axis0 Lp) in
                 if Fl.ltb (vnorm d) (Num 1e-10) then z_axis else vdiv d (vnorm d)).
Proof.
  intros Hne Hneg.
  assert (Hvalid : Forall (numpy_valid (length Lp)) site).
  { eapply Forall_impl; [exact Hneg|]. unfold numpy_valid. intros; simpl in *; lia. }
  destruct (take_rows_valid Lp site Hvalid) as (sp & Hsp & _).
  exists sp. split; [by rewrite <- take_rows_shift|].
  unfold site_geometry. rewrite Hsp. simpl.
  rewrite filter_all.
  2:{ intros i Hi. unfold py_range in Hi. apply in_map_iff in Hi as (k & <- & Hk).
      destruct (py_in (Z.of_nat k) site) eqn:Hin; [|done].
      apply py_in_spec in Hin.
      pose proof (proj1 (Forall_forall _ _) Hneg _ Hin). simpl in *. lia. }
  assert (Hn : 0 < length Lp).
  { destruct site as [|i ?]; [done|]. apply Forall_cons in Hneg as [Hi _]. lia. }
  assert (Hall : take_rows Lp (py_range (length Lp)) = Return Lp).
  { unfold py_range. rewrite (take_rows_seq Lp (length Lp) 0) by lia.
    by rewrite drop_0, firstn_all. }
  destruct (py_range (length Lp)) as [|z l] eqn:Hr.
  { unfold py_range in Hr. destruct (length Lp); [lia|done]. }
  cbn [mbind result_bind]. rewrite Hall. done.
Qed.

(** *** The objective of the position solver *)

Section PositionObjective.
Local Open Scope R_scope.

Lemma sum_not_negative (l : list fl) :
  Forall (fun t => forall r, t = Num r -> 0 <= r) l ->
  forall acc, (forall r, acc = Num r -> 0 <= r) ->
  forall r, fold_left Fl.add l acc = Num r -> 0 <= r.
Proof.
  induction 1 as [|t l Ht _ IH]; intros acc Hacc r; simpl; [by apply Hacc|].
  apply IH. intros s. destruct acc as [a|], t as [x|]; simpl; try done.
  intros [= <-]. specialize (Hacc a eq_refl). specialize (Ht x eq_refl). lra.
Qed.

Lemma sum_of_zeros (l : list fl) :
  Forall (fun t => exists x, t = Num x /\ x = 0) l ->
  forall a, a = 0 -> fold_left Fl.add l (Num a) = Num 0.
Proof.
  induction 1 as [|t l (x & -> & ->) _ IH]; intros a ->; simpl; [done|].
  apply IH. lra.
Qed.

(** The objective the position solver minimises never compares below
    zero, whatever its arguments; it is zero at every scale factor for
    which the computed distance of every site atom to the proposed
    position [site_centroid + scale_factor * direction_vector] is the
    bond distance. *)
Theorem position_objective_is_never_negative
    site_positions site_centroid direction_vector bond_distance scale_factor :
  Fl.ltb (position_objective_function site_positions site_centroid
            direction_vector bond_distance scale_factor) (Num 0) = false
  /\ (forall b,
        bond_distance = Num b ->
        Forall (fun p =>
                  vnorm (vsub p (optimal_position_of site_centroid direction_vector
                                   scale_factor)) = Num b)
               site_positions ->
        position_objective_function site_positions site_centroid direction_vector
          bond_distance scale_factor = Num 0).
Proof.
  unfold position_objective_function, optimal_position_of, np_sum. split.
  - match goal with |- Fl.ltb ?v _ = false => destruct v as [r|] eqn:Hv end;
      [|done].
    apply sum_not_negative in Hv.
    + simpl. destruct (Rlt_dec r 0); [lra|done].
    + rewrite map_map. apply Forall_map, Forall_forall. intros p _ s. simpl.
      destruct (Fl.sub _ _) as [e|]; simpl; [|done].
      intros [= <-]. nra.
    + intros s [= <-]. lra.
  - intros b -> Hall. rewrite map_map. apply sum_of_zeros; [|done].
    apply Forall_map. eapply Forall_impl; [exact Hall|].
    intros p Hp. simpl. rewrite Hp. simpl. eexists. split; [done|]. ring.
Qed.

End PositionObjective.

(** *** The validator and the sign of the bond distance *)

Section Sign.
Local Open Scope R_scope.

Lemma vnorm_not_below v b : b <= 0 -> forall r, vnorm v = Num r -> b <= r.
Proof.
  intros Hb r. unfold vnorm.
  destruct (Fl.add _ _) as [x|]; simpl; [|done].
  destruct (Rlt_dec x 0); [done|]. intros [= <-].
  pose proof (sqrt_pos x). lra.
Qed.

Lemma fold_minimum_not_below b (ds : list fl) :
  Forall (fun d => forall r, d = Num r -> b <= r) ds ->
  forall d0, (forall r, d0 = Num r -> b <= r) ->
  forall r, fold_left Fl.minimum ds d0 = Num r -> b <= r.
Proof.
  induction 1 as [|d ds Hd _ IH]; intros d0 H0 r; simpl; [by apply H0|].
  apply IH. intros m. destruct d0 as [x|], d as [y|]; simpl; try done.
  intros [= <-]. apply Rmin_glb; [by apply H0|by apply Hd].
Qed.

Lemma min_distances_to_not_below b atoms others md :
  b <= 0 ->
  min_distances_to atoms others = Return md ->
  Forall (fun d => forall r, d = Num r -> b <= r) md.
Proof.
  intros Hb. destruct others as [|o os]; simpl; [done|]. intros [= <-].
  apply Forall_map, Forall_forall. intros a _. simpl.
  apply fold_minimum_not_below.
  - apply Forall_map, Forall_forall. intros p _. simpl. by apply vnorm_not_below.
  - by apply vnorm_not_below.
Qed.

Lemma zip_minimum_not_below b (l1 l2 : list fl) :
  Forall (fun d => forall r, d = Num r -> b <= r) l1 ->
  Forall (fun d => forall r, d = Num r -> b <= r) l2 ->
  Forall (fun d => forall r, d = Num r -> b <= r) (zip_with Fl.minimum l1 l2).
Proof.
  intros H1. revert l2. induction H1 as [|x l1 Hx _ IH]; intros l2 H2; simpl;
    [constructor|].
  destruct H2 as [|y l2 Hy H2]; [constructor|]. constructor; [|by apply IH].
  intros r. destruct x as [x|], y as [y|]; simpl; try done.
  intros [= <-]. apply Rmin_glb; [by apply Hx|by apply Hy].
Qed.

Lemma np_any_lt_not_below bd md :
  (forall b, bd = Num b -> b <= 0) ->
  (forall b, bd = Num b -> Forall (fun d => forall r, d = Num r -> b <= r) md) ->
  np_any_lt md bd = false.
Proof.
  intros Hbd Hmd. unfold np_any_lt.
  destruct bd as [b|].
  - specialize (Hmd b eq_refl).
    induction Hmd as [|d md Hd _ IH]; simpl; [done|].
    rewrite IH, orb_false_r. destruct d as [x|]; simpl; [|done].
    destruct (Rlt_dec x b); [|done]. specialize (Hd x eq_refl). lra.
  - clear Hbd Hmd. induction md as [|d md IH]; simpl; [done|]. rewrite IH. by destruct d.
Qed.

Lemma place_site_never_clashes Lp Tp bd prev site :
  minimize_propagates ->
  (forall b, bd = Num b -> b <= 0) ->
  place_site Lp Tp bd prev site <> Raise StericClash.
Proof.
  intros Hmin Hbd Hclash.
  apply place_site_steric in Hclash as (p & Hp & Hany); [|done].
  pose proof (site_plan_final_length _ _ _ _ _ _ Hp) as Hlen.
  apply site_plan_inv in Hp as (s & _ & _ & _ & _ & _ & _ & _ & _ & Hcl & _).
  rewrite <- Hlen in Hcl.
  apply clearances_inv in Hcl as (_ & _ & mdL & HmdL & Hmd).
  rewrite np_any_lt_not_below in Hany; [done|done|].
  intros b ->. specialize (Hbd b eq_refl).
  pose proof (min_distances_to_not_below b _ _ _ Hbd HmdL) as HL.
  destruct prev as [|b0 prev']; [by subst|].
  destruct Hmd as (mdP & HmdP & ->).
  apply zip_minimum_not_below; [done|].
  by apply (min_distances_to_not_below b _ _ _ Hbd HmdP).
Qed.

(** The validator compares distances, which are never negative, with the
    bond distance by a strict [<], and a comparison with NaN is false:
    with a bond distance that is zero, negative or NaN no call raises the
    steric clash error, whatever the geometry. *)
Theorem no_clash_without_positive_bond_distance
    ligand metal_center sites bd L T w r w' :
  minimize_propagates ->
  heap w !! ligand = Some L ->
  heap w !! metal_center = Some T ->
  (forall b, bd = Num b -> b <= 0) ->
  ligand_metal_docking ligand metal_center sites bd w = (r, w') ->
  r <> Raise StericClash.
Proof.
  intros Hmin HL HT Hbd Hrun.
  pose proof (ligand_metal_docking_fst _ _ sites bd _ _ _ HL HT) as Hfst.
  rewrite Hrun in Hfst. simpl in Hfst. subst r. clear Hrun.
  generalize (@nil (list vec)). induction sites as [|site sites IH]; intros prev;
    simpl; [done|].
  destruct (place_site _ _ _ _ _) as [p|e] eqn:Hp; simpl.
  - specialize (IH (prev ++ [plan_metal_atoms p])).
    destruct (place_sites _ _ _ _ _); simpl in *; [done|exact IH].
  - intros [= ->]. by apply place_site_never_clashes in Hp.
Qed.

End Sign.

End Further.

(** ** Further properties on the example *)

(** A call that fails at an invalid index fails in the same way when a
    site follows. *)
Lemma failure_ignores_later_sites_witness :
  ligand_metal_docking (lib := stationary_scipy) 0 1 ([[5%Z]] ++ [[0%Z]]) (Num 2)
    example_world
  = (Raise IndexError, World [example_ligand; example_cluster; example_ligand] []).
Proof.
  apply (failure_ignores_later_sites (lib := stationary_scipy) 0 1 [[5%Z]] [[0%Z]]
           (Num 2) example_world).
  reflexivity.
Defined.

(** The first site of the example, placed alone, gives the first eight
    atoms of the structure of the two sites. *)
Lemma earlier_sites_ignore_later_ones_witness :
  exists w1 S1 rest,
    ligand_metal_docking (lib := stationary_scipy) 0 1 [[0%Z]] (Num 2) example_world
    = (Return 2, w1)
    /\ heap w1 !! 2 = Some S1
    /\ example_result = S1 ++ rest
    /\ length S1 = length example_ligand + length [[0%Z]] * length example_cluster
    /\ length rest = length [[1%Z]] * length example_cluster.
Proof.
  destruct example_run as (md0 & md1 & w' & _ & Hrun & Hheap & _).
  apply (earlier_sites_ignore_later_ones (lib := stationary_scipy) 0 1
           [[0%Z]] [[1%Z]] (Num 2) example_ligand example_cluster example_world
           2 w' example_result).
  - reflexivity.
  - reflexivity.
  - exact Hrun.
  - exact Hheap.
Defined.

(** The exception of the call of the example with an index out of range. *)
Lemma exceptions_of_a_call_witness :
  ligand_metal_docking (lib := stationary_scipy) 0 1 [[5%Z]] (Num 2) example_world
  = (Raise IndexError, World [example_ligand; example_cluster; example_ligand] [])
  /\ (IndexError = IndexError \/ IndexError = ValueError zero_size_message
      \/ IndexError = HullError \/ IndexError = StericClash).
Proof.
  split; [reflexivity|].
  apply (exceptions_of_a_call (lib := stationary_scipy) 0 1 [[5%Z]] (Num 2)
           example_ligand example_cluster example_world IndexError
           (World [example_ligand; example_cluster; example_ligand] [])).
  - exact stationary_propagates.
  - reflexivity.
  - reflexivity.
  - reflexivity.
Defined.

(** An index out of range at the second site of the example: the first
    instance has been placed when the call fails. *)
Lemma invalid_index_raises_witness :
  exists md0,
    ligand_metal_docking (lib := stationary_scipy) 0 1
      ([[0%Z]] ++ [2%Z] :: [[1%Z]]) (Num 2) example_world
    = (Raise IndexError,
       World (heap_after example_ligand example_cluster [example_plan_0 md0]
                (heap example_world))
             (calls example_world ++ concat (map plan_calls [example_plan_0 md0]))).
Proof.
  destruct example_place_0 as [md0 H0]. exists md0.
  apply (invalid_index_raises (lib := stationary_scipy) 0 1 [[0%Z]] [2%Z] [[1%Z]]
           (Num 2) example_ligand example_cluster example_world [example_plan_0 md0]).
  - reflexivity.
  - reflexivity.
  - cbn [place_sites]. rewrite H0. reflexivity.
  - apply Exists_cons_hd. unfold numpy_valid. simpl. lia.
Defined.

(** A ligand without atoms: the first site cannot be indexed. *)
Lemma empty_ligand_never_returns_witness :
  exists e,
    (ligand_metal_docking (lib := stationary_scipy) 0 1 [[0%Z]] (Num 2)
       (World [[]; example_cluster] [])).1 = Raise e
    /\ e <> StericClash
    /\ ([0%Z] <> [] -> e = IndexError).
Proof.
  apply (empty_ligand_never_returns (lib := stationary_scipy) 0 1 [0%Z] [] (Num 2)
           example_cluster (World [[]; example_cluster] []) _
           (ligand_metal_docking (lib := stationary_scipy) 0 1 [[0%Z]] (Num 2)
              (World [[]; example_cluster] [])).2).
  - exact stationary_propagates.
  - reflexivity.
  - reflexivity.
  - apply surjective_pairing.
Defined.

(** The example is well formed, and returns. *)
Lemma well_formed_call_returns_or_clashes_witness :
  @Return loc 2 = Return (length (heap example_world))
  \/ @Return loc 2 = Raise StericClash.
Proof.
  destruct example_run as (md0 & md1 & w' & _ & Hrun & _).
  apply (well_formed_call_returns_or_clashes (lib := stationary_scipy) 0 1
           example_sites (Num 2) example_ligand example_cluster example_world
           bipyramid_facets (Return 2) w').
  - exact stationary_propagates.
  - reflexivity.
  - reflexivity.
  - discriminate.
  - repeat constructor; unfold numpy_valid; simpl; lia.
  - reflexivity.
  - discriminate.
  - simpl. repeat (constructor; [lia|]). constructor.
  - simpl. lia.
  - exact Hrun.
Defined.

(** The last atom of the ligand of the example, named from the end. *)
Lemma negative_indices_wrap_witness :
  exists sp,
    take_rows (map position example_ligand)
      (map (fun i => (i + Z.of_nat (length (map position example_ligand)))%Z)
           [(-1)%Z]) = Return sp
    /\ site_geometry (map position example_ligand)
         (length (map position example_ligand)) [(-1)%Z]
       = Return (sp, np_mean_axis0 sp,
                 let d := vsub (np_mean_axis0 sp)
                               (np_mean_axis0 (map position example_ligand)) in
                 if Fl.ltb (vnorm d) (Num 1e-10) then z_axis else vdiv d (vnorm d)).
Proof.
  apply (negative_indices_wrap (map position example_ligand) [(-1)%Z]).
  - discriminate.
  - constructor; [simpl; lia|constructor].
Defined.

(** The first site of the example given twice, with a bond distance of
    zero: the second instance lies on the first, and passes. *)
Lemma no_clash_without_positive_bond_distance_witness :
  (ligand_metal_docking (lib := stationary_scipy) 0 1 [[0%Z]; [0%Z]] (Num 0)
     example_world).1 <> Raise StericClash.
Proof.
  apply (no_clash_without_positive_bond_distance (lib := stationary_scipy) 0 1
           [[0%Z]; [0%Z]] (Num 0) example_ligand example_cluster example_world _
           (ligand_metal_docking (lib := stationary_scipy) 0 1 [[0%Z]; [0%Z]] (Num 0)
              example_world).2).
  - exact stationary_propagates.
  - reflexivity.
  - reflexivity.
  - intros b [= <-]. apply Rle_refl.
  - apply surjective_pairing.
Defined.

(** ** Electron counting: properties *)

Section ElectronCounting.
Import Electrons.
Context {ase : ASE}.

(** *** Valence electrons *)

Lemma noble_gas_numbers :
  periodic_table ->
  comprehension (fun s => match atomic_numbers s with
                          | Some n => Ok n
                          | None => Err (KeyError s)
                          end) noble_gases
  = Ok [2; 10; 18; 36; 54; 86]%Z.
Proof.
  unfold periodic_table, noble_gases. intros [= H1 H2 H3 H4 H5 H6].
  cbn [comprehension]. rewrite H1, H2, H3, H4, H5, H6. reflexivity.
Qed.

Lemma get_valence_electrons_cases element n rest :
  periodic_table ->
  Atoms_numbers element = Ok (n :: rest) ->
  exists c,
    get_valence_electrons element = Ok (n - c)%Z
    /\ ((n <= 2 /\ c = 0) \/ (2 < n <= 10 /\ c = 2) \/ (10 < n <= 18 /\ c = 10)
        \/ (18 < n <= 36 /\ c = 18) \/ (36 < n <= 54 /\ c = 36)
        \/ (54 < n <= 86 /\ c = 54) \/ (86 < n /\ c = 86))%Z.
Proof.
  intros Hpt Hn. unfold get_valence_electrons.
  rewrite Hn. cbn [mbind outcome_bind first].
  rewrite (noble_gas_numbers Hpt). cbn [mbind outcome_bind List.filter].
  destruct (Z.ltb_spec 2 n), (Z.ltb_spec 10 n), (Z.ltb_spec 18 n),
    (Z.ltb_spec 36 n), (Z.ltb_spec 54 n), (Z.ltb_spec 86 n);
    try lia; cbn; eexists; (split; [reflexivity|lia]).
Qed.

(** With the noble gases in ASE's table, an element whose first atom has
    a positive atomic number [n] has between one and [n] valence
    electrons, and at most 32 up to oganesson; up to helium all the
    electrons are valence electrons. *)
Theorem valence_electrons_bounds element n rest :
  periodic_table ->
  Atoms_numbers element = Ok (n :: rest) ->
  (1 <= n)%Z ->
  exists v,
    get_valence_electrons element = Ok v
    /\ (1 <= v <= n)%Z
    /\ (n <= 2 -> v = n)%Z
    /\ (n <= 118 -> v <= 32)%Z.
Proof.
  intros Hpt Hn Hpos.
  destruct (get_valence_electrons_cases element n rest Hpt Hn) as (c & -> & Hc).
  eexists. split; [reflexivity|]. lia.
Qed.

(** The count follows the periods: the element after a noble gas has one
    valence electron, any other element one more than the element
    before it.  A noble gas itself is not its own core: neon has 8,
    krypton 18, radon 32. *)
Theorem valence_electrons_next element element' n rest rest' :
  periodic_table ->
  Atoms_numbers element = Ok (n :: rest) ->
  Atoms_numbers element' = Ok ((n + 1)%Z :: rest') ->
  exists v v',
    get_valence_electrons element = Ok v
    /\ get_valence_electrons element' = Ok v'
    /\ v' = if bool_decide (n ∈ [2; 10; 18; 36; 54; 86]%Z) then 1%Z else (v + 1)%Z.
Proof.
  intros Hpt Hn Hn'.
  destruct (get_valence_electrons_cases element n rest Hpt Hn) as (c & -> & Hc).
  destruct (get_valence_electrons_cases element' _ rest' Hpt Hn') as (c' & -> & Hc').
  eexists _, _. split; [reflexivity|]. split; [reflexivity|].
  case_bool_decide as Hin.
  - repeat (apply elem_of_cons in Hin as [->|Hin]; [lia|]).
    by apply elem_of_nil in Hin.
  - assert (n <> 2 /\ n <> 10 /\ n <> 18 /\ n <> 36 /\ n <> 54 /\ n <> 86)%Z
      as Hne.
    { repeat split; intros ->; apply Hin; apply list_elem_of_In; simpl; auto 10. }
    lia.
Qed.

(** *** The dictionary of bonding sites *)

Lemma dict_set_fresh {V} (d : list (Z * V)) k v :
  k ∉ map fst d -> dict_set d k v = d ++ [(k, v)].
Proof.
  intros Hk. unfold dict_set.
  destruct (existsb _ d) eqn:Hex; [|done]. exfalso. apply Hk.
  apply existsb_exists in Hex as (e & He & Heq).
  apply Z.eqb_eq in Heq. subst k.
  apply list_elem_of_In, in_map. exact He.
Qed.

Lemma site_of_eq bond_orders acc item :
  site_of bond_orders acc item
  = match get_valence_electrons (element item.2) with
    | Ok v =>
        Ok (dict_set acc item.1
              (BondingSite (element item.2)
                 (Fl.sub (Num (IZR v)) (charge item.2))
                 (charge item.2)
                 (bonding_electrons_of bond_orders item.1)
                 (Fl.sub (Fl.sub (Num (IZR v)) (charge item.2))
                         (bonding_electrons_of bond_orders item.1))))
    | Err e => Err e
    end.
Proof. unfold site_of. by destruct (get_valence_electrons _). Qed.

(** What the loop has stored for an atom. *)
Lemma for_items_sites bond_orders mbis_data :
  forall acc d,
  NoDup (map fst acc ++ map fst mbis_data) ->
  for_items (site_of bond_orders) acc mbis_data = Ok d ->
  exists tail,
    d = acc ++ tail
    /\ Forall2 (fun item entry =>
         exists v,
           get_valence_electrons (element item.2) = Ok v
           /\ entry = (item.1,
                BondingSite (element item.2)
                  (Fl.sub (Num (IZR v)) (charge item.2))
                  (charge item.2)
                  (bonding_electrons_of bond_orders item.1)
                  (Fl.sub (Fl.sub (Num (IZR v)) (charge item.2))
                          (bonding_electrons_of bond_orders item.1))))
       mbis_data tail.
Proof.
  induction mbis_data as [|item items IH]; intros acc d Hnd; cbn [for_items].
  - intros [= <-]. exists []. by rewrite app_nil_r.
  - rewrite site_of_eq.
    destruct (get_valence_electrons (element item.2)) as [v|e] eqn:Hv;
      cbn [mbind outcome_bind]; [|done].
    rewrite dict_set_fresh.
    2:{ cbn [map] in Hnd. apply NoDup_app in Hnd as (_ & Hdis & _).
        intros Hin. apply (Hdis _ Hin). by left. }
    intros Hd. apply IH in Hd as (tail & -> & Htail).
    + eexists (_ :: tail). split; [by rewrite <- app_assoc|].
      constructor; [|exact Htail]. exists v. done.
    + rewrite map_app. cbn [map]. rewrite <- app_assoc. exact Hnd.
Qed.

Lemma for_items_app {A S} (body : S -> A -> outcome S) l1 l2 :
  forall s, for_items body s (l1 ++ l2)
  = match for_items body s l1 with
    | Ok s' => for_items body s' l2
    | Err e => Err e
    end.
Proof.
  induction l1 as [|x l1 IH]; intros s; cbn [for_items app]; [done|].
  destruct (body s x); cbn [mbind outcome_bind]; [apply IH|done].
Qed.

Lemma known_valence element :
  periodic_table -> known element ->
  exists v, get_valence_electrons element = Ok v.
Proof.
  intros Hpt (n & rest & Hn).
  destruct (get_valence_electrons_cases element n rest Hpt Hn) as (c & Hc & _).
  eauto.
Qed.

Lemma for_items_total bond_orders mbis_data :
  periodic_table ->
  Forall (fun item => known (element item.2)) mbis_data ->
  forall acc, exists d, for_items (site_of bond_orders) acc mbis_data = Ok d.
Proof.
  intros Hpt. induction 1 as [|item items Hk _ IH]; intros acc; cbn [for_items];
    [eauto|].
  rewrite site_of_eq. destruct (known_valence _ Hpt Hk) as [v ->].
  cbn [mbind outcome_bind]. apply IH.
Qed.

(** When ASE knows the element of every atom, the call returns a
    dictionary with one entry per atom of [mbis_data], under the same
    key and in the same order; the entry carries the atom's element and
    charge, the valence electrons less the charge, the orders of the
    atom's bonds, and the difference of the two. *)
Theorem bonding_sites_one_per_atom bond_orders mbis_data :
  periodic_table ->
  NoDup (map fst mbis_data) ->
  Forall (fun item => known (element item.2)) mbis_data ->
  exists d,
    find_potential_bonding_sites bond_orders mbis_data = Ok d
    /\ map fst d = map fst mbis_data
    /\ Forall2 (fun item entry =>
         site_element entry.2 = element item.2
         /\ mbis_charge entry.2 = charge item.2
         /\ bonding_electrons entry.2 = bonding_electrons_of bond_orders item.1
         /\ (exists v,
               get_valence_electrons (element item.2) = Ok v
               /\ available_electrons entry.2 = Fl.sub (Num (IZR v)) (charge item.2))
         /\ free_electrons entry.2
            = Fl.sub (available_electrons entry.2) (bonding_electrons entry.2))
       mbis_data d.
Proof.
  intros Hpt Hnd Hknown. unfold find_potential_bonding_sites.
  destruct (for_items_total bond_orders mbis_data Hpt Hknown []) as [d Hd].
  exists d. split; [exact Hd|].
  apply for_items_sites in Hd as (tail & -> & Htail); [|exact Hnd].
  cbn [app]. split.
  - clear Hnd Hknown. induction Htail as [|item entry items tail (v & _ & ->) _ IH];
      cbn [map]; [done|]. by rewrite IH.
  - eapply Forall2_impl; [exact Htail|].
    intros item entry (v & Hv & ->). cbn. eauto 10.
Qed.

(** The call raises what the first atom, in the order of [mbis_data],
    whose element ASE does not know makes [get_valence_electrons] raise:
    the exception of [Atoms], or [IndexError] for a formula without
    atoms.  No dictionary is returned, whatever the atoms before it. *)
Theorem bonding_sites_first_unknown bond_orders before item after :
  periodic_table ->
  Forall (fun item => known (element item.2)) before ->
  ~ known (element item.2) ->
  find_potential_bonding_sites bond_orders (before ++ item :: after)
  = Err (match Atoms_numbers (element item.2) with
         | Err e => e
         | Ok _ => ListIndexError
         end).
Proof.
  intros Hpt Hbefore Hitem. unfold find_potential_bonding_sites.
  rewrite for_items_app.
  destruct (for_items_total bond_orders before Hpt Hbefore []) as [d ->].
  cbn [for_items]. rewrite site_of_eq. unfold get_valence_electrons.
  destruct (Atoms_numbers (element item.2)) as [[|n rest]|e] eqn:Hn;
    cbn [mbind outcome_bind first]; [done| |done].
  exfalso. apply Hitem. by exists n, rest.
Qed.

(** *** Bond orders, counted at both ends *)

Lemma concat_map_nil {A B} (l : list A) :
  concat (map (fun _ => @nil B) l) = [].
Proof. induction l as [|x l IH]; simpl; [done|exact IH]. Qed.

Lemma concat_map_app {A B} (f g : A -> list B) (l : list A) :
  concat (map (fun x => f x ++ g x) l) ≡ₚ concat (map f l) ++ concat (map g l).
Proof.
  induction l as [|x l IH]; simpl; [done|].
  rewrite IH, <- !app_assoc. f_equiv. apply Permutation_app_swap_app.
Qed.

Lemma at_absent {B} (keys : list Z) a (o : B) :
  a ∉ keys ->
  concat (map (fun k => if (k =? a)%Z then [o] else []) keys) = [].
Proof.
  induction keys as [|k keys IH]; simpl; [done|].
  intros Ha. apply not_elem_of_cons in Ha as [Hne Ha].
  destruct (Z.eqb_spec k a); [congruence|]. simpl. by apply IH.
Qed.

Lemma at_present {B} (keys : list Z) a (o : B) :
  NoDup keys -> a ∈ keys ->
  concat (map (fun k => if (k =? a)%Z then [o] else []) keys) = [o].
Proof.
  induction 1 as [|k keys Hk _ IH]; simpl.
  - intros Ha. by apply elem_of_nil in Ha.
  - intros [->|Ha]%elem_of_cons.
    + rewrite Z.eqb_refl. simpl. by rewrite at_absent.
    + destruct (Z.eqb_spec k a) as [->|_]; [done|]. simpl. by apply IH.
Qed.

Lemma at_both_ends {B} (keys : list Z) a1 a2 (o : B) :
  NoDup keys -> a1 <> a2 -> a1 ∈ keys -> a2 ∈ keys ->
  concat (map (fun k => if (k =? a1)%Z || (k =? a2)%Z then [o] else []) keys)
  ≡ₚ [o; o].
Proof.
  intros Hnd Hne H1 H2.
  rewrite (map_ext _ (fun k => (if (k =? a1)%Z then [o] else [])
                               ++ (if (k =? a2)%Z then [o] else []))).
  - by rewrite concat_map_app, !at_present.
  - intros k. destruct (Z.eqb_spec k a1), (Z.eqb_spec k a2); simpl; try done.
    congruence.
Qed.

Lemma orders_over_atoms {B} (keys : list Z) (bonds : list ((Z * Z) * B)) :
  NoDup keys ->
  Forall (fun b => b.1.1 <> b.1.2 /\ b.1.1 ∈ keys /\ b.1.2 ∈ keys) bonds ->
  concat (map (fun k =>
                 map snd (List.filter
                            (fun b => (k =? b.1.1)%Z || (k =? b.1.2)%Z) bonds))
              keys)
  ≡ₚ map snd bonds ++ map snd bonds.
Proof.
  intros Hnd. induction 1 as [|b bonds (Hne & H1 & H2) _ IH].
  - cbn [List.filter map]. by rewrite concat_map_nil.
  - rewrite (map_ext _ (fun k =>
               (if (k =? b.1.1)%Z || (k =? b.1.2)%Z then [b.2] else [])
               ++ map snd (List.filter
                             (fun b => (k =? b.1.1)%Z || (k =? b.1.2)%Z) bonds))).
    + rewrite concat_map_app, IH, at_both_ends by done.
      cbn [map app]. constructor. by rewrite Permutation_middle.
    + intros k. cbn [List.filter].
      by destruct ((k =? b.1.1)%Z || (k =? b.1.2)%Z).
Qed.

(** Every bond between two distinct atoms of [mbis_data] is counted at
    both: the bonding electrons of an atom are the sum of the orders of
    the bonds it is an end of, and these orders, taken over all atoms,
    are the bond orders, each twice. *)
Theorem bonds_count_at_both_ends bond_orders mbis_data d :
  find_potential_bonding_sites bond_orders mbis_data = Ok d ->
  NoDup (map fst mbis_data) ->
  Forall (fun b => b.1.1 <> b.1.2
                   /\ b.1.1 ∈ map fst mbis_data /\ b.1.2 ∈ map fst mbis_data)
         bond_orders ->
  let orders_at (k : Z) :=
    map snd (List.filter (fun b => (k =? b.1.1)%Z || (k =? b.1.2)%Z) bond_orders) in
  Forall2 (fun item entry => bonding_electrons entry.2 = py_sum (orders_at item.1))
          mbis_data d
  /\ concat (map (fun item => orders_at item.1) mbis_data)
     ≡ₚ map snd bond_orders ++ map snd bond_orders.
Proof.
  intros Hd Hnd Hbonds orders_at. unfold find_potential_bonding_sites in Hd.
  apply for_items_sites in Hd as (tail & -> & Htail); [|exact Hnd]. cbn [app].
  split.
  - eapply Forall2_impl; [exact Htail|]. by intros item entry (v & _ & ->).
  - rewrite <- (map_map fst orders_at). by apply orders_over_atoms.
Qed.

End ElectronCounting.

(** ** Electron counting on the example *)

(** Bromine: seventeen electrons beyond the argon core. *)
Lemma valence_electrons_bounds_witness :
  exists v,
    Electrons.get_valence_electrons (ase := Electrons.example_ase) "Br" = Electrons.Ok v
    /\ (1 <= v <= 35)%Z
    /\ (35 <= 2 -> v = 35)%Z
    /\ (35 <= 118 -> v <= 32)%Z.
Proof.
  apply (valence_electrons_bounds (ase := Electrons.example_ase) "Br" 35 []).
  - reflexivity.
  - reflexivity.
  - lia.
Defined.

(** Sodium comes after neon. *)
Lemma valence_electrons_next_witness :
  exists v v',
    Electrons.get_valence_electrons (ase := Electrons.example_ase) "Ne" = Electrons.Ok v
    /\ Electrons.get_valence_electrons (ase := Electrons.example_ase) "Na"
       = Electrons.Ok v'
    /\ v' = if bool_decide (10%Z ∈ [2; 10; 18; 36; 54; 86]%Z) then 1%Z else (v + 1)%Z.
Proof.
  apply (valence_electrons_next (ase := Electrons.example_ase) "Ne" "Na" 10 [] []).
  - reflexivity.
  - reflexivity.
  - reflexivity.
Defined.

Lemma water_keys : NoDup (map fst Electrons.water_mbis).
Proof.
  repeat (apply NoDup_cons; split;
          [intros H; repeat (apply elem_of_cons in H as [H|H]; [discriminate|]);
           by apply elem_of_nil in H|]).
  apply NoDup_nil_2.
Qed.

(** The three atoms of water. *)
Lemma bonding_sites_one_per_atom_witness :
  exists d,
    Electrons.find_potential_bonding_sites (ase := Electrons.example_ase)
      Electrons.water_bonds Electrons.water_mbis = Electrons.Ok d
    /\ map fst d = map fst Electrons.water_mbis
    /\ Forall2 (fun item entry =>
         Electrons.site_element entry.2 = Electrons.element item.2
         /\ Electrons.mbis_charge entry.2 = Electrons.charge item.2
         /\ Electrons.bonding_electrons entry.2
            = Electrons.bonding_electrons_of Electrons.water_bonds item.1
         /\ (exists v,
               Electrons.get_valence_electrons (ase := Electrons.example_ase)
                 (Electrons.element item.2) = Electrons.Ok v
               /\ Electrons.available_electrons entry.2
                  = Fl.sub (Num (IZR v)) (Electrons.charge item.2))
         /\ Electrons.free_electrons entry.2
            = Fl.sub (Electrons.available_electrons entry.2)
                     (Electrons.bonding_electrons entry.2))
       Electrons.water_mbis d.
Proof.
  apply (bonding_sites_one_per_atom (ase := Electrons.example_ase)
           Electrons.water_bonds Electrons.water_mbis).
  - reflexivity.
  - exact water_keys.
  - repeat constructor; eexists _, _; reflexivity.
Defined.

(** Water with an atom ASE cannot read in the second place. *)
Lemma bonding_sites_first_unknown_witness :
  Electrons.find_potential_bonding_sites (ase := Electrons.example_ase)
    Electrons.water_bonds
    ([(0%Z, Electrons.MbisInfo "O" (Num (-1)))]
     ++ (1%Z, Electrons.MbisInfo "Zz" (Num (1 / 2)))
     :: [(2%Z, Electrons.MbisInfo "H" (Num (1 / 2)))])
  = Electrons.Err (Electrons.AtomsError "Zz").
Proof.
  apply (bonding_sites_first_unknown (ase := Electrons.example_ase)
           Electrons.water_bonds
           [(0%Z, Electrons.MbisInfo "O" (Num (-1)))]
           (1%Z, Electrons.MbisInfo "Zz" (Num (1 / 2)))
           [(2%Z, Electrons.MbisInfo "H" (Num (1 / 2)))]).
  - reflexivity.
  - repeat constructor; eexists _, _; reflexivity.
  - intros (n & rest & H). discriminate H.
Defined.

(** The two bonds of water are counted at the oxygen and at a hydrogen
    each. *)
Lemma bonds_count_at_both_ends_witness :
  exists d,
    Electrons.find_potential_bonding_sites (ase := Electrons.example_ase)
      Electrons.water_bonds Electrons.water_mbis = Electrons.Ok d
    /\ Forall2 (fun item entry =>
         Electrons.bonding_electrons entry.2
         = Electrons.py_sum
             (map snd (List.filter
                         (fun b => (item.1 =? b.1.1)%Z || (item.1 =? b.1.2)%Z)
                         Electrons.water_bonds)))
       Electrons.water_mbis d
    /\ concat (map (fun item =>
                      map snd (List.filter
                                 (fun b => (item.1 =? b.1.1)%Z || (item.1 =? b.1.2)%Z)
                                 Electrons.water_bonds))
                   Electrons.water_mbis)
       ≡ₚ map snd Electrons.water_bonds ++ map snd Electrons.water_bonds.
Proof.
  eexists. split; [reflexivity|].
  apply (bonds_count_at_both_ends (ase := Electrons.example_ase)
           Electrons.water_bonds Electrons.water_mbis).
  - reflexivity.
  - exact water_keys.
  - repeat constructor; try discriminate;
      apply list_elem_of_In; simpl; auto.
Defined.
